(** * The graphics command queue of Ebitengine: batching, flushing, restoring

    A shallow embedding of [internal/graphicscommand]'s command queue
    (package [graphicscommand], file commandqueue.go) and of the
    restoration pass of [internal/restorable], with the properties the
    specification states about them.

    Conventions.
    - Go's [int] is a signed machine integer of [uintBits] bits; it is
      modelled as [Z] with the wrap-around written out ([int_wrap]).
      [uint32] is [Z] reduced modulo 2^32.
    - A Go slice is modelled by the list of its elements; [len] is the
      length as a [Z].
    - A nil [error] is [None].
    - A pointer ([*Image], [*Shader]) is modelled by a record carrying the
      address in an [_id] field; pointer comparison compares addresses. *)

From Stdlib Require Import ZArith Lia.
From stdpp Require Import base numbers option list strings gmap.

Local Open Scope Z_scope.

(** ** Machine integers *)

Definition len {A : Type} (l : list A) : Z := Z.of_nat (length l).

Definition MaxUint32 : Z := 2 ^ 32 - 1.
Definition MaxInt32 : Z := 2 ^ 31 - 1.

(** [uint32(x)]: conversion to (and arithmetic in) 32 unsigned bits. *)
Definition uint32 (x : Z) : Z := x mod 2 ^ 32.

Definition uint32_add (x y : Z) : Z := uint32 (x + y).

(** The build target: the width of [int]/[uint], and the constant
    [graphics.VertexFloatCount] (declared in package [graphics], which is
    not part of the sources at hand). *)
Class Target := {
  uintBits : Z;
  VertexFloatCount : Z
}.

(** What every supported target satisfies: a 32 or 64 bit word, and a
    vertex made of a small positive number of floats. *)
Class TargetOk `{Target} : Prop := {
  uintBits_ok : uintBits = 32 ∨ uintBits = 64;
  VertexFloatCount_pos : 0 < VertexFloatCount;
  VertexFloatCount_small : VertexFloatCount < 2 ^ 16
}.

Section MachineInt.
Context `{Target}.

Definition MaxInt : Z := 2 ^ (uintBits - 1) - 1.
Definition MinInt : Z := - 2 ^ (uintBits - 1).

(** Two's complement wrap-around of [int]. *)
Definition int_wrap (z : Z) : Z :=
  (z + 2 ^ (uintBits - 1)) mod 2 ^ uintBits - 2 ^ (uintBits - 1).

Definition int_add (x y : Z) : Z := int_wrap (x + y).

(** [^uint(0)]: all bits set. *)
Definition uint_allones : Z := Z.ones uintBits.

(** const is32bit = 1 >> (^uint(0) >> 63) *)
Definition is32bit : Z := Z.shiftr 1 (Z.shiftr uint_allones 63).
(** const is64bit = 1 - is32bit *)
Definition is64bit : Z := 1 - is32bit.

(** const MaxVertexCount =
      is64bit*math.MaxUint32 + is32bit*(math.MaxInt32/graphics.VertexFloatCount) *)
Definition MaxVertexCount : Z :=
  is64bit * MaxUint32 + is32bit * (Z.quot MaxInt32 VertexFloatCount).

(** const maxVertexFloatCount = MaxVertexCount * graphics.VertexFloatCount *)
Definition maxVertexFloatCount : Z := MaxVertexCount * VertexFloatCount.

(** func mustUseDifferentVertexBuffer(nextNumVertexFloats int) bool *)
Definition mustUseDifferentVertexBuffer (nextNumVertexFloats : Z) : bool :=
  bool_decide (nextNumVertexFloats > maxVertexFloatCount).
End MachineInt.

(** ** Floating point

    [float32] values are kept abstract: the queue only converts integers
    to floats, divides, and reinterprets the bits ([math.Float32bits]). *)
Class Float32 := {
  float32 : Type;
  float32_of_int : Z → float32;
  float32_div : float32 → float32 → float32;
  Float32bits : float32 → Z
}.

(** ** Data model *)

(** Go's [error] values, by their message. *)
Definition error : Type := string.

(** A call that may abort with a Go panic. *)
Inductive outcome (A : Type) : Type :=
| Done (a : A)
| Panic (msg : string).
Arguments Done {A} a.
Arguments Panic {A} msg.

(** [image.Point] and [image.Rectangle]. *)
Record Point := { X : Z; Y : Z }.
Record Rectangle := { Min : Point; Max : Point }.

Definition Dx (r : Rectangle) : Z := X (Max r) - X (Min r).
Definition Dy (r : Rectangle) : Z := Y (Max r) - Y (Min r).

(** [r == s] on rectangles is the comparison of the four coordinates. *)
Definition Rectangle_eqb (r s : Rectangle) : bool :=
  (X (Min r) =? X (Min s)) && (Y (Min r) =? Y (Min s)) &&
  (X (Max r) =? X (Max s)) && (Y (Max r) =? Y (Max s)).

(** An array [[4]T] ([graphics.ShaderSrcImageCount] is 4: the queue reads
    [srcs[0]] to [srcs[3]]). *)
Record array4 (A : Type) := Array4 { at0 : A; at1 : A; at2 : A; at3 : A }.
Arguments Array4 {A} _ _ _ _.
Arguments at0 {A} _.
Arguments at1 {A} _.
Arguments at2 {A} _.
Arguments at3 {A} _.

Definition array4_map {A B : Type} (f : A → B) (a : array4 A) : array4 B :=
  Array4 (f (at0 a)) (f (at1 a)) (f (at2 a)) (f (at3 a)).

Definition array4_zip {A B C : Type} (f : A → B → C) (a : array4 A) (b : array4 B)
  : array4 C :=
  Array4 (f (at0 a) (at0 b)) (f (at1 a) (at1 b)) (f (at2 a) (at2 b)) (f (at3 a) (at3 b)).

Definition array4_eqb {A : Type} (eqb : A → A → bool) (a b : array4 A) : bool :=
  eqb (at0 a) (at0 b) && eqb (at1 a) (at1 b) && eqb (at2 a) (at2 b) && eqb (at3 a) (at3 b).

(** [*Image]: the address and what [InternalSize] returns. A nil pointer
    in [srcs] is [None]. *)
Record Image := { image_id : Z; internalWidth : Z; internalHeight : Z }.

Definition InternalSize (i : Image) : Z * Z := (internalWidth i, internalHeight i).

Definition Image_eqb (a b : Image) : bool := image_id a =? image_id b.

Definition optImage_eqb (a b : option Image) : bool :=
  match a, b with
  | Some x, Some y => Image_eqb x y
  | None, None => true
  | _, _ => false
  end.

(** [shaderir.Unit]. *)
Inductive Unit := Texels | Pixels.

Definition Unit_eqb (a b : Unit) : bool :=
  match a, b with
  | Texels, Texels | Pixels, Pixels => true
  | _, _ => false
  end.

(** Modelled from the spec: [shaderir.Program] and its method
    [FilterUniformVariables] are not among the sources. The spec: "Remove
    uniform slots the shader's compiled form proves unused, so two draws
    differing only in an ignored uniform value can still merge." The
    compiled form says which slots are used; the unused ones are zeroed
    in place, so the slice keeps its length. *)
Record Program := { prog_unit : Unit; uniformUsed : nat → bool }.

Definition FilterUniformVariables (p : Program) (uniforms : list Z) : list Z :=
  imap (λ i u, if uniformUsed p i then u else 0) uniforms.

(** [*Shader]: the address and the compiled program [ir]. *)
Record Shader := { shader_id : Z; ir : Program }.

(** [shader.unit()] *)
Definition unit (s : Shader) : Unit := prog_unit (ir s).

Definition Shader_eqb (a b : Shader) : bool := shader_id a =? shader_id b.

(** [graphicsdriver.Blend]: six factor and operation codes, compared
    with [==]. *)
Record Blend := {
  BlendFactorSourceRGB : Z;
  BlendFactorSourceAlpha : Z;
  BlendFactorDestinationRGB : Z;
  BlendFactorDestinationAlpha : Z;
  BlendOperationRGB : Z;
  BlendOperationAlpha : Z
}.

Definition Blend_eqb (a b : Blend) : bool :=
  (BlendFactorSourceRGB a =? BlendFactorSourceRGB b) &&
  (BlendFactorSourceAlpha a =? BlendFactorSourceAlpha b) &&
  (BlendFactorDestinationRGB a =? BlendFactorDestinationRGB b) &&
  (BlendFactorDestinationAlpha a =? BlendFactorDestinationAlpha b) &&
  (BlendOperationRGB a =? BlendOperationRGB b) &&
  (BlendOperationAlpha a =? BlendOperationAlpha b).

(** [graphicsdriver.FillRule], an integer code compared with [==]. *)
Definition FillRule : Type := Z.

(** [graphicsdriver.DstRegion] *)
Record DstRegion := { Region : Rectangle; IndexCount : Z }.

(** The [debug] package: the build constant [debug.IsDebug], and the label
    the switch over [debug.FirstCaller()] formats ("file:line",
    "file:line (internal)", or "" for any other caller type). *)
Class Debug := {
  IsDebug : bool;
  firstCallerLabel : string
}.

(** ** uint32sBuffer, a reusable buffer to allocate []uint32

    [buf_array] is the backing array (its length is [cap(b.buf)]) and
    [buf_len] is [len(b.buf)]. *)
Record uint32sBuffer := { buf_array : list Z; buf_len : nat }.

Definition uint32sBuffer_zero : uint32sBuffer := {| buf_array := []; buf_len := 0 |}.

(** func roundUpPower2(x int) int: [p2 := 1; for p2 < x { p2 *= 2 }].
    The loop doubles [p2] fewer than [x] times. *)
Fixpoint roundUpPower2_loop (fuel : nat) (p2 x : Z) : Z :=
  match fuel with
  | O => p2
  | S fuel' => if p2 <? x then roundUpPower2_loop fuel' (p2 * 2) x else p2
  end.

Definition roundUpPower2 (x : Z) : Z := roundUpPower2_loop (Z.to_nat x) 1 x.

(** func (b *uint32sBuffer) alloc(n int) []uint32.
    Returns the offset of the slice in the backing array, its (stale)
    contents, and the buffer after the call. *)
Definition alloc (b : uint32sBuffer) (n : nat) : nat * list Z * uint32sBuffer :=
  let '(arr, l) :=
    if bool_decide (len (buf_array b) < Z.of_nat (buf_len b + n))
    then (replicate (Z.to_nat (Z.max (roundUpPower2 (Z.of_nat (buf_len b + n))) 16)) 0,
          0%nat)
    else (buf_array b, buf_len b) in
  (l, take n (drop l arr), {| buf_array := arr; buf_len := (l + n)%nat |}).

(** Writing through a slice obtained from [alloc] writes the backing
    array: [store off s b] records the slice's final contents. *)
Definition store (off : nat) (s : list Z) (b : uint32sBuffer) : uint32sBuffer :=
  {| buf_array := take off (buf_array b) ++ s ++ drop (off + length s) (buf_array b);
     buf_len := buf_len b |}.

(** func (b *uint32sBuffer) reset() *)
Definition reset (b : uint32sBuffer) : uint32sBuffer :=
  {| buf_array := buf_array b; buf_len := 0 |}.

(** const graphics.PreservedUniformDwordCount; the source confirms the
    value: [var _ [0]struct{} = [graphics.PreservedUniformDwordCount - 46]struct{}{}]. *)
Definition PreservedUniformDwordCount : nat := 46.

Section CommandQueue.
Context `{Target} `{Float32} `{Debug}.

(** ** Commands *)

(** The fields of [drawTrianglesCommand] that the queue assigns. The
    slice [c.vertices] is a window of the queue's vertex buffer; it is
    modelled by its contents. *)
Record drawTrianglesCommand := {
  c_dst : Image;
  c_srcs : array4 (option Image);
  c_vertices : list float32;
  c_blend : Blend;
  c_dstRegions : list DstRegion;
  c_shader : Shader;
  c_uniforms : list Z;
  c_fillRule : FillRule;
  c_firstCaller : string
}.

(** The [command] interface: a draw-triangles command, or one of the other
    commands (write pixels, read pixels, dispose, ...), of which the queue
    only uses the interface methods. *)
Inductive command :=
| DrawTrianglesCmd (c : drawTrianglesCommand)
| OtherCmd (tag : Z).

(** Modelled from the spec: the methods [numVertices], [numIndices] and
    [setVertices] of [drawTrianglesCommand] are not among the sources. The
    spec: a merge covers both draws "by growing the vertex/index span and
    appending a new destination sub-region"; the vertex span is the
    command's window [vertices], the index span is the sum of the index
    counts of its destination sub-regions. *)
Definition numVertices (c : drawTrianglesCommand) : Z := len (c_vertices c).

Definition numIndices (c : drawTrianglesCommand) : Z :=
  foldl (λ n r, int_add n (IndexCount r)) 0 (c_dstRegions c).

Definition setVertices (c : drawTrianglesCommand) (vertices : list float32)
  : drawTrianglesCommand :=
  {| c_dst := c_dst c; c_srcs := c_srcs c; c_vertices := vertices;
     c_blend := c_blend c; c_dstRegions := c_dstRegions c; c_shader := c_shader c;
     c_uniforms := c_uniforms c; c_fillRule := c_fillRule c;
     c_firstCaller := c_firstCaller c |}.

Definition setDstRegions (c : drawTrianglesCommand) (rs : list DstRegion)
  : drawTrianglesCommand :=
  {| c_dst := c_dst c; c_srcs := c_srcs c; c_vertices := c_vertices c;
     c_blend := c_blend c; c_dstRegions := rs; c_shader := c_shader c;
     c_uniforms := c_uniforms c; c_fillRule := c_fillRule c;
     c_firstCaller := c_firstCaller c |}.

(** Modelled from the spec: the method [CanMergeWithDrawTrianglesCommand]
    is not among the sources. The spec: "two consecutive commands merge if
    they share destination image, source images, shader, blend mode, and
    fill rule", the uniform blocks being compared "by raw value equality"
    after the unused slots were removed. *)
Definition CanMergeWithDrawTrianglesCommand (c : drawTrianglesCommand)
    (dst : Image) (srcs : array4 (option Image)) (vertices : list float32)
    (blend : Blend) (shader : Shader) (uniforms : list Z) (fillRule : FillRule) : bool :=
  Shader_eqb (c_shader c) shader &&
  bool_decide (c_uniforms c = uniforms) &&
  Image_eqb (c_dst c) dst &&
  array4_eqb optImage_eqb (c_srcs c) srcs &&
  Blend_eqb (c_blend c) blend &&
  (c_fillRule c =? fillRule).

(** Modelled from the spec: [drawTrianglesCommandPool] is not among the
    sources. The spec: "command and queue objects are checked out/in from
    fixed pools ... implement as explicit free-lists": [put] pushes a
    record, [get] pops the most recent one, or makes a fresh record ([None])
    when the list is empty. The queue overwrites every field of the record
    it gets. *)
Definition drawTrianglesCommandPool : Type := list drawTrianglesCommand.

Definition pool_get (p : drawTrianglesCommandPool)
  : option drawTrianglesCommand * drawTrianglesCommandPool :=
  (last p, take (pred (length p)) p).

Definition pool_put (p : drawTrianglesCommandPool) (c : drawTrianglesCommand)
  : drawTrianglesCommandPool :=
  p ++ [c].

(** ** The queue *)

(** type commandQueue struct. A finalizer (a [func()]) is modelled by a
    label; running it is recorded in the flush trace. *)
Record commandQueue := {
  q_commands : list command;
  q_vertices : list float32;
  q_indices : list Z;
  q_tmpNumVertexFloats : Z;
  q_drawTrianglesCommandPool : drawTrianglesCommandPool;
  q_uint32sBuffer : uint32sBuffer;
  q_finalizers : list Z;
  q_err : option error
}.

(** [&commandQueue{}] *)
Definition commandQueue_zero : commandQueue :=
  {| q_commands := []; q_vertices := []; q_indices := []; q_tmpNumVertexFloats := 0;
     q_drawTrianglesCommandPool := []; q_uint32sBuffer := uint32sBuffer_zero;
     q_finalizers := []; q_err := None |}.

Definition set_commands (x : list command) (q : commandQueue) : commandQueue :=
  {| q_commands := x; q_vertices := q_vertices q; q_indices := q_indices q;
     q_tmpNumVertexFloats := q_tmpNumVertexFloats q;
     q_drawTrianglesCommandPool := q_drawTrianglesCommandPool q;
     q_uint32sBuffer := q_uint32sBuffer q; q_finalizers := q_finalizers q;
     q_err := q_err q |}.

Definition set_vertices (x : list float32) (q : commandQueue) : commandQueue :=
  {| q_commands := q_commands q; q_vertices := x; q_indices := q_indices q;
     q_tmpNumVertexFloats := q_tmpNumVertexFloats q;
     q_drawTrianglesCommandPool := q_drawTrianglesCommandPool q;
     q_uint32sBuffer := q_uint32sBuffer q; q_finalizers := q_finalizers q;
     q_err := q_err q |}.

Definition set_indices (x : list Z) (q : commandQueue) : commandQueue :=
  {| q_commands := q_commands q; q_vertices := q_vertices q; q_indices := x;
     q_tmpNumVertexFloats := q_tmpNumVertexFloats q;
     q_drawTrianglesCommandPool := q_drawTrianglesCommandPool q;
     q_uint32sBuffer := q_uint32sBuffer q; q_finalizers := q_finalizers q;
     q_err := q_err q |}.

Definition set_tmpNumVertexFloats (x : Z) (q : commandQueue) : commandQueue :=
  {| q_commands := q_commands q; q_vertices := q_vertices q; q_indices := q_indices q;
     q_tmpNumVertexFloats := x;
     q_drawTrianglesCommandPool := q_drawTrianglesCommandPool q;
     q_uint32sBuffer := q_uint32sBuffer q; q_finalizers := q_finalizers q;
     q_err := q_err q |}.

Definition set_drawTrianglesCommandPool (x : drawTrianglesCommandPool) (q : commandQueue)
  : commandQueue :=
  {| q_commands := q_commands q; q_vertices := q_vertices q; q_indices := q_indices q;
     q_tmpNumVertexFloats := q_tmpNumVertexFloats q;
     q_drawTrianglesCommandPool := x;
     q_uint32sBuffer := q_uint32sBuffer q; q_finalizers := q_finalizers q;
     q_err := q_err q |}.

Definition set_uint32sBuffer (x : uint32sBuffer) (q : commandQueue) : commandQueue :=
  {| q_commands := q_commands q; q_vertices := q_vertices q; q_indices := q_indices q;
     q_tmpNumVertexFloats := q_tmpNumVertexFloats q;
     q_drawTrianglesCommandPool := q_drawTrianglesCommandPool q;
     q_uint32sBuffer := x; q_finalizers := q_finalizers q;
     q_err := q_err q |}.

Definition set_finalizers (x : list Z) (q : commandQueue) : commandQueue :=
  {| q_commands := q_commands q; q_vertices := q_vertices q; q_indices := q_indices q;
     q_tmpNumVertexFloats := q_tmpNumVertexFloats q;
     q_drawTrianglesCommandPool := q_drawTrianglesCommandPool q;
     q_uint32sBuffer := q_uint32sBuffer q; q_finalizers := x;
     q_err := q_err q |}.

Definition set_err (x : option error) (q : commandQueue) : commandQueue :=
  {| q_commands := q_commands q; q_vertices := q_vertices q; q_indices := q_indices q;
     q_tmpNumVertexFloats := q_tmpNumVertexFloats q;
     q_drawTrianglesCommandPool := q_drawTrianglesCommandPool q;
     q_uint32sBuffer := q_uint32sBuffer q; q_finalizers := q_finalizers q;
     q_err := x |}.

(** func (q *commandQueue) addFinalizer(f func()) *)
Definition addFinalizer (q : commandQueue) (f : Z) : commandQueue :=
  set_finalizers (q_finalizers q ++ [f]) q.

(** func (q *commandQueue) appendIndices(indices []uint32, offset uint32):
    the indices are appended, then each appended element is increased by
    [offset] in [uint32] arithmetic. *)
Definition appendIndices (q : commandQueue) (indices : list Z) (offset : Z) : commandQueue :=
  let n := length (q_indices q) in
  let appended := q_indices q ++ indices in
  set_indices (take n appended ++ map (λ i, uint32_add i offset) (drop n appended)) q.

(** func (q *commandQueue) lastVertices(n int) []float32:
    [q.vertices[len(q.vertices)-n : len(q.vertices)]], which panics when
    the low bound is out of range. *)
Definition lastVertices (q : commandQueue) (n : Z) : outcome (list float32) :=
  if bool_decide (0 ≤ n ≤ len (q_vertices q))
  then Done (drop (Z.to_nat (len (q_vertices q) - n)) (q_vertices q))
  else Panic "slice bounds out of range".

(** func (q *commandQueue) Enqueue(command command) *)
Definition Enqueue (q : commandQueue) (c : command) : commandQueue :=
  set_commands (q_commands q ++ [c]) q.

(** ** Preserved uniforms *)

(** type rectangleF32 struct *)
Record rectangleF32 := { r_x : float32; r_y : float32; r_width : float32; r_height : float32 }.

(** func imageRectangleToRectangleF32(r image.Rectangle) rectangleF32 *)
Definition imageRectangleToRectangleF32 (r : Rectangle) : rectangleF32 :=
  {| r_x := float32_of_int (X (Min r));
     r_y := float32_of_int (Y (Min r));
     r_width := float32_of_int (Dx r);
     r_height := float32_of_int (Dy r) |}.

(** The four [/=] of a rectangle by a width and a height. *)
Definition rectangleF32_div (r : rectangleF32) (w h : Z) : rectangleF32 :=
  {| r_x := float32_div (r_x r) (float32_of_int w);
     r_y := float32_div (r_y r) (float32_of_int h);
     r_width := float32_div (r_width r) (float32_of_int w);
     r_height := float32_div (r_height r) (float32_of_int h) |}.

(** A sequence of assignments [uniforms[i] = v], in order. *)
Definition assignAll (uniforms : list Z) (ws : list (Z * Z)) : list Z :=
  foldl (λ u iv, <[Z.to_nat iv.1 := iv.2]> u) uniforms ws.

(** The pair written for [srcs[k]]: its internal size, or zeros when nil. *)
Definition srcSizeBits (src : option Image) : Z * Z :=
  match src with
  | Some i => let '(w, h) := InternalSize i in
              (Float32bits (float32_of_int w), Float32bits (float32_of_int h))
  | None => (0, 0)
  end.

(** func prependPreservedUniforms(uniforms []uint32, shader *Shader, dst *Image,
      srcs [4]*Image, dstRegion image.Rectangle, srcRegions [4]image.Rectangle) []uint32 *)
Definition prependPreservedUniforms (uniforms : list Z) (shader : Shader) (dst : Image)
    (srcs : array4 (option Image)) (dstRegion : Rectangle)
    (srcRegions : array4 Rectangle) : outcome (list Z) :=
  (* _ = uniforms[graphics.PreservedUniformDwordCount-1] *)
  if bool_decide (length uniforms ≤ PreservedUniformDwordCount - 1)%nat
  then Panic "index out of range"
  else
    let '(dw, dh) := InternalSize dst in
    let dr := imageRectangleToRectangleF32 dstRegion in
    let dr := if Unit_eqb (unit shader) Texels then rectangleF32_div dr dw dh else dr in
    let srs := array4_map imageRectangleToRectangleF32 srcRegions in
    let srs :=
      if Unit_eqb (unit shader) Texels
      then array4_zip (λ src r,
             match src with
             | None => r
             | Some i => let '(w, h) := InternalSize i in rectangleF32_div r w h
             end) srcs srs
      else srs in
    Done (assignAll uniforms [
      (0, Float32bits (float32_of_int dw));
      (1, Float32bits (float32_of_int dh));
      (2, (srcSizeBits (at0 srcs)).1); (3, (srcSizeBits (at0 srcs)).2);
      (4, (srcSizeBits (at1 srcs)).1); (5, (srcSizeBits (at1 srcs)).2);
      (6, (srcSizeBits (at2 srcs)).1); (7, (srcSizeBits (at2 srcs)).2);
      (8, (srcSizeBits (at3 srcs)).1); (9, (srcSizeBits (at3 srcs)).2);
      (10, Float32bits (r_x dr)); (11, Float32bits (r_y dr));
      (12, Float32bits (r_width dr)); (13, Float32bits (r_height dr));
      (14, Float32bits (r_x (at0 srs))); (15, Float32bits (r_y (at0 srs)));
      (16, Float32bits (r_x (at1 srs))); (17, Float32bits (r_y (at1 srs)));
      (18, Float32bits (r_x (at2 srs))); (19, Float32bits (r_y (at2 srs)));
      (20, Float32bits (r_x (at3 srs))); (21, Float32bits (r_y (at3 srs)));
      (22, Float32bits (r_width (at0 srs))); (23, Float32bits (r_height (at0 srs)));
      (24, Float32bits (r_width (at1 srs))); (25, Float32bits (r_height (at1 srs)));
      (26, Float32bits (r_width (at2 srs))); (27, Float32bits (r_height (at2 srs)));
      (28, Float32bits (r_width (at3 srs))); (29, Float32bits (r_height (at3 srs)));
      (30, Float32bits (float32_div (float32_of_int 2) (float32_of_int dw)));
      (31, 0); (32, 0); (33, 0); (34, 0);
      (35, Float32bits (float32_div (float32_of_int 2) (float32_of_int dh)));
      (36, 0); (37, 0); (38, 0); (39, 0);
      (40, Float32bits (float32_of_int 1));
      (41, 0);
      (42, Float32bits (float32_of_int (-1)));
      (43, Float32bits (float32_of_int (-1)));
      (44, 0);
      (45, Float32bits (float32_of_int 1))
    ]).

(** The builtin [copy(dst, src)]: the first [min(len(dst), len(src))]
    elements of [dst] are overwritten. *)
Definition copy {A : Type} (dst src : list A) : list A :=
  take (length dst) src ++ drop (length src) dst.

(** func (q *commandQueue) prependPreservedUniforms(...) []uint32.
    Returns where the new slice lies in the queue's buffer, its contents,
    and the queue after the call. *)
Definition commandQueue_prependPreservedUniforms (q : commandQueue) (uniforms : list Z)
    (shader : Shader) (dst : Image) (srcs : array4 (option Image))
    (dstRegion : Rectangle) (srcRegions : array4 Rectangle)
  : outcome (nat * list Z * commandQueue) :=
  let origUniforms := uniforms in
  let '(off, s, b) :=
    alloc (q_uint32sBuffer q) (length origUniforms + PreservedUniformDwordCount) in
  let s := take PreservedUniformDwordCount s
           ++ copy (drop PreservedUniformDwordCount s) origUniforms in
  match prependPreservedUniforms s shader dst srcs dstRegion srcRegions with
  | Done u => Done (off, u, set_uint32sBuffer (store off u b) q)
  | Panic msg => Panic msg
  end.

(** ** Enqueueing a draw *)

Definition set_last {A : Type} (x : A) (l : list A) : list A :=
  <[pred (length l) := x]> l.

(** The merge of a draw into the last command [last_] (the body of the
    innermost [if] of EnqueueDrawTrianglesCommand). *)
Definition mergeIntoLast (q : commandQueue) (last_ : drawTrianglesCommand)
    (vertices : list float32) (indices : list Z) (dstRegion : Rectangle)
  : outcome commandQueue :=
  match lastVertices q (int_add (len vertices) (numVertices last_)) with
  | Panic msg => Panic msg
  | Done vs =>
    let last1 := setVertices last_ vs in
    match last (c_dstRegions last1) with
    | None => Panic "index out of range"
    | Some r =>
      let last2 :=
        if Rectangle_eqb (Region r) dstRegion
        then setDstRegions last1
               (set_last {| Region := Region r;
                            IndexCount := int_add (IndexCount r) (len indices) |}
                         (c_dstRegions last1))
        else setDstRegions last1
               (c_dstRegions last1
                ++ [{| Region := dstRegion; IndexCount := len indices |}]) in
      Done (set_commands (set_last (DrawTrianglesCmd last2) (q_commands q)) q)
    end
  end.

(** The allocation of a new command record (the tail of
    EnqueueDrawTrianglesCommand). *)
Definition appendNewCommand (q : commandQueue) (dst : Image)
    (srcs : array4 (option Image)) (vertices : list float32) (indices : list Z)
    (blend : Blend) (dstRegion : Rectangle) (shader : Shader) (uniforms : list Z)
    (fillRule : FillRule) : outcome commandQueue :=
  let '(_, pool) := pool_get (q_drawTrianglesCommandPool q) in
  let q := set_drawTrianglesCommandPool pool q in
  match lastVertices q (len vertices) with
  | Panic msg => Panic msg
  | Done vs =>
    let c := {| c_dst := dst; c_srcs := srcs; c_vertices := vs; c_blend := blend;
                c_dstRegions := [{| Region := dstRegion; IndexCount := len indices |}];
                c_shader := shader; c_uniforms := uniforms; c_fillRule := fillRule;
                c_firstCaller := if IsDebug then firstCallerLabel else "" |} in
    Done (set_commands (q_commands q ++ [DrawTrianglesCmd c]) q)
  end.

(** The test [mustUseDifferentVertexBuffer(q.tmpNumVertexFloats + len(vertices))]. *)
Definition splits (q : commandQueue) (vertices : list float32) : bool :=
  mustUseDifferentVertexBuffer (int_add (q_tmpNumVertexFloats q) (len vertices)).

(** func (q *commandQueue) EnqueueDrawTrianglesCommand(dst, srcs, vertices, indices,
      blend, dstRegion, srcRegions, shader, uniforms, fillRule).
    [dst] and [shader] point to live objects; an element of [srcs] may be
    nil. The function has no result: it completes or it panics. *)
Definition EnqueueDrawTrianglesCommand (q : commandQueue) (dst : Image)
    (srcs : array4 (option Image)) (vertices : list float32) (indices : list Z)
    (blend : Blend) (dstRegion : Rectangle) (srcRegions : array4 Rectangle)
    (shader : Shader) (uniforms : list Z) (fillRule : FillRule) : outcome commandQueue :=
  if bool_decide (len vertices > maxVertexFloatCount)
  then Panic "graphicscommand: len(vertices) must equal to or less than maxVertexFloatCount"
  else
    let split := splits q vertices in
    let q := if split then set_tmpNumVertexFloats 0 q else q in
    let q := set_vertices (q_vertices q ++ vertices) q in
    let q := appendIndices q indices
               (uint32 (Z.quot (q_tmpNumVertexFloats q) VertexFloatCount)) in
    let q := set_tmpNumVertexFloats (int_add (q_tmpNumVertexFloats q) (len vertices)) q in
    match commandQueue_prependPreservedUniforms q uniforms shader dst srcs
            dstRegion srcRegions with
    | Panic msg => Panic msg
    | Done (off, uniforms, q) =>
      (* shader.ir.FilterUniformVariables(uniforms), in place *)
      let uniforms := FilterUniformVariables (ir shader) uniforms in
      let q := set_uint32sBuffer (store off uniforms (q_uint32sBuffer q)) q in
      match (if split then None else last (q_commands q)) with
      | Some (DrawTrianglesCmd last_) =>
        if CanMergeWithDrawTrianglesCommand last_ dst srcs vertices blend shader
             uniforms fillRule
        then mergeIntoLast q last_ vertices indices dstRegion
        else appendNewCommand q dst srcs vertices indices blend dstRegion shader
               uniforms fillRule
      | _ => appendNewCommand q dst srcs vertices indices blend dstRegion shader
               uniforms fillRule
      end
    end.

(** ** Flushing on the render thread *)

(** The [graphicsdriver.Graphics] interface, as far as the queue calls it:
    each method takes the backend's state and returns its error and the
    state after the call. *)
Class Graphics (D : Type) := {
  graphicsDriver_Begin : D → option error * D;
  graphicsDriver_End : bool → D → option error * D;
  graphicsDriver_SetVertices : list float32 → list Z → D → option error * D
}.

(** Modelled from the spec: the implementations of the [command] interface
    ([NeedsSync], [Exec]) are not among the sources. The spec: "Each
    command knows how to execute itself against the backend given a shared
    vertex/index window and an index offset"; a command may require
    synchronization ("e.g., a pixel readback"). *)
Class CommandMethods (D : Type) := {
  NeedsSync : command → bool;
  Exec : command → Z → D → option error * D
}.

(** What the render thread did, in order. *)
Inductive event :=
| EvBegin
| EvEnd (present : bool)
| EvSetVertices (vs : list float32) (es : list Z)
| EvExec (c : command) (indexOffset : Z)
| EvFinalizer (f : Z).

Definition isEnd (e : event) : bool :=
  match e with
  | EvEnd _ => true
  | _ => false
  end.

Definition isBegin (e : event) : bool :=
  match e with
  | EvBegin => true
  | _ => false
  end.

(** The events of a flush body are neither Begin nor End. *)
Definition inner (e : event) : Prop := isEnd e = false ∧ isBegin e = false.

(** How the body of a function ended: by [return], by a panic, or (for
    the model of a loop only) by exhausting the steps it was given. *)
Inductive ending :=
| Returned (e : option error)
| Panicked (msg : string)
| OutOfFuel.

Section Flush.
Context {D : Type} `{Graphics D} `{CommandMethods D}.

(** The inner loop of [flush] that measures a run: [nv], [ne], [nc]. *)
Fixpoint runLength (cs : list command) (nv ne : Z) (nc : nat) : Z * Z * nat :=
  match cs with
  | [] => (nv, ne, nc)
  | DrawTrianglesCmd dtc :: cs' =>
    if bool_decide (0 < nc)%nat
       && mustUseDifferentVertexBuffer (int_add nv (numVertices dtc))
    then (nv, ne, nc)
    else runLength cs' (int_add nv (numVertices dtc)) (int_add ne (numIndices dtc)) (S nc)
  | OtherCmd _ as c :: cs' => runLength cs' nv ne (S nc)
  end.

(** The loop [for _, c := range cs[:nc]] that executes a run. *)
Fixpoint execRun (cs : list command) (indexOffset : Z) (d : D)
  : option error * D * list event :=
  match cs with
  | [] => (None, d, [])
  | c :: cs' =>
    match Exec c indexOffset d with
    | (Some e, d') => (Some e, d', [EvExec c indexOffset])
    | (None, d') =>
      let indexOffset' :=
        match c with
        | DrawTrianglesCmd dtc => int_add indexOffset (numIndices dtc)
        | OtherCmd _ => indexOffset
        end in
      let '(r, d'', tr) := execRun cs' indexOffset' d' in
      (r, d'', EvExec c indexOffset :: tr)
    end
  end.

(** The loop [for len(cs) > 0] of [flush]. The slices [vs[:nv]] and
    [es[:ne]] panic when a bound exceeds the slice (whose capacity is
    taken to be its length). *)
Fixpoint flushLoop (fuel : nat) (cs : list command) (vs : list float32) (es : list Z)
    (d : D) : ending * D * list event :=
  match cs with
  | [] => (Returned None, d, [])
  | _ :: _ =>
    match fuel with
    | O => (OutOfFuel, d, [])
    | S fuel' =>
      let '(nv, ne, nc) := runLength cs 0 0 0%nat in
      let uploaded :=
        if bool_decide (0 < ne)
        then
          if bool_decide (0 ≤ nv ≤ len vs ∧ ne ≤ len es)
          then
            match graphicsDriver_SetVertices (take (Z.to_nat nv) vs)
                    (take (Z.to_nat ne) es) d with
            | (Some e, d') =>
              inl (Returned (Some e), d',
                   [EvSetVertices (take (Z.to_nat nv) vs) (take (Z.to_nat ne) es)])
            | (None, d') =>
              inr (drop (Z.to_nat nv) vs, drop (Z.to_nat ne) es, d',
                   [EvSetVertices (take (Z.to_nat nv) vs) (take (Z.to_nat ne) es)])
            end
          else inl (Panicked "slice bounds out of range", d, [])
        else inr (vs, es, d, []) in
      match uploaded with
      | inl stop => stop
      | inr (vs', es', d', tr1) =>
        match execRun (take nc cs) 0 d' with
        | (Some e, d'', tr2) => (Returned (Some e), d'', tr1 ++ tr2)
        | (None, d'', tr2) =>
          let '(r, d''', tr3) := flushLoop fuel' (drop nc cs) vs' es' d'' in
          (r, d''', tr1 ++ tr2 ++ tr3)
        end
      end
    end
  end.

(** What follows the upload of a run in [flushLoop]. *)
Definition afterUpload (fuel nc : nat) (cs : list command) (vs1 : list float32)
    (es1 : list Z) (d1 : D) (tr1 : list event) : ending * D * list event :=
  match execRun (take nc cs) 0 d1 with
  | (Some e, d2, tr2) => (Returned (Some e), d2, tr1 ++ tr2)
  | (None, d2, tr2) =>
    let '(r, d3, tr3) := flushLoop fuel (drop nc cs) vs1 es1 d2 in
    (r, d3, tr1 ++ tr2 ++ tr3)
  end.

(** The draw-triangles commands of a list, in order. *)
Definition drawCommands (cs : list command) : list drawTrianglesCommand :=
  omap (λ c, match c with DrawTrianglesCmd dtc => Some dtc | OtherCmd _ => None end) cs.

(** The queue after the deferred function of [flush]: the records are put
    back in their pool, the command list, the vertices and the indices are
    emptied, the counter is zeroed and, at the end of a frame, the uniform
    buffer is reset and the finalizers are dropped (after they ran). *)
Definition released (q : commandQueue) (endFrame : bool) : commandQueue :=
  {| q_commands := [];
     q_vertices := [];
     q_indices := [];
     q_tmpNumVertexFloats := 0;
     q_drawTrianglesCommandPool :=
       foldl pool_put (q_drawTrianglesCommandPool q) (drawCommands (q_commands q));
     q_uint32sBuffer := if endFrame then reset (q_uint32sBuffer q) else q_uint32sBuffer q;
     q_finalizers := if endFrame then [] else q_finalizers q;
     q_err := q_err q |}.

Record flushResult := {
  fl_ending : ending;
  fl_queue : commandQueue;
  fl_driver : D;
  fl_trace : list event
}.

(** func (q *commandQueue) flush(graphicsDriver, endFrame, logger) (err error).
    The frame logger only prints; it is left out. *)
Definition flush (q : commandQueue) (d : D) (endFrame : bool) : flushResult :=
  if bool_decide (len (q_commands q) = 0) && negb endFrame
  then {| fl_ending := Returned None; fl_queue := q; fl_driver := d; fl_trace := [] |}
  else
    match graphicsDriver_Begin d with
    | (Some e, d1) =>
      {| fl_ending := Returned (Some e); fl_queue := q; fl_driver := d1;
         fl_trace := [EvBegin] |}
    | (None, d1) =>
      let '(body, d2, tr) :=
        flushLoop (length (q_commands q)) (q_commands q) (q_vertices q) (q_indices q) d1 in
      (* the deferred function *)
      let '(err1, d3) := graphicsDriver_End endFrame d2 in
      let result :=
        match body, err1 with
        | Returned None, Some e1 => Returned (Some e1)
        | _, _ => body
        end in
      {| fl_ending := result;
         fl_queue := released q endFrame;
         fl_driver := d3;
         fl_trace := EvBegin :: tr ++ [EvEnd endFrame]
                     ++ (if endFrame then map EvFinalizer (q_finalizers q) else []) |}
    end.

(** ** Flush, the render thread and the queue pool

    Queues are shared by address between the manager, its pool and the
    functions posted to the render thread: the world keeps them in a
    store. *)

(** The function literal that [Flush] hands to the render thread; it
    captures the queue and [endFrame]. *)
Record flushTask := { t_queue : nat; t_endFrame : bool }.

Record world := {
  w_driver : D;
  (** the calls made on the render thread so far *)
  w_trace : list event;
  (** the queues, by address *)
  w_queues : gmap nat commandQueue;
  (** theCommandQueueManager.pool.cache *)
  w_cache : list nat;
  (** theCommandQueueManager.current *)
  w_current : option nat;
  (** var vsyncEnabled atomic.Bool *)
  w_vsyncEnabled : bool;
  (** functions posted to the render thread that have not run yet *)
  w_renderThread : list flushTask
}.

Definition set_renderThread (ts : list flushTask) (w : world) : world :=
  {| w_driver := w_driver w; w_trace := w_trace w; w_queues := w_queues w;
     w_cache := w_cache w; w_current := w_current w;
     w_vsyncEnabled := w_vsyncEnabled w; w_renderThread := ts |}.

Definition set_cache (c : list nat) (w : world) : world :=
  {| w_driver := w_driver w; w_trace := w_trace w; w_queues := w_queues w;
     w_cache := c; w_current := w_current w;
     w_vsyncEnabled := w_vsyncEnabled w; w_renderThread := w_renderThread w |}.

Definition set_current (c : option nat) (w : world) : world :=
  {| w_driver := w_driver w; w_trace := w_trace w; w_queues := w_queues w;
     w_cache := w_cache w; w_current := c;
     w_vsyncEnabled := w_vsyncEnabled w; w_renderThread := w_renderThread w |}.

Definition set_queue (a : nat) (q : commandQueue) (w : world) : world :=
  {| w_driver := w_driver w; w_trace := w_trace w; w_queues := <[a := q]> (w_queues w);
     w_cache := w_cache w; w_current := w_current w;
     w_vsyncEnabled := w_vsyncEnabled w; w_renderThread := w_renderThread w |}.

(** The world after [q.flush] ran against the driver. *)
Definition after_flush (a : nat) (r : flushResult) (w : world) : world :=
  {| w_driver := fl_driver r; w_trace := w_trace w ++ fl_trace r;
     w_queues := <[a := fl_queue r]> (w_queues w);
     w_cache := w_cache w; w_current := w_current w;
     w_vsyncEnabled := w_vsyncEnabled w; w_renderThread := w_renderThread w |}.

(** func (c *commandQueuePool) put(queue *commandQueue), reached through
    theCommandQueueManager.putCommandQueue. *)
Definition putCommandQueue (a : nat) (w : world) : world :=
  set_cache (w_cache w ++ [a]) w.

(** The body of the function literal of [Flush], run on the render
    thread. It returns what it left in [flushErr]. *)
Definition flushClosure (sync : bool) (t : flushTask) (w : world)
  : outcome (option error * world) :=
  match w_queues w !! t_queue t with
  | None => Panic "invalid memory address or nil pointer dereference"
  | Some q =>
    let r := flush q (w_driver w) (t_endFrame t) in
    let w1 := after_flush (t_queue t) r w in
    match fl_ending r with
    | Panicked msg => Panic msg
    | OutOfFuel => Panic "flushLoop: out of steps"
    | Returned (Some e) =>
      if sync then Done (Some e, w1)
      else Done (None, set_queue (t_queue t) (set_err (Some e) (fl_queue r)) w1)
    | Returned None => Done (None, putCommandQueue (t_queue t) w1)
    end
  end.

(** One turn of the render thread: the oldest posted function runs. *)
Definition renderThreadStep (w : world) : outcome world :=
  match w_renderThread w with
  | [] => Done w
  | t :: ts =>
    match flushClosure false t (set_renderThread ts w) with
    | Done (_, w') => Done w'
    | Panic msg => Panic msg
    end
  end.

(** The render thread runs until nothing is posted. *)
Fixpoint drain (fuel : nat) (w : world) : outcome world :=
  match fuel with
  | O => Done w
  | S fuel' =>
    match renderThreadStep w with
    | Done w' => drain fuel' w'
    | Panic msg => Panic msg
    end
  end.

(** Modelled from the spec: [runOnRenderThread] is not among the sources.
    The spec: "a synchronous flush blocks the calling path until the
    render thread finishes executing and returns; an asynchronous flush
    returns immediately". The render thread runs the posted functions in
    the order they were posted. *)
Definition runOnRenderThread (t : flushTask) (sync : bool) (w : world)
  : outcome (option error * world) :=
  if sync
  then
    match drain (length (w_renderThread w)) w with
    | Done w' => flushClosure true t w'
    | Panic msg => Panic msg
    end
  else Done (None, set_renderThread (w_renderThread w ++ [t]) w).

(** The loop of [Flush] over the commands, left at the first command that
    needs synchronization. *)
Fixpoint anyNeedsSync (cs : list command) : bool :=
  match cs with
  | [] => false
  | c :: cs' => if NeedsSync c then true else anyNeedsSync cs'
  end.

(** The value of the variable [sync] of [Flush] when the function is
    posted. *)
Definition flushSync (q : commandQueue) (endFrame vsync : bool) : bool :=
  let sync := if endFrame && vsync then true else false in
  if negb sync then anyNeedsSync (q_commands q) else sync.

(** func (q *commandQueue) Flush(graphicsDriver, endFrame) error *)
Definition Flush (a : nat) (endFrame : bool) (w : world) : outcome (option error * world) :=
  match w_queues w !! a with
  | None => Panic "invalid memory address or nil pointer dereference"
  | Some q =>
    match q_err q with
    | Some e => Done (Some e, w)
    | None =>
      let sync := flushSync q endFrame (w_vsyncEnabled w) in
      match runOnRenderThread {| t_queue := a; t_endFrame := endFrame |} sync w with
      | Panic msg => Panic msg
      | Done (flushErr, w') =>
        match sync, flushErr with
        | true, Some e => Done (Some e, w')
        | _, _ => Done (None, w')
        end
      end
    end
  end.

(** The loop of [commandQueuePool.get] over the cache: the first stored
    error. *)
Fixpoint firstStoredError (qs : gmap nat commandQueue) (cache : list nat) : option error :=
  match cache with
  | [] => None
  | a :: cache' =>
    match qs !! a with
    | Some q =>
      match q_err q with
      | Some e => Some e
      | None => firstStoredError qs cache'
      end
    | None => firstStoredError qs cache'
    end
  end.

(** func (c *commandQueuePool) get(): a queue, or a stored error *)
Definition commandQueuePool_get (w : world) : option nat * option error * world :=
  match w_cache w with
  | [] =>
    let a := fresh (dom (w_queues w)) in
    (Some a, None, set_queue a commandQueue_zero w)
  | _ :: _ =>
    match firstStoredError (w_queues w) (w_cache w) with
    | Some e => (None, Some e, w)
    | None => (last (w_cache w), None, set_cache (take (pred (length (w_cache w))) (w_cache w)) w)
    end
  end.

(** func (c *commandQueueManager) flush(graphicsDriver, endFrame) error *)
Definition commandQueueManager_flush (endFrame : bool) (w : world)
  : outcome (option error * world) :=
  let prev := w_current w in
  match commandQueuePool_get w with
  | (_, Some e, w1) => Done (Some e, w1)
  | (q, None, w1) =>
    let w2 := set_current q w1 in
    match prev with
    | None => Done (None, w2)
    | Some a => Flush a endFrame w2
    end
  end.

End Flush.
End CommandQueue.

(** ** The preserved uniform block, as the specification lays it out

    Slots 0-1: the destination's internal size. Slots 2-9: the internal
    sizes of the four sources, zero for an absent source. Slots 10-13: the
    origin and the size of the destination region, divided by the
    destination's size when the shader's unit is texels. Slots 14-21: the
    origins of the source regions, slots 22-29: their sizes, each divided
    by its source's size when the unit is texels (an absent source has no
    size: its region is left as it is). Slots 30-45: the projection
    matrix. *)
Section PreservedBlock.
Context `{Float32}.

Definition bitsOf (z : Z) : Z := Float32bits (float32_of_int z).

Definition bitsOfRatio (num den : Z) : Z :=
  Float32bits (float32_div (float32_of_int num) (float32_of_int den)).

(** A coordinate [v] of a region, as it is laid out for a shader of unit
    [u] over a texture whose matching extent is [extent] (if any). *)
Definition regionBits (u : Unit) (v : Z) (extent : option Z) : Z :=
  match u, extent with
  | Texels, Some e => bitsOfRatio v e
  | _, _ => bitsOf v
  end.

Definition srcWidth (src : option Image) : option Z := internalWidth <$> src.
Definition srcHeight (src : option Image) : option Z := internalHeight <$> src.

Definition sizeBits (extent : option Z) : Z :=
  match extent with
  | Some e => bitsOf e
  | None => 0
  end.

Definition preservedBlock (shader : Shader) (dst : Image) (srcs : array4 (option Image))
    (dstRegion : Rectangle) (srcRegions : array4 Rectangle) : list Z :=
  let u := unit shader in
  let dw := Some (internalWidth dst) in
  let dh := Some (internalHeight dst) in
  [ (* 0-1 *) bitsOf (internalWidth dst); bitsOf (internalHeight dst);
    (* 2-9 *)
    sizeBits (srcWidth (at0 srcs)); sizeBits (srcHeight (at0 srcs));
    sizeBits (srcWidth (at1 srcs)); sizeBits (srcHeight (at1 srcs));
    sizeBits (srcWidth (at2 srcs)); sizeBits (srcHeight (at2 srcs));
    sizeBits (srcWidth (at3 srcs)); sizeBits (srcHeight (at3 srcs));
    (* 10-13 *)
    regionBits u (X (Min dstRegion)) dw; regionBits u (Y (Min dstRegion)) dh;
    regionBits u (Dx dstRegion) dw; regionBits u (Dy dstRegion) dh;
    (* 14-21 *)
    regionBits u (X (Min (at0 srcRegions))) (srcWidth (at0 srcs));
    regionBits u (Y (Min (at0 srcRegions))) (srcHeight (at0 srcs));
    regionBits u (X (Min (at1 srcRegions))) (srcWidth (at1 srcs));
    regionBits u (Y (Min (at1 srcRegions))) (srcHeight (at1 srcs));
    regionBits u (X (Min (at2 srcRegions))) (srcWidth (at2 srcs));
    regionBits u (Y (Min (at2 srcRegions))) (srcHeight (at2 srcs));
    regionBits u (X (Min (at3 srcRegions))) (srcWidth (at3 srcs));
    regionBits u (Y (Min (at3 srcRegions))) (srcHeight (at3 srcs));
    (* 22-29 *)
    regionBits u (Dx (at0 srcRegions)) (srcWidth (at0 srcs));
    regionBits u (Dy (at0 srcRegions)) (srcHeight (at0 srcs));
    regionBits u (Dx (at1 srcRegions)) (srcWidth (at1 srcs));
    regionBits u (Dy (at1 srcRegions)) (srcHeight (at1 srcs));
    regionBits u (Dx (at2 srcRegions)) (srcWidth (at2 srcs));
    regionBits u (Dy (at2 srcRegions)) (srcHeight (at2 srcs));
    regionBits u (Dx (at3 srcRegions)) (srcWidth (at3 srcs));
    regionBits u (Dy (at3 srcRegions)) (srcHeight (at3 srcs));
    (* 30-45 *)
    bitsOfRatio 2 (internalWidth dst); 0; 0; 0;
    0; bitsOfRatio 2 (internalHeight dst); 0; 0;
    0; 0; bitsOf 1; 0;
    bitsOf (-1); bitsOf (-1); 0; bitsOf 1 ].

End PreservedBlock.

(** ** The representation invariant of a queue

    What holds of every queue between two calls: the counter of the
    current vertex-buffer generation is within its bound and within the
    vertex buffer, and a draw command at the end of the queue has at least
    one destination sub-region and keeps the tail of the vertex buffer as
    its window. *)
Section Invariant.
Context `{Target} `{Float32}.

Record wf_queue (q : commandQueue) : Prop := {
  wf_counter : 0 ≤ q_tmpNumVertexFloats q ≤ maxVertexFloatCount;
  wf_counter_buffer : q_tmpNumVertexFloats q ≤ len (q_vertices q);
  wf_last_regions : ∀ dtc,
    last (q_commands q) = Some (DrawTrianglesCmd dtc) → c_dstRegions dtc ≠ [];
  wf_last_window : ∀ dtc,
    last (q_commands q) = Some (DrawTrianglesCmd dtc) →
    ∃ before, q_vertices q = before ++ c_vertices dtc
}.

(** A slice's length is an [int]: appending [vertices] to the queue's
    buffer yields a slice the machine can hold. *)
Definition fitsInt (q : commandQueue) (vertices : list float32) : Prop :=
  len (q_vertices q) + len vertices ≤ MaxInt.

End Invariant.

(** ** The two halves of EnqueueDrawTrianglesCommand

    The names below describe the queue between the moment the vertices,
    the indices and the uniforms are stored and the moment the last
    command is examined. *)
Section Staging.
Context `{Target} `{Float32} `{Debug}.

(** The counter once a split, if any, has reset it. *)
Definition counterAfterSplit (q : commandQueue) (vertices : list float32) : Z :=
  if splits q vertices then 0 else q_tmpNumVertexFloats q.

(** The offset added to the new indices. *)
Definition indexOffsetOf (q : commandQueue) (vertices : list float32) : Z :=
  uint32 (Z.quot (counterAfterSplit q vertices) VertexFloatCount).

(** The uniforms a draw is queued with. *)
Definition queuedUniforms (shader : Shader) (dst : Image) (srcs : array4 (option Image))
    (dstRegion : Rectangle) (srcRegions : array4 Rectangle) (uniforms : list Z) : list Z :=
  FilterUniformVariables (ir shader)
    (preservedBlock shader dst srcs dstRegion srcRegions ++ uniforms).

Definition stagedQueue (q : commandQueue) (vertices : list float32) (indices : list Z)
    (b : uint32sBuffer) : commandQueue :=
  {| q_commands := q_commands q;
     q_vertices := q_vertices q ++ vertices;
     q_indices := q_indices q ++ map (λ i, uint32_add i (indexOffsetOf q vertices)) indices;
     q_tmpNumVertexFloats := int_add (counterAfterSplit q vertices) (len vertices);
     q_drawTrianglesCommandPool := q_drawTrianglesCommandPool q;
     q_uint32sBuffer := b;
     q_finalizers := q_finalizers q;
     q_err := q_err q |}.

(** The choice between merging and appending. *)
Definition mergeOrAppend (q : commandQueue) (split : bool) (dst : Image)
    (srcs : array4 (option Image)) (vertices : list float32) (indices : list Z)
    (blend : Blend) (dstRegion : Rectangle) (shader : Shader) (uniforms : list Z)
    (fillRule : FillRule) : outcome commandQueue :=
  match (if split then None else last (q_commands q)) with
  | Some (DrawTrianglesCmd last_) =>
    if CanMergeWithDrawTrianglesCommand last_ dst srcs vertices blend shader
         uniforms fillRule
    then mergeIntoLast q last_ vertices indices dstRegion
    else appendNewCommand q dst srcs vertices indices blend dstRegion shader
           uniforms fillRule
  | _ => appendNewCommand q dst srcs vertices indices blend dstRegion shader
           uniforms fillRule
  end.

(** The destination sub-regions of a command after a draw over
    [dstRegion] with [indices] was merged into it. *)
Definition mergedRegions (rs : list DstRegion) (dstRegion : Rectangle) (indices : list Z)
  : list DstRegion :=
  match last rs with
  | Some r =>
    if Rectangle_eqb (Region r) dstRegion
    then set_last {| Region := Region r;
                     IndexCount := int_add (IndexCount r) (len indices) |} rs
    else rs ++ [{| Region := dstRegion; IndexCount := len indices |}]
  | None => rs
  end.

Definition mergedCommand (c : drawTrianglesCommand) (vertices : list float32)
    (indices : list Z) (dstRegion : Rectangle) : drawTrianglesCommand :=
  setDstRegions (setVertices c (c_vertices c ++ vertices))
    (mergedRegions (c_dstRegions c) dstRegion indices).

(** The command record a draw that is not merged is queued as. *)
Definition newCommand (dst : Image) (srcs : array4 (option Image))
    (vertices : list float32) (indices : list Z) (blend : Blend) (dstRegion : Rectangle)
    (shader : Shader) (uniforms : list Z) (fillRule : FillRule) : drawTrianglesCommand :=
  {| c_dst := dst; c_srcs := srcs; c_vertices := vertices; c_blend := blend;
     c_dstRegions := [{| Region := dstRegion; IndexCount := len indices |}];
     c_shader := shader; c_uniforms := uniforms; c_fillRule := fillRule;
     c_firstCaller := if IsDebug then firstCallerLabel else "" |}.

(** The command a draw is merged into, if any: the last command of the
    queue when no split occurred, it is a draw-triangles command, and it
    can merge with the draw. *)
Definition mergeTarget (q : commandQueue) (dst : Image) (srcs : array4 (option Image))
    (vertices : list float32) (blend : Blend) (shader : Shader) (uniforms : list Z)
    (fillRule : FillRule) : option drawTrianglesCommand :=
  if splits q vertices then None
  else
    match last (q_commands q) with
    | Some (DrawTrianglesCmd last_) =>
      if CanMergeWithDrawTrianglesCommand last_ dst srcs vertices blend shader
           uniforms fillRule
      then Some last_ else None
    | _ => None
    end.

(** The queue after a draw was enqueued, [b] being its uniform buffer. *)
Definition enqueued (q : commandQueue) (dst : Image) (srcs : array4 (option Image))
    (vertices : list float32) (indices : list Z) (blend : Blend) (dstRegion : Rectangle)
    (srcRegions : array4 Rectangle) (shader : Shader) (uniforms : list Z)
    (fillRule : FillRule) (b : uint32sBuffer) : commandQueue :=
  let uniforms' := queuedUniforms shader dst srcs dstRegion srcRegions uniforms in
  let q1 := stagedQueue q vertices indices b in
  match mergeTarget q dst srcs vertices blend shader uniforms' fillRule with
  | Some last_ =>
    set_commands
      (set_last (DrawTrianglesCmd (mergedCommand last_ vertices indices dstRegion))
                (q_commands q)) q1
  | None =>
    set_commands
      (q_commands q ++ [DrawTrianglesCmd
         (newCommand dst srcs vertices indices blend dstRegion shader uniforms' fillRule)])
      (set_drawTrianglesCommandPool (pool_get (q_drawTrianglesCommandPool q)).2 q1)
  end.

End Staging.

(** * Restorable images

    Modelled from the spec: package [restorable] is not among the sources
    (only its test file is). The definitions below follow sections 3, 4.4
    and 4.5 of the specification: a managed image keeps a base-pixel cache,
    the draw operations recorded since that cache was last materialised,
    and a stale flag; after a context loss every texture is regenerated
    from the caches and the recorded operations, sources first. *)
Module restorable.

(** The type tag of a managed image. *)
Inductive ImageType := ImageTypeRegular | ImageTypeVolatile | ImageTypeScreen.

(** The contents of a texture: RGBA bytes, row after row. *)
Definition Pixels : Type := list Z.

(** Modelled from the spec: the graphics backend is "an opaque service
    exposing primitive operations (create/dispose texture, upload pixels,
    read pixels, submit draw)". A draw is a deterministic function of the
    draw's parameters (the pattern), of the sources' contents and of the
    destination's contents. *)
Class Backend (Pattern : Type) := {
  (** a new texture: transparent black *)
  newTexture : Z → Z → Pixels;
  (** a region-scoped upload *)
  uploadPixels : Pixels → list Z → Rectangle → Pixels;
  (** a submitted draw *)
  submitDraw : Pattern → list Pixels → Pixels → Pixels
}.

Section Model.
Context {Pattern : Type} `{!Backend Pattern}.

(** Modelled from the spec: the "Draw Operation record". A recorded
    operation, stamped with the time it was issued: a draw (with the
    identifiers of its source images) or a pixel write. *)
Inductive historyItem :=
| DrawItem (time : nat) (srcs : list nat) (pattern : Pattern)
| WriteItem (time : nat) (data : list Z) (region : Rectangle).

Definition itemTime (it : historyItem) : nat :=
  match it with
  | DrawItem t _ _ => t
  | WriteItem t _ _ => t
  end.

Definition itemSources (it : historyItem) : list nat :=
  match it with
  | DrawItem _ srcs _ => srcs
  | WriteItem _ _ _ => []
  end.

(** Modelled from the spec: the "Managed Image": size, type tag,
    base-pixels cache (nullable), recorded operations, stale flag. *)
Record Image := {
  width : Z;
  height : Z;
  imageType : ImageType;
  basePixels : option Pixels;
  history : list historyItem;
  stale : bool
}.

(** Modelled from the spec: the images alive, by identifier, the
    backend's textures, the next identifier, the clock that stamps
    operations, and whether the context was lost since the last
    restoration. *)
Record State := {
  images : gmap nat Image;
  textures : gmap nat Pixels;
  nextID : nat;
  clock : nat;
  contextLost : bool
}.

Definition initial : State :=
  {| images := ∅; textures := ∅; nextID := 0; clock := 0; contextLost := false |}.

Definition wholeImage (img : Image) : Rectangle :=
  {| Min := {| X := 0; Y := 0 |}; Max := {| X := width img; Y := height img |} |}.

(** What the base-pixel cache stands for: an absent cache is a cleared
    image. *)
Definition baseOf (img : Image) : Pixels :=
  default (newTexture (width img) (height img)) (basePixels img).

(** Modelled from the spec: NewImage(w, h, type), "created empty
    (cleared)". *)
Definition NewImage (st : State) (w h : Z) (ty : ImageType) : nat * State :=
  let id := nextID st in
  (id,
   {| images := <[id := {| width := w; height := h; imageType := ty;
                           basePixels := None; history := []; stale := false |}]>
                  (images st);
      textures := <[id := newTexture w h]> (textures st);
      nextID := S id; clock := clock st; contextLost := contextLost st |}).

(** "if data is empty, this clears the region instead of writing". *)
Definition writtenData (data : list Z) (region : Rectangle) : list Z :=
  match data with
  | [] => replicate (Z.to_nat (4 * Dx region * Dy region)) 0
  | _ => data
  end.

(** Modelled from the spec: WritePixels(data, region). On an image that
    is not stale the write goes to the base pixels, which stay
    authoritative. On a stale image a write over the whole image
    supersedes the recorded history; a partial write "does not
    retroactively simplify history": it is recorded after the draws, to
    be replayed in order. *)
Definition WritePixels (st : State) (id : nat) (data : list Z) (region : Rectangle)
  : State :=
  match images st !! id with
  | None => st
  | Some img =>
    let d := writtenData data region in
    let img' :=
      if negb (stale img) || Rectangle_eqb region (wholeImage img)
      then {| width := width img; height := height img; imageType := imageType img;
              basePixels :=
                Some (uploadPixels (if stale img
                                    then newTexture (width img) (height img)
                                    else baseOf img) d region);
              history := []; stale := false |}
      else {| width := width img; height := height img; imageType := imageType img;
              basePixels := basePixels img;
              history := history img ++ [WriteItem (clock st) d region];
              stale := true |} in
    {| images := <[id := img']> (images st);
       textures := alter (λ t, uploadPixels t d region) id (textures st);
       nextID := nextID st; clock := S (clock st); contextLost := contextLost st |}
  end.

(** The contents of the sources of a draw, as the textures hold them. *)
Definition sourcePixels (ts : gmap nat Pixels) (srcs : list nat) : list Pixels :=
  omap (λ s, ts !! s) srcs.

(** Modelled from the spec: DrawTriangles "appends to its operation list,
    marks target region stale, records the source images as
    dependencies"; the draw itself is submitted to the backend. *)
Definition DrawTriangles (st : State) (dst : nat) (srcs : list nat) (pattern : Pattern)
  : State :=
  match images st !! dst with
  | None => st
  | Some img =>
    {| images :=
         <[dst := {| width := width img; height := height img;
                     imageType := imageType img; basePixels := basePixels img;
                     history := history img ++ [DrawItem (clock st) srcs pattern];
                     stale := true |}]> (images st);
       textures :=
         alter (submitDraw pattern (sourcePixels (textures st) srcs)) dst (textures st);
       nextID := nextID st; clock := S (clock st); contextLost := contextLost st |}
  end.

(** Modelled from the spec: the resolve step, "the image's pixels are
    explicitly re-synchronized
    against the backend ... and the operation history since is
    discarded". *)
Definition resolve (ts : gmap nat Pixels) (id : nat) (img : Image) : Image :=
  if stale img
  then {| width := width img; height := height img; imageType := imageType img;
          basePixels := Some (default (baseOf img) (ts !! id));
          history := []; stale := false |}
  else img.

(** Modelled from the spec: ResolveStaleImages(), the resolve of every
    image. *)
Definition ResolveStaleImages (st : State) : State :=
  {| images := map_imap (λ id img, Some (resolve (textures st) id img)) (images st);
     textures := textures st;
     nextID := nextID st; clock := clock st; contextLost := contextLost st |}.

(** Modelled from the spec: a context loss; "no reliance on surviving
    GPU state": the backend's textures are gone. *)
Definition loseContext (st : State) : State :=
  {| images := images st; textures := ∅;
     nextID := nextID st; clock := clock st; contextLost := true |}.

(** ** The restoration graph walker *)

(** The images a stale image depends on: the sources of its recorded
    draws. *)
Definition dependencies (img : Image) : list nat :=
  if stale img then concat (map itemSources (history img)) else [].

(** An image can be restored once every source it depends on is restored
    (a source that is no longer alive is not waited for). *)
Definition isReady (imgs : gmap nat Image) (restored : gset nat) (id : nat) : bool :=
  match imgs !! id with
  | None => true
  | Some img =>
    forallb (λ s, bool_decide (s ∈ restored)
                  || match imgs !! s with None => true | Some _ => false end)
            (dependencies img)
  end.

(** Modelled from the spec: "Restoration must process an image only
    after all its dependencies are themselves restored". The order of
    restoration: round after round, the images whose dependencies are all
    restored. What is left when no image is ready
    lies on dependency cycles; it is returned apart. *)
Fixpoint restoreRounds (fuel : nat) (imgs : gmap nat Image) (pending : list nat)
    (restored : gset nat) : list nat * list nat :=
  match fuel with
  | O => ([], pending)
  | S fuel' =>
    match filter (λ id, isReady imgs restored id = true) pending with
    | [] => ([], pending)
    | ready =>
      let '(order, cyclic) :=
        restoreRounds fuel' imgs
          (filter (λ id, isReady imgs restored id ≠ true) pending)
          (list_to_set ready ∪ restored) in
      (ready ++ order, cyclic)
    end
  end.

(** The images alive, in the order they were created. *)
Definition aliveImages (st : State) : list nat :=
  filter (λ id, is_Some (images st !! id)) (seq 0 (nextID st)).

Definition restoreOrder (st : State) : list nat * list nat :=
  restoreRounds (length (aliveImages st)) (images st) (aliveImages st) ∅.

(** The replay of one recorded operation of image [id]. *)
Definition replayItem (id : nat) (img : Image) (ts : gmap nat Pixels) (it : historyItem)
  : gmap nat Pixels :=
  let current := default (newTexture (width img) (height img)) (ts !! id) in
  match it with
  | DrawItem _ srcs pattern =>
    <[id := submitDraw pattern (sourcePixels ts srcs) current]> ts
  | WriteItem _ data region => <[id := uploadPixels current data region]> ts
  end.

(** The texture an image starts its restoration from: a volatile image is
    cleared, a screen image is recreated, a regular image gets its base
    pixels. *)
Definition restoredBase (img : Image) : Pixels :=
  match imageType img with
  | ImageTypeRegular => baseOf img
  | ImageTypeVolatile | ImageTypeScreen => newTexture (width img) (height img)
  end.

(** The operations replayed for an image: none for a volatile or a screen
    image, which "are never restored from history". *)
Definition replayed (img : Image) : list historyItem :=
  match imageType img with
  | ImageTypeRegular => if stale img then history img else []
  | ImageTypeVolatile | ImageTypeScreen => []
  end.

(** Modelled from the spec: the restoration of one image, its sources
    being restored: its base, then its recorded operations in order. *)
Definition restoreImage (imgs : gmap nat Image) (ts : gmap nat Pixels) (id : nat)
  : gmap nat Pixels :=
  match imgs !! id with
  | None => ts
  | Some img => foldl (replayItem id img) (<[id := restoredBase img]> ts) (replayed img)
  end.

(** The operations of the images on cycles, in chronological order. *)
Fixpoint insertByTime (x : nat * historyItem) (l : list (nat * historyItem))
  : list (nat * historyItem) :=
  match l with
  | [] => [x]
  | y :: l' =>
    if bool_decide (itemTime x.2 ≤ itemTime y.2)%nat then x :: l else y :: insertByTime x l'
  end.

Definition chronological (imgs : gmap nat Image) (ids : list nat)
  : list (nat * historyItem) :=
  foldr insertByTime []
    (concat (map (λ id, match imgs !! id with
                        | Some img => map (λ it, (id, it)) (replayed img)
                        | None => []
                        end) ids)).

(** Modelled from the spec: the restoration of the images on cycles,
    "replay the recorded operations in original chronological order using
    the best-available ... state of the cyclic partner". Every one starts
    from its base, then all their operations are replayed in the order they were
    issued, each on the state its partners have at that moment. *)
Definition restoreCycles (imgs : gmap nat Image) (ts : gmap nat Pixels) (ids : list nat)
  : gmap nat Pixels :=
  let started :=
    foldl (λ ts id, match imgs !! id with
                    | Some img => <[id := restoredBase img]> ts
                    | None => ts
                    end) ts ids in
  foldl (λ ts x, match imgs !! x.1 with
                 | Some img => replayItem x.1 img ts x.2
                 | None => ts
                 end) started (chronological imgs ids).

(** Modelled from the spec: RestoreIfNeeded(); nothing happens unless the
    context was lost. *)
Definition RestoreIfNeeded (st : State) : State :=
  if contextLost st
  then
    let '(order, cyclic) := restoreOrder st in
    {| images := images st;
       textures :=
         restoreCycles (images st) (foldl (restoreImage (images st)) ∅ order) cyclic;
       nextID := nextID st; clock := clock st; contextLost := false |}
  else st.

(** ** A chain of images

    The scenario of TestRestoreChain: [n] regular images of the same size,
    the first one seeded by WritePixels, every other one produced by the
    same draw from its predecessor. *)
Definition newImages (n : nat) (w h : Z) (st : State) : State :=
  foldl (λ st _, (NewImage st w h ImageTypeRegular).2) st (seq 0 n).

Definition drawChain (n : nat) (pattern : Pattern) (st : State) : State :=
  foldl (λ st i, DrawTriangles st (S i) [i] pattern) st (seq 0 (pred n)).

Definition chain (n : nat) (w h : Z) (data : list Z) (region : Rectangle)
    (pattern : Pattern) : State :=
  drawChain n pattern (WritePixels (newImages n w h initial) 0 data region).

(** The contents of the [k]-th image of the chain. *)
Fixpoint chainPixels (w h : Z) (data : list Z) (region : Rectangle) (pattern : Pattern)
    (k : nat) : Pixels :=
  match k with
  | O => uploadPixels (newTexture w h) (writtenData data region) region
  | S k' => submitDraw pattern [chainPixels w h data region pattern k'] (newTexture w h)
  end.

(** The record of an image that was created and not touched since. *)
Definition freshImage (w h : Z) : Image :=
  {| width := w; height := h; imageType := ImageTypeRegular;
     basePixels := None; history := []; stale := false |}.

(** The contents of the [k]-th image once the first [drawn] draws of the
    chain were issued. *)
Definition chainTexture (w h : Z) (data : list Z) (region : Rectangle) (pattern : Pattern)
    (drawn k : nat) : Pixels :=
  if decide (k ≤ drawn)%nat then chainPixels w h data region pattern k else newTexture w h.

(** The record of the [k]-th image at that moment. *)
Definition chainImage (w h : Z) (data : list Z) (region : Rectangle) (pattern : Pattern)
    (drawn k : nat) : Image :=
  match k with
  | O => {| width := w; height := h; imageType := ImageTypeRegular;
            basePixels := Some (chainPixels w h data region pattern 0);
            history := []; stale := false |}
  | S k' =>
    if decide (k ≤ drawn)%nat
    then {| width := w; height := h; imageType := ImageTypeRegular;
            basePixels := None; history := [DrawItem k [k'] pattern]; stale := true |}
    else freshImage w h
  end.

(** The record of an image whose history was resolved into base pixels. *)
Definition resolvedImage (w h : Z) (p : Pixels) : Image :=
  {| width := w; height := h; imageType := ImageTypeRegular;
     basePixels := Some p; history := []; stale := false |}.

(** A state that holds exactly the images [0..n-1], image [k] having the
    record [img k] and the texture [tex k]. *)
Definition holds (n : nat) (img : nat → Image) (tex : nat → Pixels) (st : State) : Prop :=
  nextID st = n
  ∧ (∀ k, images st !! k = if decide (k < n)%nat then Some (img k) else None)
  ∧ (∀ k, textures st !! k = if decide (k < n)%nat then Some (tex k) else None).

(** The first [i] draws of the chain. *)
Definition drawsUpTo (i : nat) (pattern : Pattern) (st : State) : State :=
  foldl (λ st i, DrawTriangles st (S i) [i] pattern) st (seq 0 i).

End Model.

(** ** Comparing colors, as the tests do *)

(** color.RGBA *)
Record RGBA := { R : Z; G : Z; B : Z; A : Z }.

(** func abs(x int) int *)
Definition abs (x : Z) : Z := if x <? 0 then - x else x.

(** func sameColors(c1, c2 color.RGBA, delta int) bool *)
Definition sameColors (c1 c2 : RGBA) (delta : Z) : bool :=
  (abs (R c1 - R c2) <=? delta) &&
  (abs (G c1 - G c2) <=? delta) &&
  (abs (B c1 - B c2) <=? delta) &&
  (abs (A c1 - A c2) <=? delta).

(** The color of the [k]-th pixel of a texture. *)
Definition colorAt (p : Pixels) (k : nat) : RGBA :=
  {| R := p !!! (4 * k)%nat; G := p !!! (4 * k + 1)%nat;
     B := p !!! (4 * k + 2)%nat; A := p !!! (4 * k + 3)%nat |}.

End restorable.

(** ** What a flush did, read off its trace *)
Section TraceViews.
Context `{Float32}.

(** The commands executed, in order. *)
Definition executed (tr : list event) : list command :=
  omap (λ e, match e with EvExec c _ => Some c | _ => None end) tr.

(** The vertex slices and the index slices handed to SetVertices, in
    order. *)
Definition uploadedVertices (tr : list event) : list (list float32) :=
  omap (λ e, match e with EvSetVertices vs _ => Some vs | _ => None end) tr.

Definition uploadedIndices (tr : list event) : list (list Z) :=
  omap (λ e, match e with EvSetVertices _ es => Some es | _ => None end) tr.

(** The finalizers run, in order. *)
Definition finalized (tr : list event) : list Z :=
  omap (λ e, match e with EvFinalizer f => Some f | _ => None end) tr.

End TraceViews.

(** ** Accounting for the buffers

    The vertex floats and the indices of a queue belong to its draw
    commands: a command's window holds its vertices, its destination
    sub-regions count its indices. *)
Section Accounting.
Context `{Target} `{Float32}.

(** The indices counted by a list of destination sub-regions. *)
Definition regionIndices (rs : list DstRegion) : Z :=
  foldr (λ r n, IndexCount r + n) 0 rs.

Definition commandVertices (c : command) : Z :=
  match c with
  | DrawTrianglesCmd dtc => len (c_vertices dtc)
  | OtherCmd _ => 0
  end.

Definition commandIndices (c : command) : Z :=
  match c with
  | DrawTrianglesCmd dtc => regionIndices (c_dstRegions dtc)
  | OtherCmd _ => 0
  end.

Definition totalVertices (cs : list command) : Z :=
  foldr (λ c n, commandVertices c + n) 0 cs.

Definition totalIndices (cs : list command) : Z :=
  foldr (λ c n, commandIndices c + n) 0 cs.

(** No destination sub-region counts a negative number of indices. *)
Definition nonnegRegions (c : command) : Prop :=
  match c with
  | DrawTrianglesCmd dtc => Forall (λ r, 0 ≤ IndexCount r) (c_dstRegions dtc)
  | OtherCmd _ => True
  end.

(** A draw command's vertices fit one vertex-buffer generation. *)
Definition withinGeneration (c : command) : Prop :=
  match c with
  | DrawTrianglesCmd dtc => numVertices dtc ≤ maxVertexFloatCount
  | OtherCmd _ => True
  end.

(** A draw command that holds vertices counts at least one index. *)
Definition indexed (c : command) : Prop :=
  match c with
  | DrawTrianglesCmd dtc => 0 < regionIndices (c_dstRegions dtc) ∨ c_vertices dtc = []
  | OtherCmd _ => True
  end.

(** The invariant of a queue whose buffers are accounted for. *)
Record accounted (q : commandQueue) : Prop := {
  acc_wf : wf_queue q;
  acc_regions : Forall nonnegRegions (q_commands q);
  acc_generation : Forall withinGeneration (q_commands q);
  acc_vertices : totalVertices (q_commands q) = len (q_vertices q);
  acc_indices : totalIndices (q_commands q) = len (q_indices q);
  acc_vertices_int : len (q_vertices q) ≤ MaxInt;
  acc_indices_int : len (q_indices q) ≤ MaxInt;
  acc_last : ∀ dtc,
    last (q_commands q) = Some (DrawTrianglesCmd dtc) →
    numVertices dtc ≤ q_tmpNumVertexFloats q
}.

(** Appending [vertices] and [indices] to the queue's buffers yields
    slices the machine can hold. *)
Definition fitsInts (q : commandQueue) (vertices : list float32) (indices : list Z)
  : Prop :=
  len (q_vertices q) + len vertices ≤ MaxInt ∧ len (q_indices q) + len indices ≤ MaxInt.

End Accounting.

(** ** The command queue manager *)
Section Manager.
Context `{T : Target} `{F : Float32} `{Dbg : Debug} {D : Type} `{G : !Graphics D}
  `{C : !CommandMethods D}.

(** The first statement of the manager's enqueue functions:
    [if c.current == nil { c.current, _ = c.pool.get() }]. *)
Definition ensureCurrent (w : @world F D) : @world F D :=
  match w_current w with
  | Some _ => w
  | None => let '(q, _, w') := commandQueuePool_get w in set_current q w'
  end.

(** func (c *commandQueueManager) enqueueCommand(command command) *)
Definition enqueueCommand (c : command) (w : @world F D) : outcome (@world F D) :=
  let w1 := ensureCurrent w in
  match w_current w1 with
  | None => Panic "invalid memory address or nil pointer dereference"
  | Some a =>
    match w_queues w1 !! a with
    | None => Panic "invalid memory address or nil pointer dereference"
    | Some q => Done (set_queue a (Enqueue q c) w1)
    end
  end.

(** func (c *commandQueueManager) enqueueDrawTrianglesCommand(dst, srcs, vertices,
      indices, blend, dstRegion, srcRegions, shader, uniforms, fillRule) *)
Definition enqueueDrawTrianglesCommand (dst : Image) (srcs : array4 (option Image))
    (vertices : list float32) (indices : list Z) (blend : Blend) (dstRegion : Rectangle)
    (srcRegions : array4 Rectangle) (shader : Shader) (uniforms : list Z)
    (fillRule : FillRule) (w : @world F D) : outcome (@world F D) :=
  let w1 := ensureCurrent w in
  match w_current w1 with
  | None => Panic "invalid memory address or nil pointer dereference"
  | Some a =>
    match w_queues w1 !! a with
    | None => Panic "invalid memory address or nil pointer dereference"
    | Some q =>
      match EnqueueDrawTrianglesCommand q dst srcs vertices indices blend dstRegion
              srcRegions shader uniforms fillRule with
      | Done q' => Done (set_queue a q' w1)
      | Panic msg => Panic msg
      end
    end
  end.

(** func FlushCommands(graphicsDriver, endFrame) error *)
Definition FlushCommands (endFrame : bool) (w : @world F D)
  : outcome (option error * @world F D) :=
  match commandQueueManager_flush endFrame w with
  | Done (Some e, w') => Done (Some e, w')
  | Done (None, w') => Done (None, w')
  | Panic msg => Panic msg
  end.

(** The package when the program starts: [theCommandQueueManager] is the
    zero value, [init] has stored true in [vsyncEnabled], nothing is
    posted to the render thread. *)
Definition initialWorld (d : D) : @world F D :=
  {| w_driver := d; w_trace := []; w_queues := ∅; w_cache := [];
     w_current := None; w_vsyncEnabled := true; w_renderThread := [] |}.

(** The queues whose flush is posted to the render thread. *)
Definition pendingQueues (w : @world F D) : list nat := map t_queue (w_renderThread w).

(** The queues the manager can reach: the current one, those being
    flushed, those in the pool. *)
Definition reachable (w : @world F D) : list nat :=
  option_list (w_current w) ++ pendingQueues w ++ w_cache w.

(** A queue as the pool holds it: empty, with no stored error. *)
Definition idle (q : commandQueue) : Prop :=
  q_commands q = [] ∧ q_vertices q = [] ∧ q_indices q = []
  ∧ q_tmpNumVertexFloats q = 0 ∧ q_err q = None.

(** A queue in use: its buffers are accounted for and it holds no stored
    error. *)
Definition inUse (q : commandQueue) : Prop := accounted q ∧ q_err q = None.

(** The invariant of the manager: the current queue, the queues being
    flushed and the queues of the pool are pairwise distinct; the pooled
    ones are idle, the others are in use. *)
Record managed (w : @world F D) : Prop := {
  m_distinct : NoDup (reachable w);
  m_cached : ∀ a, a ∈ w_cache w → ∃ q, w_queues w !! a = Some q ∧ idle q;
  m_active : ∀ a, a ∈ option_list (w_current w) ++ pendingQueues w →
    ∃ q, w_queues w !! a = Some q ∧ inUse q
}.

End Manager.

(** ** Concrete instances, for running the model *)

(** A 64-bit target with eight floats per vertex. *)
Definition target64 : Target := {| uintBits := 64; VertexFloatCount := 8 |}.

(** A 32-bit target with eight floats per vertex. *)
Definition target32 : Target := {| uintBits := 32; VertexFloatCount := 8 |}.

(** Floats stood in for by integers scaled by 1000, their bits by the
    integer itself. *)
Definition milliFloat : Float32 :=
  {| float32 := Z;
     float32_of_int := λ z, 1000 * z;
     float32_div := λ a b, Z.quot (1000 * a) b;
     Float32bits := λ f, f |}.

Definition releaseBuild : Debug := {| IsDebug := false; firstCallerLabel := "" |}.

(** A scripted backend: its state says which calls fail. *)
Record scriptedDriver := {
  sd_begin : option error;
  sd_end : option error;
  sd_setVertices : option error;
  sd_exec : option error
}.

Definition healthyDriver : scriptedDriver :=
  {| sd_begin := None; sd_end := None; sd_setVertices := None; sd_exec := None |}.

Definition scriptedGraphics : @Graphics milliFloat scriptedDriver :=
  {| graphicsDriver_Begin := λ d, (sd_begin d, d);
     graphicsDriver_End := λ _ d, (sd_end d, d);
     graphicsDriver_SetVertices := λ _ _ d, (sd_setVertices d, d) |}.

(** Commands over the scripted backend: the command tagged 1 is a pixel
    readback and needs synchronization. *)
Definition scriptedCommands : @CommandMethods milliFloat scriptedDriver :=
  {| NeedsSync := λ c, match c with OtherCmd 1 => true | _ => false end;
     Exec := λ _ _ d, (sd_exec d, d) |}.

Definition image1 : Image := {| image_id := 1; internalWidth := 16; internalHeight := 16 |}.
Definition image2 : Image := {| image_id := 2; internalWidth := 16; internalHeight := 16 |}.

Definition noSrcs : array4 (option Image) := Array4 None None None None.
Definition oneSrc : array4 (option Image) := Array4 (Some image2) None None None.

Definition rect (x0 y0 x1 y1 : Z) : Rectangle :=
  {| Min := {| X := x0; Y := y0 |}; Max := {| X := x1; Y := y1 |} |}.

Definition noRegions : array4 Rectangle :=
  Array4 (rect 0 0 0 0) (rect 0 0 0 0) (rect 0 0 0 0) (rect 0 0 0 0).

Definition shader1 : Shader :=
  {| shader_id := 1; ir := {| prog_unit := Texels; uniformUsed := λ _, true |} |}.

Definition blendCopy : Blend :=
  {| BlendFactorSourceRGB := 1; BlendFactorSourceAlpha := 1;
     BlendFactorDestinationRGB := 0; BlendFactorDestinationAlpha := 0;
     BlendOperationRGB := 0; BlendOperationAlpha := 0 |}.

(** Eight floats: one vertex. *)
Definition oneVertex : list (@float32 milliFloat) := [0; 0; 0; 0; 1000; 1000; 1000; 1000].

(** One draw of [image2] into [image1]: a vertex, an index, no uniforms of
    its own. *)
Definition drawOnce (q : @commandQueue milliFloat) : outcome (@commandQueue milliFloat) :=
  @EnqueueDrawTrianglesCommand target64 milliFloat releaseBuild q image1 oneSrc oneVertex
    [0] blendCopy (rect 0 0 16 16) noRegions shader1 [] 0.

(** The queue after one draw was enqueued on an empty queue. *)
Definition afterOneDraw : @commandQueue milliFloat :=
  match drawOnce commandQueue_zero with
  | Done q => q
  | Panic _ => commandQueue_zero
  end.

(** A queue whose vertex buffer generation is full. *)
Definition fullGeneration : @commandQueue milliFloat :=
  set_tmpNumVertexFloats (@maxVertexFloatCount target64) (set_vertices oneVertex afterOneDraw).

(** A backend that refuses to begin a frame. *)
Definition lostDriver : scriptedDriver :=
  {| sd_begin := Some "context lost"; sd_end := None; sd_setVertices := None;
     sd_exec := None |}.

(** A backend on which every command fails to execute. *)
Definition failingDriver : scriptedDriver :=
  {| sd_begin := None; sd_end := None; sd_setVertices := None;
     sd_exec := Some "device removed" |}.

(** A world with the queue [q] at address 0, current, and an idle render
    thread. *)
Definition worldWith (q : @commandQueue milliFloat) (d : scriptedDriver) (vsync : bool)
  : @world milliFloat scriptedDriver :=
  {| w_driver := d; w_trace := []; w_queues := {[ 0%nat := q ]}; w_cache := [];
     w_current := Some 0%nat; w_vsyncEnabled := vsync; w_renderThread := [] |}.

(** The world after a draw was flushed asynchronously (not at the end of
    a frame) on a backend that fails, and the render thread ran: the queue
    at address 0 remembers the error. *)
Definition afterFailedFlush : @world milliFloat scriptedDriver :=
  match @Flush target64 milliFloat scriptedDriver scriptedGraphics scriptedCommands 0%nat
          false (worldWith afterOneDraw failingDriver true) with
  | Done (_, w1) =>
    match @renderThreadStep target64 milliFloat scriptedDriver scriptedGraphics
            scriptedCommands w1 with
    | Done w2 => w2
    | Panic _ => w1
    end
  | Panic _ => worldWith afterOneDraw failingDriver true
  end.

(** A backend for running the restoration: an upload replaces the
    contents, a draw copies its first source. *)
Definition copyBackend : restorable.Backend () :=
  {| restorable.newTexture := λ w h, replicate (Z.to_nat (4 * w * h)) 0;
     restorable.uploadPixels := λ _ data _, data;
     restorable.submitDraw := λ _ srcs dst, default dst (head srcs) |}.

(** Three 1x1 images chained from an opaque black pixel. *)
Definition chainOfThree : @restorable.State () :=
  @restorable.chain () copyBackend 3 1 1 [0; 0; 0; 255] (rect 0 0 1 1) ().

(** A world in which the flush of the queue [q], at address 0, is posted
    to the render thread and has not run yet; there is no current queue. *)
Definition worldFlushing (q : @commandQueue milliFloat) (d : scriptedDriver)
  : @world milliFloat scriptedDriver :=
  {| w_driver := d; w_trace := []; w_queues := {[ 0%nat := q ]}; w_cache := [];
     w_current := None; w_vsyncEnabled := true;
     w_renderThread := [{| t_queue := 0%nat; t_endFrame := false |}] |}.

(** * Properties *)

Section QueueFacts.
Context `{T : Target} {TOk : TargetOk} `{F : Float32} `{Dbg : Debug}.

(** *** Machine arithmetic *)

Lemma is32bit_64 : uintBits = 64 → is32bit = 0.
Proof. intros E. unfold is32bit, uint_allones. by rewrite E. Qed.

Lemma is32bit_32 : uintBits = 32 → is32bit = 1.
Proof. intros E. unfold is32bit, uint_allones. by rewrite E. Qed.

Lemma MaxInt_ge : 2 ^ 31 - 1 ≤ MaxInt.
Proof. unfold MaxInt. destruct uintBits_ok as [E|E]; rewrite E; simpl; lia. Qed.

Lemma MaxVertexCount_bounds : 0 ≤ MaxVertexCount ≤ MaxUint32.
Proof.
  pose proof VertexFloatCount_pos as Hpos.
  unfold MaxVertexCount, is64bit.
  destruct uintBits_ok as [E|E].
  - rewrite (is32bit_32 E). rewrite Z.quot_div_nonneg by (unfold MaxInt32; lia).
    assert (0 ≤ MaxInt32 `div` VertexFloatCount) by (apply Z.div_pos; unfold MaxInt32; lia).
    assert (MaxInt32 `div` VertexFloatCount ≤ MaxInt32)
      by (apply Z.div_le_upper_bound; unfold MaxInt32; nia).
    unfold MaxUint32, MaxInt32 in *. lia.
  - rewrite (is32bit_64 E). unfold MaxUint32. lia.
Qed.

Lemma maxVertexFloatCount_bounds : 0 ≤ maxVertexFloatCount ≤ MaxInt.
Proof.
  pose proof VertexFloatCount_pos as Hpos.
  pose proof VertexFloatCount_small as Hsmall.
  unfold maxVertexFloatCount, MaxVertexCount, is64bit, MaxInt.
  destruct uintBits_ok as [E|E]; rewrite E.
  - rewrite (is32bit_32 E). rewrite Z.quot_div_nonneg by (unfold MaxInt32; lia).
    assert (0 ≤ MaxInt32 `div` VertexFloatCount) by (apply Z.div_pos; unfold MaxInt32; lia).
    pose proof (Z.mul_div_le MaxInt32 VertexFloatCount Hpos).
    change (2 ^ (32 - 1) - 1) with MaxInt32. nia.
  - rewrite (is32bit_64 E). unfold MaxUint32.
    change (2 ^ (64 - 1) - 1) with 9223372036854775807.
    change (2 ^ 32 - 1) with 4294967295. change (2 ^ 16) with 65536 in Hsmall. nia.
Qed.

Lemma int_wrap_id (z : Z) : MinInt ≤ z ≤ MaxInt → int_wrap z = z.
Proof.
  unfold MinInt, MaxInt, int_wrap.
  destruct uintBits_ok as [E|E]; rewrite E; simpl; intros Hz;
    rewrite Z.mod_small; lia.
Qed.

Lemma int_add_id (x y : Z) : 0 ≤ x → 0 ≤ y → x + y ≤ MaxInt → int_add x y = x + y.
Proof.
  intros Hx Hy Hxy. apply int_wrap_id. split; [|done].
  unfold MinInt. destruct uintBits_ok as [E|E]; rewrite E; simpl; lia.
Qed.

Lemma len_nonneg {A : Type} (l : list A) : 0 ≤ len l.
Proof. unfold len. lia. Qed.

Lemma len_app {A : Type} (l k : list A) : len (l ++ k) = len l + len k.
Proof. unfold len. rewrite length_app. lia. Qed.

(** *** The uniform buffer *)

Lemma roundUpPower2_loop_ge (fuel : nat) (p2 x : Z) :
  1 ≤ p2 → x ≤ p2 * 2 ^ Z.of_nat fuel → x ≤ roundUpPower2_loop fuel p2 x.
Proof.
  revert p2. induction fuel as [|fuel IH]; intros p2 Hp Hx; simpl.
  - change (2 ^ Z.of_nat 0) with 1 in Hx. lia.
  - destruct (Z.ltb_spec p2 x) as [Hlt|Hge]; [|lia].
    apply IH; [lia|].
    rewrite Nat2Z.inj_succ, Z.pow_succ_r in Hx by lia. lia.
Qed.

Lemma roundUpPower2_ge (x : Z) : x ≤ roundUpPower2 x.
Proof.
  unfold roundUpPower2. destruct (Z.le_gt_cases x 0) as [Hx|Hx].
  - replace (Z.to_nat x) with 0%nat by lia. simpl. lia.
  - apply roundUpPower2_loop_ge; [lia|].
    rewrite Z2Nat.id by lia.
    pose proof (Z.pow_gt_lin_r 2 x ltac:(lia) ltac:(lia)). lia.
Qed.

Lemma alloc_length (b : uint32sBuffer) (n : nat) :
  length (alloc b n).1.2 = n.
Proof.
  unfold alloc. case_bool_decide as Hc; simpl.
  - rewrite length_take, drop_0, length_replicate.
    pose proof (roundUpPower2_ge (Z.of_nat (buf_len b + n))). lia.
  - rewrite length_take, length_drop. unfold len in Hc. lia.
Qed.

Lemma copy_full {A : Type} (dst src : list A) :
  length dst = length src → copy dst src = src.
Proof.
  intros E. unfold copy. rewrite E, take_ge, drop_ge by lia.
  by rewrite app_nil_r.
Qed.

Ltac peel l :=
  let u := fresh "u" in
  destruct l as [|u l]; [simpl in *; lia|].

Lemma prependPreservedUniforms_block (uniforms : list Z) shader dst srcs dstRegion srcRegions :
  (PreservedUniformDwordCount ≤ length uniforms)%nat →
  prependPreservedUniforms uniforms shader dst srcs dstRegion srcRegions
  = Done (preservedBlock shader dst srcs dstRegion srcRegions
          ++ drop PreservedUniformDwordCount uniforms).
Proof.
  intros Hlen. unfold prependPreservedUniforms.
  case_bool_decide as Hc; [unfold PreservedUniformDwordCount in *; lia|].
  clear Hc. unfold PreservedUniformDwordCount in Hlen.
  do 46 peel uniforms.
  destruct dst as [did dw dh], srcs as [[s0|] [s1|] [s2|] [s3|]], shader as [sid [[] used]];
    try destruct s0; try destruct s1; try destruct s2; try destruct s3;
    reflexivity.
Qed.

Lemma commandQueue_prependPreservedUniforms_block (q : commandQueue) (uniforms : list Z)
    shader dst srcs dstRegion srcRegions :
  ∃ off b,
    commandQueue_prependPreservedUniforms q uniforms shader dst srcs dstRegion srcRegions
    = Done (off, preservedBlock shader dst srcs dstRegion srcRegions ++ uniforms,
            set_uint32sBuffer b q).
Proof.
  unfold commandQueue_prependPreservedUniforms.
  pose proof (alloc_length (q_uint32sBuffer q)
                (length uniforms + PreservedUniformDwordCount)) as Hl.
  destruct (alloc _ _) as [[off s] b]. simpl in Hl.
  rewrite prependPreservedUniforms_block.
  - rewrite drop_app_length'; [|rewrite length_take; lia].
    rewrite copy_full; [|rewrite length_drop; lia].
    by eexists _, _.
  - rewrite length_app, length_take. lia.
Qed.

(** *** Enqueueing *)

Lemma Enqueue_too_long (q : commandQueue) dst srcs vertices indices blend dstRegion srcRegions
    shader uniforms fillRule :
  len vertices > maxVertexFloatCount →
  ∃ msg, EnqueueDrawTrianglesCommand q dst srcs vertices indices blend dstRegion
           srcRegions shader uniforms fillRule = Panic msg.
Proof.
  intros Hlen. unfold EnqueueDrawTrianglesCommand.
  rewrite bool_decide_eq_true_2 by done. by eexists.
Qed.

Lemma Enqueue_staged (q : commandQueue) dst srcs vertices indices blend dstRegion srcRegions
    shader uniforms fillRule :
  len vertices ≤ maxVertexFloatCount →
  ∃ b,
    EnqueueDrawTrianglesCommand q dst srcs vertices indices blend dstRegion
      srcRegions shader uniforms fillRule
    = mergeOrAppend (stagedQueue q vertices indices b) (splits q vertices) dst srcs
        vertices indices blend dstRegion shader
        (queuedUniforms shader dst srcs dstRegion srcRegions uniforms) fillRule.
Proof.
  intros Hlen. unfold EnqueueDrawTrianglesCommand.
  rewrite bool_decide_eq_false_2 by lia. cbv zeta.
  match goal with
  | |- context [commandQueue_prependPreservedUniforms ?Q ?u ?s ?d ?ss ?dr ?sr] =>
    destruct (commandQueue_prependPreservedUniforms_block Q u s d ss dr sr)
      as (off & b & E); rewrite E
  end.
  exists (store off (queuedUniforms shader dst srcs dstRegion srcRegions uniforms) b).
  unfold mergeOrAppend, queuedUniforms.
  match goal with
  | |- match (if _ then _ else last (q_commands ?Q1)) with _ => _ end
       = match (if _ then _ else last (q_commands ?Q2)) with _ => _ end =>
    assert (Q1 = Q2) as ->; [|done]
  end.
  unfold stagedQueue, indexOffsetOf, counterAfterSplit, appendIndices.
  destruct (splits q vertices); simpl;
    by rewrite take_app_length, drop_app_length.
Qed.

Lemma lastVertices_suffix (q : commandQueue) (before window : list float32) :
  q_vertices q = before ++ window →
  lastVertices q (len window) = Done window.
Proof.
  intros E. unfold lastVertices. rewrite E, len_app.
  pose proof (len_nonneg before). pose proof (len_nonneg window).
  rewrite bool_decide_eq_true_2 by lia.
  replace (Z.to_nat (len before + len window - len window)) with (length before)
    by (unfold len; lia).
  by rewrite drop_app_length.
Qed.

Lemma mergeIntoLast_ok (q : commandQueue) last_ vertices indices dstRegion before :
  q_vertices q = before ++ c_vertices last_ ++ vertices →
  len (q_vertices q) ≤ MaxInt →
  c_dstRegions last_ ≠ [] →
  mergeIntoLast q last_ vertices indices dstRegion
  = Done (set_commands
            (set_last (DrawTrianglesCmd (mergedCommand last_ vertices indices dstRegion))
                      (q_commands q)) q).
Proof.
  intros E Hfit Hne. unfold mergeIntoLast, numVertices.
  pose proof (len_nonneg before). pose proof (len_nonneg vertices).
  pose proof (len_nonneg (c_vertices last_)).
  assert (len (q_vertices q) = len before + len (c_vertices last_) + len vertices) as El
    by (rewrite E, !len_app; lia).
  rewrite int_add_id by lia.
  replace (len vertices + len (c_vertices last_)) with (len (c_vertices last_ ++ vertices))
    by (rewrite len_app; lia).
  rewrite (lastVertices_suffix q before) by done.
  unfold mergedCommand, mergedRegions. simpl.
  destruct (last (c_dstRegions last_)) as [r|] eqn:El'.
  - by destruct (Rectangle_eqb (Region r) dstRegion).
  - by apply last_None in El'.
Qed.

Lemma appendNewCommand_ok (q : commandQueue) dst srcs vertices indices blend dstRegion
    shader uniforms fillRule before :
  q_vertices q = before ++ vertices →
  appendNewCommand q dst srcs vertices indices blend dstRegion shader uniforms fillRule
  = Done (set_commands
            (q_commands q ++ [DrawTrianglesCmd
               (newCommand dst srcs vertices indices blend dstRegion shader uniforms
                  fillRule)])
            (set_drawTrianglesCommandPool (pool_get (q_drawTrianglesCommandPool q)).2 q)).
Proof.
  intros E. unfold appendNewCommand. simpl.
  by rewrite (lastVertices_suffix _ before).
Qed.

Lemma set_last_snoc {A : Type} (x y : A) (l : list A) : set_last x (l ++ [y]) = l ++ [x].
Proof.
  unfold set_last. rewrite length_app. simpl.
  replace (pred (length l + 1)) with (length l + 0)%nat by lia.
  by rewrite insert_app_r.
Qed.

Lemma last_Some_snoc {A : Type} (x : A) (l : list A) :
  last l = Some x → ∃ l', l = l' ++ [x].
Proof.
  intros E. destruct l as [|a l'] using rev_ind; [done|].
  rewrite last_snoc in E. injection E as ->. by eexists.
Qed.

Lemma mergedRegions_nonempty (rs : list DstRegion) dstRegion indices :
  rs ≠ [] → mergedRegions rs dstRegion indices ≠ [].
Proof.
  intros Hne. unfold mergedRegions.
  destruct (last rs) as [r|] eqn:E; [|done].
  destruct (last_Some_snoc _ _ E) as [rs' ->].
  destruct (Rectangle_eqb _ _).
  - rewrite set_last_snoc. by destruct rs'.
  - by destruct rs'.
Qed.

Lemma staged_counter (q : commandQueue) (vertices : list float32) :
  wf_queue q → fitsInt q vertices → len vertices ≤ maxVertexFloatCount →
  int_add (counterAfterSplit q vertices) (len vertices)
  = counterAfterSplit q vertices + len vertices
  ∧ 0 ≤ counterAfterSplit q vertices + len vertices ≤ maxVertexFloatCount.
Proof.
  intros [Hc Hcb _ _] Hfit Hlen. unfold fitsInt in Hfit.
  pose proof (len_nonneg vertices).
  unfold counterAfterSplit, splits, mustUseDifferentVertexBuffer.
  case_bool_decide as Hs.
  - rewrite int_add_id by lia. lia.
  - rewrite int_add_id in Hs |- * by lia. lia.
Qed.

Lemma Enqueue_done (q : commandQueue) dst srcs vertices indices blend dstRegion srcRegions
    shader uniforms fillRule :
  wf_queue q → fitsInt q vertices → len vertices ≤ maxVertexFloatCount →
  ∃ b,
    EnqueueDrawTrianglesCommand q dst srcs vertices indices blend dstRegion
      srcRegions shader uniforms fillRule
    = Done (enqueued q dst srcs vertices indices blend dstRegion srcRegions shader
              uniforms fillRule b).
Proof.
  intros Hwf Hfit Hlen.
  destruct (Enqueue_staged q dst srcs vertices indices blend dstRegion srcRegions
              shader uniforms fillRule Hlen) as [b E].
  exists b. rewrite E. unfold enqueued, mergeOrAppend, mergeTarget. simpl.
  destruct (splits q vertices).
  { by rewrite (appendNewCommand_ok _ _ _ _ _ _ _ _ _ _ (q_vertices q)). }
  destruct (last (q_commands q)) as [[last_|tag]|] eqn:El.
  - destruct (CanMergeWithDrawTrianglesCommand _ _ _ _ _ _ _ _).
    + destruct (wf_last_window q Hwf last_ El) as [before Eb].
      rewrite (mergeIntoLast_ok _ _ _ _ _ before); [done| |..].
      * simpl. by rewrite Eb, <-app_assoc.
      * simpl. rewrite len_app. apply Hfit.
      * by apply (wf_last_regions q Hwf).
    + by rewrite (appendNewCommand_ok _ _ _ _ _ _ _ _ _ _ (q_vertices q)).
  - by rewrite (appendNewCommand_ok _ _ _ _ _ _ _ _ _ _ (q_vertices q)).
  - by rewrite (appendNewCommand_ok _ _ _ _ _ _ _ _ _ _ (q_vertices q)).
Qed.

Lemma enqueued_wf (q : commandQueue) dst srcs vertices indices blend dstRegion srcRegions
    shader uniforms fillRule b :
  wf_queue q → fitsInt q vertices → len vertices ≤ maxVertexFloatCount →
  wf_queue (enqueued q dst srcs vertices indices blend dstRegion srcRegions shader
              uniforms fillRule b).
Proof.
  intros Hwf Hfit Hlen.
  destruct (staged_counter q vertices Hwf Hfit Hlen) as [Ec Hc].
  assert (counterAfterSplit q vertices ≤ len (q_vertices q)) as Hcb.
  { unfold counterAfterSplit. pose proof (len_nonneg (q_vertices q)).
    destruct (splits q vertices); [lia|apply Hwf]. }
  unfold enqueued, mergeTarget.
  destruct (splits q vertices) eqn:Es; [|destruct (last (q_commands q)) as [[last_|tag]|] eqn:El;
    [destruct (CanMergeWithDrawTrianglesCommand _ _ _ _ _ _ _ _) eqn:Em|..]].
  all: split; simpl; rewrite ?Ec, ?len_app; try lia.
  all: try (intros dtc; rewrite last_snoc; intros [= <-]; simpl; first [done | by eexists]).
  - destruct (last_Some_snoc _ _ El) as [cs ->].
    intros dtc. rewrite set_last_snoc, last_snoc. intros [= <-]. simpl.
    apply mergedRegions_nonempty. by apply (wf_last_regions q Hwf).
  - destruct (last_Some_snoc _ _ El) as [cs Ecs].
    intros dtc. rewrite Ecs, set_last_snoc, last_snoc. intros [= <-]. simpl.
    destruct (wf_last_window q Hwf last_ El) as [before Eb].
    exists before. by rewrite Eb, <-app_assoc.
Qed.

(** *** The invariant is established and preserved *)

Lemma commandQueue_zero_wf : wf_queue commandQueue_zero.
Proof.
  pose proof maxVertexFloatCount_bounds.
  split; simpl; try done; lia.
Qed.

(** Enqueueing a command other than a draw: such commands go through
    [Enqueue], draws through [EnqueueDrawTrianglesCommand]. *)
Lemma Enqueue_wf (q : commandQueue) (tag : Z) :
  wf_queue q → wf_queue (Enqueue q (OtherCmd tag)).
Proof.
  intros [Hc Hcb _ _]. split; simpl; try done;
    intros dtc; by rewrite last_snoc.
Qed.

End QueueFacts.

Lemma target64_ok : @TargetOk target64.
Proof. split; simpl; lia. Qed.

Lemma target32_ok : @TargetOk target32.
Proof. split; simpl; lia. Qed.

Section EnqueueProperties.
Context `{T : Target} {TOk : TargetOk} `{F : Float32} `{Dbg : Debug}.

(** C1. When no vertex-buffer split occurs, the last queued command is a
    draw-triangles command and it can merge with the new draw (same
    destination, sources, shader, blend, fill rule, and equal uniforms
    after filtering), EnqueueDrawTrianglesCommand appends no command: the
    last command's vertex window is extended by the new vertices, and
    either the index count of its last destination sub-region grows by
    len(indices) (same rectangle) or a sub-region with the new rectangle
    and len(indices) indices is appended. *)
Theorem C1_merge_extends_last_command (q : commandQueue) (dst : Image)
    (srcs : array4 (option Image)) (vertices : list float32) (indices : list Z)
    (blend : Blend) (dstRegion : Rectangle) (srcRegions : array4 Rectangle)
    (shader : Shader) (uniforms : list Z) (fillRule : FillRule)
    (last_ : drawTrianglesCommand) :
  wf_queue q → fitsInt q vertices →
  len vertices ≤ maxVertexFloatCount →
  splits q vertices = false →
  last (q_commands q) = Some (DrawTrianglesCmd last_) →
  CanMergeWithDrawTrianglesCommand last_ dst srcs vertices blend shader
    (queuedUniforms shader dst srcs dstRegion srcRegions uniforms) fillRule = true →
  ∃ q' last' rs r,
    EnqueueDrawTrianglesCommand q dst srcs vertices indices blend dstRegion srcRegions
      shader uniforms fillRule = Done q'
    ∧ length (q_commands q') = length (q_commands q)
    ∧ q_commands q' = set_last (DrawTrianglesCmd last') (q_commands q)
    ∧ last (q_commands q') = Some (DrawTrianglesCmd last')
    ∧ c_vertices last' = c_vertices last_ ++ vertices
    ∧ c_dstRegions last_ = rs ++ [r]
    ∧ c_dstRegions last' =
        (if Rectangle_eqb (Region r) dstRegion
         then rs ++ [{| Region := Region r;
                        IndexCount := int_add (IndexCount r) (len indices) |}]
         else rs ++ [r; {| Region := dstRegion; IndexCount := len indices |}])
    ∧ (c_dst last', c_srcs last', c_blend last', c_shader last', c_uniforms last',
       c_fillRule last')
      = (c_dst last_, c_srcs last_, c_blend last_, c_shader last_, c_uniforms last_,
         c_fillRule last_).
Proof.
  intros Hwf Hfit Hlen Hsplit Hlast Hmerge.
  destruct (Enqueue_done q dst srcs vertices indices blend dstRegion srcRegions shader
              uniforms fillRule Hwf Hfit Hlen) as [b E].
  pose proof (wf_last_regions q Hwf last_ Hlast) as Hne.
  destruct (last (c_dstRegions last_)) as [r|] eqn:Er; [|by apply last_None in Er].
  destruct (last_Some_snoc _ _ Er) as [rs Ers].
  destruct (last_Some_snoc _ _ Hlast) as [cs Ecs].
  exists (enqueued q dst srcs vertices indices blend dstRegion srcRegions shader uniforms
            fillRule b),
         (mergedCommand last_ vertices indices dstRegion), rs, r.
  split; [done|].
  unfold enqueued, mergeTarget. rewrite Hsplit, Hlast, Hmerge. simpl.
  rewrite Ecs, set_last_snoc, last_snoc, !length_app. simpl.
  repeat split; try done.
  unfold mergedRegions. rewrite Er, Ers.
  destruct (Rectangle_eqb (Region r) dstRegion).
  - by rewrite set_last_snoc.
  - by rewrite <-app_assoc.
Qed.

(** C4. EnqueueDrawTrianglesCommand panics exactly when len(vertices)
    exceeds maxVertexFloatCount; otherwise it completes, it has no error
    to return, and it leaves a well-formed queue. *)
Theorem C4_enqueue_panics_iff_too_many_vertices (q : commandQueue) (dst : Image)
    (srcs : array4 (option Image)) (vertices : list float32) (indices : list Z)
    (blend : Blend) (dstRegion : Rectangle) (srcRegions : array4 Rectangle)
    (shader : Shader) (uniforms : list Z) (fillRule : FillRule) :
  wf_queue q → fitsInt q vertices →
  ((∃ msg, EnqueueDrawTrianglesCommand q dst srcs vertices indices blend dstRegion
             srcRegions shader uniforms fillRule = Panic msg)
   ↔ len vertices > maxVertexFloatCount)
  ∧ (len vertices ≤ maxVertexFloatCount →
     ∃ q', EnqueueDrawTrianglesCommand q dst srcs vertices indices blend dstRegion
             srcRegions shader uniforms fillRule = Done q'
           ∧ wf_queue q').
Proof.
  intros Hwf Hfit.
  assert (len vertices ≤ maxVertexFloatCount →
     ∃ q', EnqueueDrawTrianglesCommand q dst srcs vertices indices blend dstRegion
             srcRegions shader uniforms fillRule = Done q'
           ∧ wf_queue q') as Hdone.
  { intros Hlen.
    destruct (Enqueue_done q dst srcs vertices indices blend dstRegion srcRegions shader
                uniforms fillRule Hwf Hfit Hlen) as [b E].
    eexists. split; [exact E|]. by apply enqueued_wf. }
  split; [|done]. split.
  - intros [msg E]. destruct (Z.le_gt_cases (len vertices) maxVertexFloatCount) as [Hle|Hgt].
    + destruct (Hdone Hle) as (q' & E' & _). congruence.
    + lia.
  - apply Enqueue_too_long.
Qed.

End EnqueueProperties.

Lemma afterOneDraw_wf : @wf_queue target64 milliFloat afterOneDraw.
Proof.
  split.
  - vm_compute. split; discriminate.
  - vm_compute. discriminate.
  - intros dtc E. vm_compute in E. injection E as <-. discriminate.
  - intros dtc E. vm_compute in E. injection E as <-. by exists [].
Qed.

Lemma C1_witness :
  ∃ q', drawOnce afterOneDraw = Done q' ∧ length (q_commands q') = 1%nat.
Proof.
  destruct (@C1_merge_extends_last_command target64 target64_ok milliFloat releaseBuild
              afterOneDraw image1 oneSrc oneVertex [0] blendCopy (rect 0 0 16 16) noRegions
              shader1 [] 0
              (@newCommand milliFloat releaseBuild image1 oneSrc oneVertex [0] blendCopy
                 (rect 0 0 16 16) shader1
                 (@queuedUniforms milliFloat shader1 image1 oneSrc (rect 0 0 16 16)
                    noRegions [])
                 0)) as (q' & last' & rs & r & E & Hlen & _).
  - exact afterOneDraw_wf.
  - vm_compute. discriminate.
  - vm_compute. discriminate.
  - vm_compute. reflexivity.
  - vm_compute. reflexivity.
  - vm_compute. reflexivity.
  - exists q'. split; [exact E | exact Hlen].
Defined.

Lemma C4_witness :
  ∃ q', drawOnce afterOneDraw = Done q' ∧ @wf_queue target64 milliFloat q'.
Proof.
  apply (@C4_enqueue_panics_iff_too_many_vertices target64 target64_ok milliFloat
           releaseBuild afterOneDraw image1 oneSrc oneVertex [0] blendCopy
           (rect 0 0 16 16) noRegions shader1 [] 0).
  - exact afterOneDraw_wf.
  - vm_compute. discriminate.
  - vm_compute. discriminate.
Defined.

Section SplitProperties.
Context `{T : Target} {TOk : TargetOk} `{F : Float32} `{Dbg : Debug}.

(** C5. mustUseDifferentVertexBuffer(n) is true exactly when n exceeds
    maxVertexFloatCount; MaxVertexCount is 2^32-1 on a 64-bit target and
    MaxInt32 / VertexFloatCount on a 32-bit target, so that
    maxVertexFloatCount fits the int type; and when
    EnqueueDrawTrianglesCommand detects a split, the counter restarts from
    zero (the new indices get offset 0 and the counter ends at
    len(vertices)) and the draw is queued as a new command, not merged. *)
Theorem C5_split_threshold_and_reset :
  (∀ n, mustUseDifferentVertexBuffer n = true ↔ n > maxVertexFloatCount)
  ∧ (uintBits = 64 → MaxVertexCount = 2 ^ 32 - 1)
  ∧ (uintBits = 32 → MaxVertexCount = Z.quot MaxInt32 VertexFloatCount)
  ∧ 0 ≤ maxVertexFloatCount ≤ MaxInt
  ∧ (∀ (q : commandQueue) dst srcs vertices indices blend dstRegion srcRegions shader
       uniforms fillRule,
       len vertices ≤ maxVertexFloatCount →
       splits q vertices = true →
       ∃ q' c,
         EnqueueDrawTrianglesCommand q dst srcs vertices indices blend dstRegion
           srcRegions shader uniforms fillRule = Done q'
         ∧ q_tmpNumVertexFloats q' = 0 + len vertices
         ∧ q_indices q' = q_indices q ++ map (λ i, uint32_add i 0) indices
         ∧ q_commands q' = q_commands q ++ [DrawTrianglesCmd c]
         ∧ c_vertices c = vertices
         ∧ c_dstRegions c = [{| Region := dstRegion; IndexCount := len indices |}]).
Proof.
  split; [|split; [|split; [|split]]].
  - intros n. unfold mustUseDifferentVertexBuffer. apply bool_decide_eq_true.
  - intros E. unfold MaxVertexCount, is64bit. rewrite (is32bit_64 E). unfold MaxUint32. lia.
  - intros E. unfold MaxVertexCount, is64bit. rewrite (is32bit_32 E). lia.
  - apply maxVertexFloatCount_bounds.
  - intros q dst srcs vertices indices blend dstRegion srcRegions shader uniforms fillRule
      Hlen Hsplit.
    destruct (Enqueue_staged q dst srcs vertices indices blend dstRegion srcRegions shader
                uniforms fillRule Hlen) as [b E].
    rewrite E. unfold mergeOrAppend. rewrite Hsplit.
    rewrite (appendNewCommand_ok _ _ _ _ _ _ _ _ _ _ (q_vertices q)) by done.
    eexists _, _. split; [done|]. simpl.
    unfold indexOffsetOf, counterAfterSplit. rewrite Hsplit.
    pose proof maxVertexFloatCount_bounds. pose proof (len_nonneg vertices).
    rewrite int_add_id by lia.
    repeat split.
Qed.

(** C6. appendIndices(indices, offset) grows the index list by exactly
    len(indices) elements, each the input index plus offset (in uint32
    arithmetic, which is the plain sum when it fits 32 bits), and leaves
    the indices stored before unchanged; EnqueueDrawTrianglesCommand uses
    as offset the accumulated vertex count tmpNumVertexFloats /
    VertexFloatCount, and appends the vertex floats verbatim. *)
Theorem C6_appendIndices_offsets :
  (∀ (q : commandQueue) (indices : list Z) (offset : Z),
     q_indices (appendIndices q indices offset)
     = q_indices q ++ map (λ i, uint32_add i offset) indices
     ∧ length (q_indices (appendIndices q indices offset))
       = (length (q_indices q) + length indices)%nat
     ∧ (∀ k, (k < length (q_indices q))%nat →
          q_indices (appendIndices q indices offset) !! k = q_indices q !! k)
     ∧ (∀ k i, indices !! k = Some i →
          q_indices (appendIndices q indices offset) !! (length (q_indices q) + k)%nat
          = Some (uint32_add i offset)))
  ∧ (∀ i offset, 0 ≤ i → 0 ≤ offset → i + offset < 2 ^ 32 → uint32_add i offset = i + offset)
  ∧ (∀ (q : commandQueue) dst srcs vertices indices blend dstRegion srcRegions shader
       uniforms fillRule,
       wf_queue q → fitsInt q vertices →
       len vertices ≤ maxVertexFloatCount →
       ∃ q',
         EnqueueDrawTrianglesCommand q dst srcs vertices indices blend dstRegion
           srcRegions shader uniforms fillRule = Done q'
         ∧ q_vertices q' = q_vertices q ++ vertices
         ∧ q_indices q'
           = q_indices q
             ++ map (λ i, uint32_add i
                            (Z.quot (counterAfterSplit q vertices) VertexFloatCount))
                    indices).
Proof.
  split; [|split].
  - intros q indices offset.
    assert (q_indices (appendIndices q indices offset)
            = q_indices q ++ map (λ i, uint32_add i offset) indices) as E.
    { unfold appendIndices. simpl. by rewrite take_app_length, drop_app_length. }
    rewrite E. split; [done|]. split; [|split].
    + by rewrite length_app, length_map.
    + intros k Hk. by rewrite lookup_app_l.
    + intros k i Hi. rewrite lookup_app_r by lia.
      replace (length (q_indices q) + k - length (q_indices q))%nat with k by lia.
      by rewrite list_lookup_fmap, Hi.
  - intros i offset Hi Ho Hlt. unfold uint32_add, uint32. apply Z.mod_small. lia.
  - intros q dst srcs vertices indices blend dstRegion srcRegions shader uniforms fillRule
      Hwf Hfit Hlen.
    destruct (Enqueue_done q dst srcs vertices indices blend dstRegion srcRegions shader
                uniforms fillRule Hwf Hfit Hlen) as [b E].
    eexists. split; [exact E|].
    assert (indexOffsetOf q vertices
            = Z.quot (counterAfterSplit q vertices) VertexFloatCount) as Eo.
    { unfold indexOffsetOf, uint32.
      pose proof VertexFloatCount_pos as Hpos.
      pose proof MaxVertexCount_bounds as Hm.
      assert (0 ≤ counterAfterSplit q vertices ≤ maxVertexFloatCount) as Hc.
      { unfold counterAfterSplit. pose proof maxVertexFloatCount_bounds.
        destruct (splits q vertices); [lia|apply Hwf]. }
      rewrite Z.quot_div_nonneg by lia.
      apply Z.mod_small. split; [apply Z.div_pos; lia|].
      assert (counterAfterSplit q vertices `div` VertexFloatCount ≤ MaxVertexCount).
      { apply Z.div_le_upper_bound; [lia|]. unfold maxVertexFloatCount in Hc. lia. }
      unfold MaxUint32 in Hm. lia. }
    unfold enqueued.
    destruct (mergeTarget _ _ _ _ _ _ _ _); simpl; by rewrite Eo.
Qed.

End SplitProperties.

Section PreservedProperties.
Context `{F : Float32}.


End PreservedProperties.

Lemma C5_witness :
  ∃ q' c,
    @EnqueueDrawTrianglesCommand target64 milliFloat releaseBuild fullGeneration image1
      oneSrc oneVertex [0] blendCopy (rect 0 0 16 16) noRegions shader1 [] 0 = Done q'
    ∧ q_tmpNumVertexFloats q' = 0 + len oneVertex
    ∧ q_indices q' = q_indices fullGeneration ++ map (λ i, uint32_add i 0) [0]
    ∧ q_commands q' = q_commands fullGeneration ++ [DrawTrianglesCmd c]
    ∧ c_vertices c = oneVertex
    ∧ c_dstRegions c = [{| Region := rect 0 0 16 16; IndexCount := len [0] |}].
Proof.
  refine (proj2 (proj2 (proj2 (proj2
            (@C5_split_threshold_and_reset target64 target64_ok milliFloat releaseBuild))))
            fullGeneration image1 oneSrc oneVertex [0] blendCopy (rect 0 0 16 16) noRegions
            shader1 [] 0 _ _).
  - vm_compute. discriminate.
  - vm_compute. reflexivity.
Defined.

Lemma C6_witness :
  ∃ q',
    drawOnce afterOneDraw = Done q'
    ∧ q_vertices q' = q_vertices afterOneDraw ++ oneVertex
    ∧ q_indices q'
      = q_indices afterOneDraw
        ++ map (λ i, uint32_add i
                       (Z.quot (@counterAfterSplit target64 milliFloat afterOneDraw oneVertex)
                          (@VertexFloatCount target64)))
               [0].
Proof.
  refine (proj2 (proj2 (@C6_appendIndices_offsets target64 target64_ok milliFloat
                          releaseBuild))
            afterOneDraw image1 oneSrc oneVertex [0] blendCopy (rect 0 0 16 16) noRegions
            shader1 [] 0 _ _ _).
  - exact afterOneDraw_wf.
  - vm_compute. discriminate.
  - vm_compute. discriminate.
Defined.

Section FlushFacts.
Context `{T : Target} `{F : Float32} {D : Type} `{G : !Graphics D} `{C : !CommandMethods D}.

Lemma runLength_bounds (cs : list command) (nv ne : Z) (nc : nat) :
  (nc ≤ (runLength cs nv ne nc).2 ≤ nc + length cs)%nat.
Proof.
  revert nv ne nc. induction cs as [|[dtc|tag] cs IH]; intros nv ne nc; simpl.
  - lia.
  - destruct (_ && _); simpl; [lia|].
    specialize (IH (int_add nv (numVertices dtc)) (int_add ne (numIndices dtc)) (S nc)). lia.
  - specialize (IH nv ne (S nc)). lia.
Qed.

Lemma runLength_progress (c : command) (cs : list command) :
  (1 ≤ (runLength (c :: cs) 0 0 0).2 ≤ S (length cs))%nat.
Proof.
  destruct c as [dtc|tag]; simpl.
  - pose proof (runLength_bounds cs (int_add 0 (numVertices dtc))
                  (int_add 0 (numIndices dtc)) 1). lia.
  - pose proof (runLength_bounds cs 0 0 1). lia.
Qed.

Lemma execRun_trace (cs : list command) (indexOffset : Z) (d : D) :
  Forall inner (execRun cs indexOffset d).2.
Proof.
  revert indexOffset d. induction cs as [|c cs IH]; intros indexOffset d; simpl.
  - constructor.
  - destruct (Exec c indexOffset d) as [[e|] d1]; simpl.
    + by repeat constructor.
    + match goal with
      | |- context [execRun cs ?o d1] =>
        specialize (IH o d1); destruct (execRun cs o d1) as [[r d2] tr]
      end.
      simpl in *. by constructor.
Qed.

Lemma flushLoop_step (fuel : nat) (c : command) (cs : list command) (vs : list float32)
    (es : list Z) (d : D) :
  flushLoop (S fuel) (c :: cs) vs es d =
  let '(nv, ne, nc) := runLength (c :: cs) 0 0 0%nat in
  if bool_decide (0 < ne)
  then
    if bool_decide (0 ≤ nv ≤ len vs ∧ ne ≤ len es)
    then
      match graphicsDriver_SetVertices (take (Z.to_nat nv) vs) (take (Z.to_nat ne) es) d with
      | (Some e, d1) =>
        (Returned (Some e), d1,
         [EvSetVertices (take (Z.to_nat nv) vs) (take (Z.to_nat ne) es)])
      | (None, d1) =>
        afterUpload fuel nc (c :: cs) (drop (Z.to_nat nv) vs) (drop (Z.to_nat ne) es) d1
          [EvSetVertices (take (Z.to_nat nv) vs) (take (Z.to_nat ne) es)]
      end
    else (Panicked "slice bounds out of range", d, [])
  else afterUpload fuel nc (c :: cs) vs es d [].
Proof.
  cbn [flushLoop]. destruct (runLength (c :: cs) 0 0 0) as [[nv ne] nc].
  unfold afterUpload.
  case_bool_decide; [|done].
  case_bool_decide; [|done].
  by destruct (graphicsDriver_SetVertices _ _ _) as [[e|] d1].
Qed.

Lemma flushLoop_trace (fuel : nat) (cs : list command) (vs : list float32) (es : list Z)
    (d : D) :
  Forall inner (flushLoop fuel cs vs es d).2.
Proof.
  revert cs vs es d. induction fuel as [|fuel IH]; intros cs vs es d;
    destruct cs as [|c cs]; try by constructor.
  rewrite flushLoop_step.
  destruct (runLength (c :: cs) 0 0 0) as [[nv ne] nc].
  assert (∀ vs1 es1 d1 tr1, Forall inner tr1 →
            Forall inner (afterUpload fuel nc (c :: cs) vs1 es1 d1 tr1).2) as Hrest.
  { intros vs1 es1 d1 tr1 Htr1. unfold afterUpload.
    pose proof (execRun_trace (take nc (c :: cs)) 0 d1) as H2.
    destruct (execRun _ _ _) as [[[e|] d2] tr2]; simpl in *.
    - by apply Forall_app.
    - specialize (IH (drop nc (c :: cs)) vs1 es1 d2).
      destruct (flushLoop _ _ _ _ _) as [[r d3] tr3]. simpl in *.
      by rewrite !Forall_app. }
  case_bool_decide; [|by apply Hrest].
  case_bool_decide; [|by constructor].
  destruct (graphicsDriver_SetVertices _ _ _) as [[e|] d1]; [by repeat constructor|].
  apply Hrest. by repeat constructor.
Qed.

Lemma flushLoop_total (fuel : nat) (cs : list command) (vs : list float32) (es : list Z)
    (d : D) :
  (length cs ≤ fuel)%nat → (flushLoop fuel cs vs es d).1.1 ≠ OutOfFuel.
Proof.
  revert cs vs es d. induction fuel as [|fuel IH]; intros cs vs es d Hf;
    destruct cs as [|c cs]; try done; [simpl in Hf; lia|].
  rewrite flushLoop_step.
  pose proof (runLength_progress c cs) as Hp.
  destruct (runLength (c :: cs) 0 0 0) as [[nv ne] nc]. simpl in Hp, Hf.
  assert (∀ vs1 es1 d1 tr1,
            (afterUpload fuel nc (c :: cs) vs1 es1 d1 tr1).1.1 ≠ OutOfFuel) as Hrest.
  { intros vs1 es1 d1 tr1. unfold afterUpload.
    destruct (execRun _ _ _) as [[[e|] d2] tr2]; simpl; [done|].
    specialize (IH (drop nc (c :: cs)) vs1 es1 d2).
    destruct (flushLoop _ _ _ _ _) as [[r d3] tr3]. simpl in *.
    apply IH. rewrite length_drop. simpl. lia. }
  case_bool_decide; [|by apply Hrest].
  case_bool_decide; [|done].
  destruct (graphicsDriver_SetVertices _ _ _) as [[e|] d1]; [done|].
  apply Hrest.
Qed.

Lemma foldl_pool_put (p : drawTrianglesCommandPool) (cs : list drawTrianglesCommand) :
  foldl pool_put p cs = p ++ cs.
Proof.
  revert p. induction cs as [|c cs IH]; intros p; simpl.
  - by rewrite app_nil_r.
  - rewrite IH. unfold pool_put. by rewrite <-app_assoc.
Qed.

Lemma filter_isEnd_none (tr : list event) :
  Forall inner tr → filter (λ e, isEnd e = true) tr = [].
Proof.
  induction 1 as [|e tr [He _] _ IH]; [done|].
  rewrite filter_cons_False; [done|]. by rewrite He.
Qed.

Lemma filter_isEnd_finalizers (fs : list Z) :
  filter (λ e, isEnd e = true) (map EvFinalizer fs) = [].
Proof. induction fs as [|f fs IH]; [done|]. by rewrite fmap_cons, filter_cons_False. Qed.

Lemma released_wf `{!TargetOk} (q : commandQueue) (endFrame : bool) :
  wf_queue (released q endFrame).
Proof.
  pose proof maxVertexFloatCount_bounds.
  split; simpl; try done; lia.
Qed.

Lemma firstStoredError_found (qs : gmap nat commandQueue) (cache : list nat) (a : nat)
    (q : commandQueue) (e : error) :
  a ∈ cache → qs !! a = Some q → q_err q = Some e →
  is_Some (firstStoredError qs cache).
Proof.
  intros Ha Hq He. induction cache as [|b cache IH]; [by apply elem_of_nil in Ha|].
  simpl. destruct (qs !! b) as [qb|] eqn:Eb.
  - destruct (q_err qb) as [eb|] eqn:Ee; [by eexists|].
    apply elem_of_cons in Ha as [->|Ha]; [|by apply IH].
    rewrite Hq in Eb. injection Eb as <-. congruence.
  - apply elem_of_cons in Ha as [->|Ha]; [congruence|by apply IH].
Qed.

(** A pool that caches a queue with a stored error hands out no queue:
    [get] returns a stored error. *)
Lemma commandQueuePool_get_error (w : @world F D) (a : nat) (q : commandQueue) (e : error) :
  a ∈ w_cache w → w_queues w !! a = Some q → q_err q = Some e →
  ∃ e', commandQueuePool_get w = (None, Some e', w).
Proof.
  intros Ha Hq He.
  destruct (firstStoredError_found _ _ _ _ _ Ha Hq He) as [e' E].
  exists e'. unfold commandQueuePool_get.
  destruct (w_cache w) as [|b cache]; [by apply elem_of_nil in Ha|].
  by rewrite E.
Qed.

End FlushFacts.

Section FlushProperties.
Context `{T : Target} `{F : Float32} {D : Type} `{G : !Graphics D} `{C : !CommandMethods D}.

(** C3. Once Begin has succeeded, flush calls End(endFrame) exactly once,
    after everything the body did, whether the body returned nil, returned
    the error of SetVertices or of a command, or panicked; and when the
    body returned nil, the error of End (if any) is what flush returns. *)
Theorem C3_End_called_exactly_once (q : commandQueue) (d d1 d2 : D) (endFrame : bool)
    (body : ending) (tr : list event) :
  bool_decide (len (q_commands q) = 0) && negb endFrame = false →
  graphicsDriver_Begin d = (None, d1) →
  flushLoop (length (q_commands q)) (q_commands q) (q_vertices q) (q_indices q) d1
  = (body, d2, tr) →
  let r := flush q d endFrame in
  filter (λ e, isEnd e = true) (fl_trace r) = [EvEnd endFrame]
  ∧ fl_trace r = EvBegin :: tr ++ [EvEnd endFrame]
                 ++ (if endFrame then map EvFinalizer (q_finalizers q) else [])
  ∧ Forall inner tr
  ∧ fl_driver r = (graphicsDriver_End endFrame d2).2
  ∧ body ≠ OutOfFuel
  ∧ (body = Returned None → fl_ending r = Returned (graphicsDriver_End endFrame d2).1)
  ∧ (∀ e, body = Returned (Some e) → fl_ending r = Returned (Some e))
  ∧ (∀ msg, body = Panicked msg → fl_ending r = Panicked msg).
Proof.
  intros Hreach Hbegin Hloop r.
  pose proof (flushLoop_trace (length (q_commands q)) (q_commands q) (q_vertices q)
                (q_indices q) d1) as Htr.
  pose proof (flushLoop_total (length (q_commands q)) (q_commands q) (q_vertices q)
                (q_indices q) d1 (le_n _)) as Htot.
  rewrite Hloop in Htr, Htot. simpl in Htr, Htot.
  subst r. unfold flush. rewrite Hreach, Hbegin, Hloop.
  destruct (graphicsDriver_End endFrame d2) as [err1 d3] eqn:Eend. simpl.
  split; [|split; [done|split; [done|split; [done|split; [done|split; [|split]]]]]].
  - rewrite filter_cons_False by (simpl; congruence).
    rewrite !filter_app, (filter_isEnd_none tr Htr). simpl.
    rewrite filter_cons_True by done. f_equal.
    destruct endFrame; [apply filter_isEnd_finalizers|done].
  - intros ->. by destruct err1.
  - intros e ->. by destruct err1.
  - intros msg ->. by destruct err1.
Qed.

(** C10. When Begin has succeeded, flush leaves the command
    list, the vertex buffer and the index buffer empty and the counter at
    zero, with every draw-triangles record put back in the pool, whether
    it returns nil or an error. When flush has nothing to do, or when
    Begin fails, it returns before the deferred block is installed and the
    queue is left as it was. *)
Theorem C10_flush_releases_after_Begin (q : commandQueue) (d : D) (endFrame : bool) :
  let r := flush q d endFrame in
  (∀ d1,
     bool_decide (len (q_commands q) = 0) && negb endFrame = false →
     graphicsDriver_Begin d = (None, d1) →
     q_commands (fl_queue r) = []
     ∧ q_vertices (fl_queue r) = []
     ∧ q_indices (fl_queue r) = []
     ∧ q_tmpNumVertexFloats (fl_queue r) = 0
     ∧ q_drawTrianglesCommandPool (fl_queue r)
       = q_drawTrianglesCommandPool q ++ drawCommands (q_commands q)
     ∧ fl_ending r ≠ OutOfFuel)
  ∧ (∀ e d1,
       bool_decide (len (q_commands q) = 0) && negb endFrame = false →
       graphicsDriver_Begin d = (Some e, d1) →
       fl_ending r = Returned (Some e) ∧ fl_queue r = q ∧ fl_trace r = [EvBegin])
  ∧ (bool_decide (len (q_commands q) = 0) && negb endFrame = true →
     fl_ending r = Returned None ∧ fl_queue r = q ∧ fl_trace r = []
     ∧ q_commands q = []).
Proof.
  intros r. subst r. unfold flush. split; [|split].
  - intros d1 -> ->.
    pose proof (flushLoop_total (length (q_commands q)) (q_commands q) (q_vertices q)
                  (q_indices q) d1 (le_n _)) as Htot.
    destruct (flushLoop _ _ _ _ _) as [[body d2] tr].
    destruct (graphicsDriver_End endFrame d2) as [err1 d3]. simpl in *.
    rewrite foldl_pool_put. repeat split.
    destruct body as [[e|]| |]; destruct err1; done.
  - by intros e d1 -> ->.
  - intros Hnoop. rewrite Hnoop. repeat split.
    apply andb_true_iff in Hnoop as [Hz _]. apply bool_decide_eq_true in Hz.
    unfold len in Hz. destruct (q_commands q); [done|simpl in Hz; lia].
Qed.

Lemma anyNeedsSync_existsb (cs : list command) : anyNeedsSync cs = existsb NeedsSync cs.
Proof. induction cs as [|c cs IH]; [done|]. simpl. rewrite IH. by destruct (NeedsSync c). Qed.

Lemma flushSync_spec (q : commandQueue) (endFrame vsync : bool) :
  flushSync q endFrame vsync = (endFrame && vsync) || existsb NeedsSync (q_commands q).
Proof.
  unfold flushSync. rewrite anyNeedsSync_existsb. by destruct (endFrame && vsync).
Qed.

Lemma flushClosure_renderThread (sync : bool) (t : flushTask) (w w1 : world)
    (e : option error) :
  flushClosure sync t w = Done (e, w1) → w_renderThread w1 = w_renderThread w.
Proof.
  unfold flushClosure. destruct (w_queues w !! t_queue t) as [q|]; [|done].
  destruct (fl_ending _) as [[e1|]| |]; try done.
  - destruct sync; by intros [= <- <-].
  - by intros [= <- <-].
Qed.

Lemma drain_empties (n : nat) (w w1 : world) :
  (length (w_renderThread w) ≤ n)%nat → drain n w = Done w1 → w_renderThread w1 = [].
Proof.
  revert w. induction n as [|n IH]; intros w Hn; simpl.
  - intros [= <-]. destruct (w_renderThread w); [done|simpl in Hn; lia].
  - unfold renderThreadStep. destruct (w_renderThread w) as [|t ts] eqn:Et.
    + apply IH. rewrite Et. simpl. lia.
    + destruct (flushClosure false t (set_renderThread ts w)) as [[e w2]|msg] eqn:Ec;
        [|done].
      apply IH. apply flushClosure_renderThread in Ec. rewrite Ec. simpl in *. lia.
Qed.



End FlushProperties.

Lemma C3_witness :
  let r := @flush target64 milliFloat scriptedDriver scriptedGraphics scriptedCommands
             afterOneDraw failingDriver true in
  filter (λ e, isEnd e = true) (fl_trace r) = [EvEnd true]
  ∧ fl_ending r = Returned (Some "device removed").
Proof.
  pose (l := @flushLoop target64 milliFloat scriptedDriver scriptedGraphics scriptedCommands
               (length (q_commands afterOneDraw)) (q_commands afterOneDraw)
               (q_vertices afterOneDraw) (q_indices afterOneDraw) failingDriver).
  destruct (@C3_End_called_exactly_once target64 milliFloat scriptedDriver scriptedGraphics
              scriptedCommands afterOneDraw failingDriver failingDriver l.1.2 true
              l.1.1 l.2)
    as (Hcount & _ & _ & _ & _ & _ & Herr & _).
  - vm_compute. reflexivity.
  - reflexivity.
  - vm_compute. reflexivity.
  - split; [exact Hcount|]. apply Herr. vm_compute. reflexivity.
Defined.

Lemma C10_witness :
  let r := @flush target64 milliFloat scriptedDriver scriptedGraphics scriptedCommands
             afterOneDraw failingDriver false in
  q_commands (fl_queue r) = []
  ∧ q_vertices (fl_queue r) = []
  ∧ q_indices (fl_queue r) = []
  ∧ q_tmpNumVertexFloats (fl_queue r) = 0
  ∧ q_drawTrianglesCommandPool (fl_queue r)
    = q_drawTrianglesCommandPool afterOneDraw ++ drawCommands (q_commands afterOneDraw)
  ∧ fl_ending r ≠ OutOfFuel.
Proof.
  refine (proj1 (@C10_flush_releases_after_Begin target64 milliFloat scriptedDriver
                   scriptedGraphics scriptedCommands afterOneDraw failingDriver false)
            failingDriver _ _).
  - vm_compute. reflexivity.
  - reflexivity.
Defined.

(** C10 without the condition on Begin: when Begin fails, flush returns
    the error and the queue still holds its command, its vertices and its
    indices. *)
Lemma C10_counterexample :
  let r := @flush target64 milliFloat scriptedDriver scriptedGraphics scriptedCommands
             afterOneDraw lostDriver true in
  fl_ending r = Returned (Some "context lost")
  ∧ length (q_commands (fl_queue r)) = 1%nat
  ∧ length (q_vertices (fl_queue r)) = 8%nat
  ∧ q_indices (fl_queue r) = [0]
  ∧ q_tmpNumVertexFloats (fl_queue r) = 8
  ∧ q_drawTrianglesCommandPool (fl_queue r) = [].
Proof. vm_compute. repeat split. Qed.




Section RestorationFacts.
Import restorable.
Context {Pattern : Type} `{!Backend Pattern}.
Variables (w h : Z) (data : list Z) (region : Rectangle) (pattern : Pattern).

Ltac decides := repeat (simpl; case_decide; try lia); simpl; try done.

Lemma filter_all {A : Type} (P : A → Prop) `{∀ x, Decision (P x)} (l : list A) :
  Forall P l → filter P l = l.
Proof.
  induction 1 as [|x l Hx _ IH]; [done|].
  by rewrite filter_cons_True, IH.
Qed.

Lemma filter_none {A : Type} (P : A → Prop) `{∀ x, Decision (P x)} (l : list A) :
  Forall (λ x, ¬ P x) l → filter P l = [].
Proof.
  induction 1 as [|x l Hx _ IH]; [done|].
  by rewrite filter_cons_False.
Qed.

Lemma newImages_S (n : nat) (st : State) :
  newImages (S n) w h st = (NewImage (newImages n w h st) w h ImageTypeRegular).2.
Proof. unfold newImages. by rewrite seq_S, foldl_app. Qed.

Lemma drawsUpTo_S (i : nat) (st : State) :
  drawsUpTo (S i) pattern st = DrawTriangles (drawsUpTo i pattern st) (S i) [i] pattern.
Proof. unfold drawsUpTo. by rewrite seq_S, foldl_app. Qed.

Lemma newImages_holds (n : nat) :
  holds n (λ _, freshImage w h) (λ _, newTexture w h) (newImages n w h initial)
  ∧ clock (newImages n w h initial) = 0%nat
  ∧ contextLost (newImages n w h initial) = false.
Proof.
  induction n as [|n (Hh & Hc & Hl)].
  - repeat split; intros k; simpl; by rewrite lookup_empty.
  - rewrite newImages_S. destruct Hh as (Hid & Himg & Htex).
    unfold NewImage. simpl. rewrite Hid.
    repeat split; try done; intros k; simpl;
      (destruct (decide (k = n)) as [->|Hne];
       [rewrite lookup_insert_eq; by rewrite decide_True by lia
       |rewrite lookup_insert_ne by done; rewrite ?Himg, ?Htex;
        repeat case_decide; try lia; done]).
Qed.

Lemma chainTexture_le (drawn k : nat) :
  (k ≤ drawn)%nat →
  chainTexture w h data region pattern drawn k = chainPixels w h data region pattern k.
Proof. intros Hk. unfold chainTexture. by rewrite decide_True. Qed.

Lemma seeded_holds (n : nat) :
  (0 < n)%nat →
  let st := WritePixels (newImages n w h initial) 0 data region in
  holds n (chainImage w h data region pattern 0) (chainTexture w h data region pattern 0) st
  ∧ clock st = 1%nat ∧ contextLost st = false.
Proof.
  intros Hn st. destruct (newImages_holds n) as ((Hid & Himg & Htex) & Hc & Hl).
  subst st. unfold WritePixels. rewrite Himg, decide_True by lia. simpl.
  rewrite Hc, Hl. repeat split; try done; intros k; simpl.
  - destruct (decide (k = 0%nat)) as [->|Hne].
    + rewrite lookup_insert_eq. by rewrite decide_True by lia.
    + rewrite lookup_insert_ne by done. rewrite Himg.
      case_decide; [|done]. destruct k as [|k]; [done|]. simpl. decides.
  - destruct (decide (k = 0%nat)) as [->|Hne].
    + rewrite lookup_alter_eq, Htex. unfold chainTexture. simpl. decides.
    + rewrite lookup_alter_ne by done. rewrite Htex.
      case_decide; [|done]. unfold chainTexture. decides.
Qed.

Lemma drawn_holds (n i : nat) :
  (i < n)%nat →
  let st := drawsUpTo i pattern (WritePixels (newImages n w h initial) 0 data region) in
  holds n (chainImage w h data region pattern i) (chainTexture w h data region pattern i) st
  ∧ clock st = S i ∧ contextLost st = false.
Proof.
  induction i as [|i IH]; intros Hi.
  - apply seeded_holds. lia.
  - intros st. subst st. rewrite drawsUpTo_S.
    destruct IH as ((Hid & Himg & Htex) & Hc & Hl); [lia|].
    unfold DrawTriangles. rewrite Himg, decide_True by lia.
    assert (chainImage w h data region pattern i (S i) = freshImage w h) as ->
      by (simpl; decides).
    simpl. rewrite Hc, Hl.
    repeat split; try done; intros k; simpl.
    + destruct (decide (k = S i)) as [->|Hne].
      * rewrite lookup_insert_eq. decides.
      * rewrite lookup_insert_ne by done. rewrite Himg.
        case_decide; [|done]. destruct k as [|k]; [done|]. simpl. decides.
    + unfold sourcePixels. simpl. rewrite Htex, decide_True by lia. simpl.
      destruct (decide (k = S i)) as [->|Hne].
      * rewrite lookup_alter_eq, Htex. unfold chainTexture. simpl. decides.
      * rewrite lookup_alter_ne by done. rewrite Htex.
        case_decide; [|done]. unfold chainTexture. decides.
Qed.

Lemma chain_holds (n : nat) :
  let st := chain n w h data region pattern in
  holds n (chainImage w h data region pattern (pred n))
    (chainPixels w h data region pattern) st
  ∧ contextLost st = false.
Proof.
  intros st. subst st. unfold chain, drawChain. fold (drawsUpTo (pred n) pattern).
  destruct n as [|n].
  - simpl. unfold drawsUpTo, WritePixels. simpl. rewrite lookup_empty. simpl.
    repeat split; intros k; simpl; by rewrite lookup_empty.
  - destruct (drawn_holds (S n) n ltac:(lia)) as ((Hid & Himg & Htex) & _ & Hl).
    simpl. repeat split; try done.
    intros k. rewrite Htex. case_decide; [|done].
    by rewrite chainTexture_le by lia.
Qed.

Lemma aliveImages_holds (n : nat) (img : nat → @Image Pattern) (st : State) :
  nextID st = n →
  (∀ k, images st !! k = if decide (k < n)%nat then Some (img k) else None) →
  aliveImages st = seq 0 n.
Proof.
  intros Hid Himg. unfold aliveImages. rewrite Hid.
  apply filter_all, Forall_forall. intros k Hk%elem_of_seq.
  rewrite Himg, decide_True by lia. by eexists.
Qed.

Lemma restoreRounds_nil (fuel : nat) (imgs : gmap nat (@Image Pattern)) (restored : gset nat) :
  restoreRounds fuel imgs [] restored = ([], []).
Proof. by destruct fuel. Qed.

Lemma restoreRounds_all_ready (fuel : nat) (imgs : gmap nat (@Image Pattern)) (pending : list nat)
    (restored : gset nat) :
  (length pending ≤ fuel)%nat →
  Forall (λ id, isReady imgs restored id = true) pending →
  restoreRounds fuel imgs pending restored = (pending, []).
Proof.
  intros Hf Hall. destruct pending as [|x l]; [apply restoreRounds_nil|].
  destruct fuel as [|fuel]; [simpl in Hf; lia|].
  cbn [restoreRounds]. rewrite (filter_all _ _ Hall).
  rewrite (filter_none (λ id, isReady imgs restored id ≠ true)).
  - rewrite restoreRounds_nil. by rewrite app_nil_r.
  - eapply Forall_impl; [exact Hall|]. simpl. intros id E Hn. by apply Hn.
Qed.

Lemma chain_isReady (n : nat) (imgs : gmap nat (@Image Pattern)) (restored : gset nat) (k j : nat) :
  (∀ i, (i < n)%nat → imgs !! i = Some (chainImage w h data region pattern (pred n) i)) →
  (∀ x, x ∈ restored ↔ (x < k)%nat) →
  (j < n)%nat →
  isReady imgs restored j = bool_decide (j ≤ k)%nat.
Proof.
  intros Himg Hr Hj. unfold isReady. rewrite Himg by done.
  destruct j as [|j].
  { symmetry. apply bool_decide_eq_true_2. lia. }
  cbn [chainImage]. rewrite decide_True by lia. unfold dependencies. simpl.
  rewrite Himg by lia. rewrite orb_false_r, andb_true_r.
  apply bool_decide_ext. rewrite Hr. lia.
Qed.

Lemma restoreRounds_chain (n : nat) (imgs : gmap nat (@Image Pattern)) :
  (∀ i, (i < n)%nat → imgs !! i = Some (chainImage w h data region pattern (pred n) i)) →
  ∀ m k fuel (restored : gset nat),
    (k + m = n)%nat → (∀ x, x ∈ restored ↔ (x < k)%nat) → (m ≤ fuel)%nat →
    restoreRounds fuel imgs (seq k m) restored = (seq k m, []).
Proof.
  intros Himg. induction m as [|m IH]; intros k fuel restored Hkm Hr Hf.
  { apply restoreRounds_nil. }
  destruct fuel as [|fuel]; [lia|].
  cbn [restoreRounds seq].
  assert (isReady imgs restored k = true) as Ek.
  { rewrite (chain_isReady n imgs restored k k) by (done || lia).
    by apply bool_decide_eq_true_2. }
  assert (Forall (λ id, isReady imgs restored id ≠ true) (seq (S k) m)) as Hrest.
  { apply Forall_forall. intros j Hj%elem_of_seq.
    rewrite (chain_isReady n imgs restored k j) by (done || lia).
    rewrite bool_decide_eq_false_2 by lia. done. }
  rewrite filter_cons_True by done.
  rewrite (filter_none (λ id, isReady imgs restored id = true)).
  2:{ eapply Forall_impl; [exact Hrest|]. simpl. tauto. }
  rewrite filter_cons_False by (rewrite Ek; tauto).
  rewrite (filter_all _ _ Hrest).
  rewrite (IH (S k) fuel); [done|lia| |lia].
  intros x. rewrite elem_of_union, elem_of_list_to_set, list_elem_of_singleton, Hr. lia.
Qed.

Lemma restore_fold (imgs : gmap nat (@Image Pattern)) (want : nat → Pixels) (n : nat) :
  (∀ k (ts : gmap nat Pixels), (k < n)%nat →
     (∀ j, (j < k)%nat → ts !! j = Some (want j)) →
     restoreImage imgs ts k = <[k := want k]> ts) →
  ∀ m, (m ≤ n)%nat →
    ∀ j, foldl (restoreImage imgs) ∅ (seq 0 m) !! j
         = if decide (j < m)%nat then Some (want j) else None.
Proof.
  intros Hstep. induction m as [|m IH]; intros Hm j.
  - simpl. by rewrite lookup_empty.
  - rewrite seq_S, foldl_app. simpl. rewrite Hstep; [|lia|].
    + destruct (decide (j = m)) as [->|Hne].
      * rewrite lookup_insert_eq. decides.
      * rewrite lookup_insert_ne by done. rewrite IH by lia. decides.
    + intros i Hi. rewrite IH by lia. decides.
Qed.

Lemma restoreImage_resolved (imgs : gmap nat (@Image Pattern)) (ts : gmap nat Pixels) (k : nat)
    (p : Pixels) :
  imgs !! k = Some (resolvedImage w h p) → restoreImage imgs ts k = <[k := p]> ts.
Proof. intros E. unfold restoreImage. by rewrite E. Qed.

Lemma restoreImage_chain (n : nat) (imgs : gmap nat (@Image Pattern)) (ts : gmap nat Pixels)
    (k : nat) :
  (k < n)%nat →
  imgs !! k = Some (chainImage w h data region pattern (pred n) k) →
  (∀ j, (j < k)%nat → ts !! j = Some (chainPixels w h data region pattern j)) →
  restoreImage imgs ts k = <[k := chainPixels w h data region pattern k]> ts.
Proof.
  intros Hk E Hts. unfold restoreImage. rewrite E.
  destruct k as [|k]; [done|]. simpl. rewrite decide_True by lia. simpl.
  unfold sourcePixels. simpl.
  rewrite lookup_insert_eq, lookup_insert_ne by lia. rewrite Hts by lia. simpl.
  by rewrite insert_insert_eq.
Qed.

Lemma resolved_holds (n : nat) (st : State) :
  holds n (chainImage w h data region pattern (pred n))
    (chainPixels w h data region pattern) st →
  holds n (λ k, resolvedImage w h (chainPixels w h data region pattern k))
    (chainPixels w h data region pattern) (ResolveStaleImages st).
Proof.
  intros (Hid & Himg & Htex). repeat split; try done. intros k. simpl.
  rewrite map_lookup_imap, Himg. case_decide; [|done]. simpl.
  unfold resolve. destruct k as [|k]; [done|]. simpl.
  rewrite decide_True by lia. simpl. rewrite Htex, decide_True by lia. done.
Qed.

(** The textures after a restoration that follows a context loss, when
    the images are restored in the order of their identifiers. *)
Lemma restored_textures (n : nat) (img : nat → @Image Pattern) (tex : nat → Pixels)
    (st : State) (want : nat → Pixels) :
  holds n img tex st →
  restoreRounds n (images st) (seq 0 n) ∅ = (seq 0 n, []) →
  (∀ k (ts : gmap nat Pixels), (k < n)%nat →
     (∀ j, (j < k)%nat → ts !! j = Some (want j)) →
     restoreImage (images st) ts k = <[k := want k]> ts) →
  images (RestoreIfNeeded (loseContext st)) = images st
  ∧ ∀ k, (k < n)%nat → textures (RestoreIfNeeded (loseContext st)) !! k = Some (want k).
Proof.
  intros Hh Ho Hstep. unfold RestoreIfNeeded, restoreOrder. simpl.
  assert (aliveImages (loseContext st) = seq 0 n) as ->.
  { destruct Hh as (Hid & Himg & _). by apply (aliveImages_holds n img). }
  rewrite length_seq, Ho. simpl. split; [done|].
  intros k Hk. unfold restoreCycles. simpl.
  rewrite (restore_fold (images st) want n Hstep n (le_n _)). decides.
Qed.

Lemma sameColors_refl (c : RGBA) (delta : Z) : 0 ≤ delta → sameColors c c delta = true.
Proof.
  intros Hd. unfold sameColors. rewrite !Z.sub_diag. unfold abs. simpl.
  rewrite !andb_true_iff. repeat split; by apply Z.leb_le.
Qed.


End RestorationFacts.


(** * Further properties of the command queue *)

(** ** The uniform buffer *)

Section BufferProperties.
Context `{T : Target} {TOk : TargetOk}.

Lemma roundUpPower2_loop_least (fuel : nat) (p2 x : Z) :
  (∃ j, 0 ≤ j ∧ p2 = 2 ^ j) →
  x ≤ p2 * 2 ^ Z.of_nat fuel →
  (p2 = 1 ∨ p2 < 2 * x) →
  ∃ k, 0 ≤ k ∧ roundUpPower2_loop fuel p2 x = 2 ^ k
       ∧ x ≤ 2 ^ k ∧ (2 ^ k = 1 ∨ 2 ^ k < 2 * x).
Proof.
  revert p2. induction fuel as [|fuel IH]; intros p2 (j & Hj & ->) Hx Hp; simpl.
  - change (2 ^ Z.of_nat 0) with 1 in Hx. exists j. repeat split; try done; lia.
  - destruct (Z.ltb_spec (2 ^ j) x) as [Hlt|Hge].
    + apply IH.
      * exists (j + 1). split; [lia|]. rewrite Z.pow_add_r by lia. lia.
      * rewrite Nat2Z.inj_succ, Z.pow_succ_r in Hx by lia. lia.
      * right. lia.
    + exists j. repeat split; try done; lia.
Qed.

(** X1. roundUpPower2(x) is the least power of two that is at least x (1
    when x is at most 1), and for x up to a quarter of the int range the
    doubling never leaves the int type. *)
Theorem X1_roundUpPower2_least_power_of_two (x : Z) :
  x ≤ 2 ^ (uintBits - 2) →
  ∃ k, 0 ≤ k
       ∧ roundUpPower2 x = 2 ^ k
       ∧ x ≤ 2 ^ k
       ∧ (1 < x → 2 ^ (k - 1) < x)
       ∧ (x ≤ 1 → k = 0)
       ∧ 2 ^ k ≤ MaxInt.
Proof.
  intros Hx. unfold roundUpPower2.
  destruct (roundUpPower2_loop_least (Z.to_nat x) 1 x) as (k & Hk & E & Hle & Hmin).
  - exists 0. split; [lia|done].
  - destruct (Z.le_gt_cases x 0) as [H0|H0].
    + assert (0 < 2 ^ Z.of_nat (Z.to_nat x)) by (apply Z.pow_pos_nonneg; lia). lia.
    + rewrite Z2Nat.id by lia.
      pose proof (Z.pow_gt_lin_r 2 x ltac:(lia) ltac:(lia)). lia.
  - by left.
  - exists k. split; [done|]. split; [done|]. split; [done|].
    assert (0 < 2 ^ k) as Hpos by (apply Z.pow_pos_nonneg; lia).
    assert (k = 0 ∨ 0 < k) as [->|Hk'] by lia.
    + split; [intros; simpl in *; lia|]. split; [done|].
      pose proof MaxInt_ge. simpl. lia.
    + assert (2 ^ k = 2 * 2 ^ (k - 1)) as E2.
      { rewrite <-Z.pow_succ_r by lia. f_equal. lia. }
      assert (0 < 2 ^ (k - 1)) by (apply Z.pow_pos_nonneg; lia).
      assert (2 ^ k < 2 * x) as Hlt by lia.
      split; [lia|]. split; [lia|].
      unfold MaxInt.
      assert (2 ^ (uintBits - 1) = 2 * 2 ^ (uintBits - 2)) as E3.
      { destruct uintBits_ok as [Eb|Eb]; rewrite Eb; reflexivity. }
      lia.
Qed.

End BufferProperties.

Lemma X1_witness :
  ∃ k, 0 ≤ k ∧ roundUpPower2 46 = 2 ^ k ∧ 46 ≤ 2 ^ k ∧ (1 < 46 → 2 ^ (k - 1) < 46)
       ∧ (46 ≤ 1 → k = 0) ∧ 2 ^ k ≤ @MaxInt target64.
Proof.
  apply (@X1_roundUpPower2_least_power_of_two target64 target64_ok 46).
  vm_compute. discriminate.
Defined.

Lemma alloc_keep (b : uint32sBuffer) (n : nat) :
  (buf_len b + n ≤ length (buf_array b))%nat →
  alloc b n = (buf_len b, take n (drop (buf_len b) (buf_array b)),
               {| buf_array := buf_array b; buf_len := (buf_len b + n)%nat |}).
Proof.
  intros Hcap. unfold alloc. rewrite bool_decide_eq_false_2; [done|]. unfold len. lia.
Qed.

Lemma alloc_grow (b : uint32sBuffer) (n : nat) :
  (length (buf_array b) < buf_len b + n)%nat →
  let cap := Z.to_nat (Z.max (roundUpPower2 (Z.of_nat (buf_len b + n))) 16) in
  alloc b n = (0%nat, replicate n 0, {| buf_array := replicate cap 0; buf_len := n |})
  ∧ (16 ≤ cap)%nat ∧ (buf_len b + n ≤ cap)%nat.
Proof.
  intros Hcap cap.
  pose proof (roundUpPower2_ge (Z.of_nat (buf_len b + n))) as Hr.
  assert (16 ≤ cap ∧ buf_len b + n ≤ cap)%nat as [H16 Hn] by (subst cap; lia).
  split; [|done]. unfold alloc. rewrite bool_decide_eq_true_2 by (unfold len; lia).
  fold cap. simpl. rewrite drop_0, take_replicate. do 3 f_equal. lia.
Qed.

(** X2. alloc(n) returns a slice of exactly n elements that lies in the
    buffer after the call. When the capacity suffices the backing array
    is kept and the slice starts where the buffer ended; otherwise a new
    zeroed array of capacity max(roundUpPower2(len+n), 16) is made and the
    buffer restarts in it: the slice is at offset 0 and the buffer's
    length is n, not len+n. *)
Theorem X2_alloc_slice_and_growth (b : uint32sBuffer) (n : nat) :
  let off := (alloc b n).1.1 in
  let s := (alloc b n).1.2 in
  let b' := (alloc b n).2 in
  length s = n
  ∧ buf_len b' = (off + n)%nat
  ∧ (buf_len b' ≤ length (buf_array b'))%nat
  ∧ s = take n (drop off (buf_array b'))
  ∧ ((buf_len b + n ≤ length (buf_array b))%nat →
     off = buf_len b ∧ buf_array b' = buf_array b)
  ∧ ((length (buf_array b) < buf_len b + n)%nat →
     off = 0%nat
     ∧ buf_len b' = n
     ∧ s = replicate n 0
     ∧ buf_array b' = replicate (length (buf_array b')) 0
     ∧ len (buf_array b') = Z.max (roundUpPower2 (Z.of_nat (buf_len b + n))) 16).
Proof.
  intros off s b'. subst off s b'.
  destruct (decide (buf_len b + n ≤ length (buf_array b))%nat) as [Hcap|Hcap].
  - rewrite (alloc_keep b n Hcap). simpl.
    repeat split; try done; try lia.
    rewrite length_take, length_drop. lia.
  - destruct (alloc_grow b n ltac:(lia)) as (E & H16 & Hn). rewrite E. simpl.
    pose proof (roundUpPower2_ge (Z.of_nat (buf_len b + n))) as Hr.
    repeat split; try done; try lia; unfold len;
      rewrite ?length_replicate, ?drop_0, ?take_replicate; try done; try lia.
    f_equal. lia.
Qed.

(** X3. Two allocations that follow each other without a reallocation are
    adjacent and disjoint: whatever is written through the second slice
    leaves the contents of the first one untouched. *)
Theorem X3_alloc_slices_do_not_overlap (b : uint32sBuffer) (n1 n2 : nat)
    (s2 : list Z) :
  let off1 := (alloc b n1).1.1 in
  let b1 := (alloc b n1).2 in
  let off2 := (alloc b1 n2).1.1 in
  let b2 := (alloc b1 n2).2 in
  (buf_len b1 + n2 ≤ length (buf_array b1))%nat →
  length s2 = n2 →
  off2 = (off1 + n1)%nat
  ∧ take n1 (drop off1 (buf_array (store off2 s2 b2)))
    = take n1 (drop off1 (buf_array b1))
  ∧ take n2 (drop off2 (buf_array (store off2 s2 b2))) = s2.
Proof.
  intros off1 b1 off2 b2 Hcap Hs2.
  assert (buf_len b1 = (off1 + n1)%nat) as Hlen1.
  { subst off1 b1.
    destruct (decide (buf_len b + n1 ≤ length (buf_array b))%nat) as [Hk|Hk].
    - by rewrite (alloc_keep b n1 Hk).
    - destruct (alloc_grow b n1 ltac:(lia)) as (E & _). by rewrite E. }
  subst off2 b2. rewrite (alloc_keep b1 n2 Hcap). simpl.
  split; [done|]. rewrite Hlen1 in *. subst n2.
  split.
  - rewrite drop_app_le by (rewrite length_take; lia).
    rewrite take_app_le by (rewrite length_drop, length_take; lia).
    rewrite !take_drop_commute, take_take. do 2 f_equal. lia.
  - rewrite drop_app_length' by (rewrite length_take; lia).
    by rewrite take_app_length.
Qed.

Lemma X3_witness :
  let b1 := (alloc uint32sBuffer_zero 46).2 in
  let b2 := (alloc b1 10).2 in
  take 46 (drop 0 (buf_array (store 46 (replicate 10 7) b2)))
  = take 46 (drop 0 (buf_array b1)).
Proof.
  refine (proj1 (proj2 (X3_alloc_slices_do_not_overlap uint32sBuffer_zero 46 10
                          (replicate 10 7) _ _))).
  - vm_compute. lia.
  - reflexivity.
Defined.

(** X4. reset keeps the backing array; the first allocation after it that
    fits the capacity starts again at offset 0, in the same array. *)
Theorem X4_reset_reuses_storage (b : uint32sBuffer) (n : nat) :
  (n ≤ length (buf_array b))%nat →
  buf_len (reset b) = 0%nat
  ∧ buf_array (reset b) = buf_array b
  ∧ alloc (reset b) n
    = (0%nat, take n (buf_array b), {| buf_array := buf_array b; buf_len := n |}).
Proof.
  intros Hn. split; [done|]. split; [done|].
  rewrite alloc_keep by (simpl; lia). simpl. by rewrite drop_0.
Qed.

Lemma X4_witness :
  let b := (alloc uint32sBuffer_zero 46).2 in
  alloc (reset b) 50
  = (0%nat, take 50 (buf_array b), {| buf_array := buf_array b; buf_len := 50 |}).
Proof.
  refine (proj2 (proj2 (X4_reset_reuses_storage (alloc uint32sBuffer_zero 46).2 50 _))).
  vm_compute. lia.
Defined.

(** ** What flush executes and uploads *)

Section TraceProperties.
Context `{T : Target} `{F : Float32} {D : Type} `{G : !Graphics D} `{C : !CommandMethods D}.

Lemma execRun_views (cs : list command) (indexOffset : Z) (d : D) :
  executed (execRun cs indexOffset d).2 `prefix_of` cs
  ∧ ((execRun cs indexOffset d).1.1 = None → executed (execRun cs indexOffset d).2 = cs)
  ∧ uploadedVertices (execRun cs indexOffset d).2 = []
  ∧ uploadedIndices (execRun cs indexOffset d).2 = []
  ∧ finalized (execRun cs indexOffset d).2 = [].
Proof.
  revert indexOffset d. induction cs as [|c cs IH]; intros indexOffset d; simpl.
  - repeat split; try done.
  - destruct (Exec c indexOffset d) as [[e|] d1]; simpl.
    + repeat split; try done. apply prefix_cons, prefix_nil.
    + match goal with
      | |- context [execRun cs ?o d1] =>
        specialize (IH o d1); destruct (execRun cs o d1) as [[r d2] tr]
      end.
      simpl in *. destruct IH as (Hp & Hall & Hv & Hi & Hf).
      repeat split; try done.
      * by apply prefix_cons.
      * intros Hr. by rewrite Hall.
Qed.

Lemma flushLoop_views (fuel : nat) (cs : list command) (vs : list float32) (es : list Z)
    (d : D) :
  (length cs ≤ fuel)%nat →
  executed (flushLoop fuel cs vs es d).2 `prefix_of` cs
  ∧ ((flushLoop fuel cs vs es d).1.1 = Returned None →
     executed (flushLoop fuel cs vs es d).2 = cs)
  ∧ concat (uploadedVertices (flushLoop fuel cs vs es d).2) `prefix_of` vs
  ∧ concat (uploadedIndices (flushLoop fuel cs vs es d).2) `prefix_of` es
  ∧ finalized (flushLoop fuel cs vs es d).2 = [].
Proof.
  revert cs vs es d. induction fuel as [|fuel IH]; intros cs vs es d Hf;
    destruct cs as [|c cs]; try (simpl in Hf; lia);
    try (simpl; repeat split; try done; apply prefix_nil).
  rewrite flushLoop_step.
  pose proof (runLength_progress c cs) as Hp.
  destruct (runLength (c :: cs) 0 0 0) as [[nv ne] nc]. simpl in Hp, Hf.
  assert (∀ vs1 es1 d1 tr1,
    executed tr1 = [] → finalized tr1 = [] →
    let r := afterUpload fuel nc (c :: cs) vs1 es1 d1 tr1 in
    executed r.2 `prefix_of` c :: cs
    ∧ (r.1.1 = Returned None → executed r.2 = c :: cs)
    ∧ concat (uploadedVertices r.2) `prefix_of` concat (uploadedVertices tr1) ++ vs1
    ∧ concat (uploadedIndices r.2) `prefix_of` concat (uploadedIndices tr1) ++ es1
    ∧ finalized r.2 = []) as Hrest.
  { intros vs1 es1 d1 tr1 He1 Hf1 r. subst r. unfold afterUpload.
    destruct (execRun_views (take nc (c :: cs)) 0 d1) as (Hp2 & Hall2 & Hv2 & Hi2 & Hf2).
    destruct (execRun (take nc (c :: cs)) 0 d1) as [[[e|] d2] tr2]; simpl in *.
    - unfold executed, uploadedVertices, uploadedIndices, finalized in *.
      rewrite !omap_app, ?He1, ?Hv2, ?Hi2, ?Hf1, ?Hf2, ?app_nil_r. simpl.
      repeat split; try done.
      + etrans; [exact Hp2|]. apply (prefix_take (c :: cs) nc).
      + apply prefix_app_r. done.
      + apply prefix_app_r. done.
    - destruct (IH (drop nc (c :: cs)) vs1 es1 d2) as (Hp3 & Hall3 & Hv3 & Hi3 & Hf3).
      { rewrite length_drop. simpl. lia. }
      destruct (flushLoop fuel (drop nc (c :: cs)) vs1 es1 d2) as [[r3 d3] tr3].
      simpl in *.
      unfold executed, uploadedVertices, uploadedIndices, finalized in *.
      rewrite !omap_app, ?He1, ?Hv2, ?Hi2, ?Hf1, ?Hf2, ?Hf3, (Hall2 eq_refl). simpl.
      rewrite !concat_app. simpl.
      repeat split; try done.
      + etrans; [apply prefix_app, Hp3|]. by rewrite take_drop.
      + intros Hr. rewrite (Hall3 Hr). apply (take_drop nc (c :: cs)).
      + by apply prefix_app.
      + by apply prefix_app. }
  case_bool_decide.
  2:{ destruct (Hrest vs es d [] eq_refl eq_refl) as (H1 & H2 & H3 & H4 & H5).
      simpl in *. done. }
  case_bool_decide.
  2:{ simpl. repeat split; try done; apply prefix_nil. }
  destruct (graphicsDriver_SetVertices _ _ _) as [[e|] d1].
  { simpl. repeat split; try done.
    - apply prefix_nil.
    - rewrite app_nil_r. apply prefix_take.
    - rewrite app_nil_r. apply prefix_take. }
  destruct (Hrest (drop (Z.to_nat nv) vs) (drop (Z.to_nat ne) es) d1
              [EvSetVertices (take (Z.to_nat nv) vs) (take (Z.to_nat ne) es)]
              eq_refl eq_refl) as (H1 & H2 & H3 & H4 & H5).
  simpl in H3, H4. rewrite app_nil_r, take_drop in H3. rewrite app_nil_r, take_drop in H4.
  done.
Qed.

(** X5. flush executes the queued commands in queue order, each at most
    once: the commands executed are a prefix of the queue, and all of it
    when flush returns nil. The loop over the runs always ends. *)
Theorem X5_flush_executes_commands_in_order (q : commandQueue) (d : D) (endFrame : bool) :
  let r := flush q d endFrame in
  executed (fl_trace r) `prefix_of` q_commands q
  ∧ (fl_ending r = Returned None → executed (fl_trace r) = q_commands q)
  ∧ fl_ending r ≠ OutOfFuel.
Proof.
  intros r. subst r. unfold flush.
  destruct (bool_decide (len (q_commands q) = 0) && negb endFrame) eqn:Hnoop.
  { simpl. apply andb_true_iff in Hnoop as [Hz _]. apply bool_decide_eq_true in Hz.
    unfold len in Hz. destruct (q_commands q); [done|simpl in Hz; lia]. }
  destruct (graphicsDriver_Begin d) as [[e|] d1].
  { simpl. repeat split; try done. apply prefix_nil. }
  destruct (flushLoop_views (length (q_commands q)) (q_commands q) (q_vertices q)
              (q_indices q) d1 (le_n _)) as (Hp & Hall & _).
  pose proof (flushLoop_total (length (q_commands q)) (q_commands q) (q_vertices q)
                (q_indices q) d1 (le_n _)) as Htot.
  destruct (flushLoop _ _ _ _ _) as [[body d2] tr].
  destruct (graphicsDriver_End endFrame d2) as [err1 d3]. simpl in *.
  assert (executed (tr ++ EvEnd endFrame
                    :: (if endFrame then map EvFinalizer (q_finalizers q) else []))
          = executed tr) as ->.
  { unfold executed. rewrite omap_app. simpl.
    assert (∀ fs, omap (λ e, match e with EvExec c _ => Some c | _ => None end)
                    (map EvFinalizer fs) = []) as Hfin
      by (intros fs; induction fs; [done|simpl; done]).
    destruct endFrame; [rewrite Hfin|]; by rewrite app_nil_r. }
  repeat split; try done.
  - intros Hr. apply Hall. destruct body as [[e|]| |]; destruct err1; simpl in *; congruence.
  - destruct body as [[e|]| |]; destruct err1; simpl in *; congruence.
Qed.

(** X6. The vertex slices handed to SetVertices by one flush are
    consecutive windows of the queue's vertex buffer, from its start and
    in order (so no two uploads overlap), and so are the index slices. *)
Theorem X6_uploads_are_consecutive_windows (q : commandQueue) (d : D) (endFrame : bool) :
  let r := flush q d endFrame in
  concat (uploadedVertices (fl_trace r)) `prefix_of` q_vertices q
  ∧ concat (uploadedIndices (fl_trace r)) `prefix_of` q_indices q.
Proof.
  intros r. subst r. unfold flush.
  destruct (bool_decide (len (q_commands q) = 0) && negb endFrame).
  { simpl. split; apply prefix_nil. }
  destruct (graphicsDriver_Begin d) as [[e|] d1].
  { simpl. split; apply prefix_nil. }
  destruct (flushLoop_views (length (q_commands q)) (q_commands q) (q_vertices q)
              (q_indices q) d1 (le_n _)) as (_ & _ & Hv & Hi & _).
  destruct (flushLoop _ _ _ _ _) as [[body d2] tr].
  destruct (graphicsDriver_End endFrame d2) as [err1 d3]. simpl in *.
  assert (∀ fs, uploadedVertices (map EvFinalizer fs) = []) as Hfv
    by (intros fs; induction fs; [done|simpl; done]).
  assert (∀ fs, uploadedIndices (map EvFinalizer fs) = []) as Hfi
    by (intros fs; induction fs; [done|simpl; done]).
  unfold uploadedVertices, uploadedIndices in *. rewrite !omap_app. simpl.
  destruct endFrame; rewrite ?Hfv, ?Hfi, !app_nil_r; done.
Qed.

End TraceProperties.

(** ** Accounting for the buffers *)

Section AccountingFacts.
Context `{T : Target} {TOk : TargetOk} `{F : Float32} `{Dbg : Debug}.

Lemma MaxInt_pos : 0 < MaxInt.
Proof. unfold MaxInt. destruct uintBits_ok as [E|E]; rewrite E; simpl; lia. Qed.

Lemma regionIndices_app (rs1 rs2 : list DstRegion) :
  regionIndices (rs1 ++ rs2) = regionIndices rs1 + regionIndices rs2.
Proof. induction rs1 as [|r rs1 IH]; simpl; [done|]. rewrite IH. lia. Qed.

Lemma regionIndices_nonneg (rs : list DstRegion) :
  Forall (λ r, 0 ≤ IndexCount r) rs → 0 ≤ regionIndices rs.
Proof. induction 1 as [|r rs Hr _ IH]; simpl; lia. Qed.

Lemma totalVertices_app (cs1 cs2 : list command) :
  totalVertices (cs1 ++ cs2) = totalVertices cs1 + totalVertices cs2.
Proof. induction cs1 as [|c cs1 IH]; simpl; [done|]. rewrite IH. lia. Qed.

Lemma totalIndices_app (cs1 cs2 : list command) :
  totalIndices (cs1 ++ cs2) = totalIndices cs1 + totalIndices cs2.
Proof. induction cs1 as [|c cs1 IH]; simpl; [done|]. rewrite IH. lia. Qed.

Lemma commandVertices_nonneg (c : command) : 0 ≤ commandVertices c.
Proof. destruct c; simpl; [apply len_nonneg|done]. Qed.

Lemma totalVertices_nonneg (cs : list command) : 0 ≤ totalVertices cs.
Proof.
  induction cs as [|c cs IH]; simpl; [done|].
  pose proof (commandVertices_nonneg c). lia.
Qed.

Lemma commandIndices_nonneg (c : command) : nonnegRegions c → 0 ≤ commandIndices c.
Proof. destruct c; simpl; [apply regionIndices_nonneg|done]. Qed.

Lemma totalIndices_nonneg (cs : list command) :
  Forall nonnegRegions cs → 0 ≤ totalIndices cs.
Proof.
  induction 1 as [|c cs Hc _ IH]; simpl; [done|].
  pose proof (commandIndices_nonneg c Hc). lia.
Qed.

(** The queue's way of counting a command's indices, in [int] arithmetic,
    is the exact count as long as it fits an [int]. *)
Lemma foldl_int_add_exact (rs : list DstRegion) (n : Z) :
  0 ≤ n → Forall (λ r, 0 ≤ IndexCount r) rs → n + regionIndices rs ≤ MaxInt →
  foldl (λ n r, int_add n (IndexCount r)) n rs = n + regionIndices rs.
Proof.
  intros Hn Hall. revert n Hn. induction Hall as [|r rs Hr Hall IH]; intros n Hn Hfit; simpl.
  - lia.
  - simpl in Hfit. pose proof (regionIndices_nonneg rs Hall).
    rewrite int_add_id by lia. rewrite IH by lia. lia.
Qed.

Lemma numIndices_exact (dtc : drawTrianglesCommand) :
  Forall (λ r, 0 ≤ IndexCount r) (c_dstRegions dtc) →
  regionIndices (c_dstRegions dtc) ≤ MaxInt →
  numIndices dtc = regionIndices (c_dstRegions dtc).
Proof.
  intros Hall Hfit. unfold numIndices. by rewrite foldl_int_add_exact by (done || lia).
Qed.

Lemma mergedRegions_indices (rs : list DstRegion) dstRegion (indices : list Z) :
  rs ≠ [] → Forall (λ r, 0 ≤ IndexCount r) rs →
  regionIndices rs + len indices ≤ MaxInt →
  regionIndices (mergedRegions rs dstRegion indices) = regionIndices rs + len indices
  ∧ Forall (λ r, 0 ≤ IndexCount r) (mergedRegions rs dstRegion indices).
Proof.
  intros Hne Hall Hfit. unfold mergedRegions.
  destruct (last rs) as [r|] eqn:Er; [|by apply last_None in Er].
  destruct (last_Some_snoc _ _ Er) as [rs0 ->].
  apply Forall_app in Hall as [Hall0 Hr]. rewrite Forall_singleton in Hr.
  pose proof (regionIndices_nonneg rs0 Hall0). pose proof (len_nonneg indices).
  rewrite regionIndices_app in Hfit. simpl in Hfit.
  destruct (Rectangle_eqb (Region r) dstRegion).
  - rewrite set_last_snoc, regionIndices_app. simpl.
    rewrite int_add_id by lia. rewrite regionIndices_app. simpl.
    split; [lia|]. apply Forall_app. split; [done|]. apply Forall_singleton. simpl. lia.
  - rewrite regionIndices_app. simpl. split; [lia|].
    apply Forall_app. split; [|by apply Forall_singleton].
    apply Forall_app. split; [done|by apply Forall_singleton].
Qed.

Lemma commandQueue_zero_accounted : accounted commandQueue_zero.
Proof.
  pose proof MaxInt_pos.
  split; simpl; try done; try (unfold len; simpl; lia).
  apply commandQueue_zero_wf.
Qed.

Lemma Enqueue_accounted (q : commandQueue) (tag : Z) :
  accounted q → accounted (Enqueue q (OtherCmd tag)).
Proof.
  intros [Hwf Hr Hg Hv Hi Hvi Hii Hl]. split; simpl; try done.
  - by apply Enqueue_wf.
  - apply Forall_app. split; [done|by apply Forall_singleton].
  - apply Forall_app. split; [done|by apply Forall_singleton].
  - rewrite totalVertices_app. simpl. lia.
  - rewrite totalIndices_app. simpl. lia.
  - intros dtc. by rewrite last_snoc.
Qed.

Lemma mergeTarget_Some (q : commandQueue) dst srcs vertices blend shader uniforms fillRule
    last_ :
  mergeTarget q dst srcs vertices blend shader uniforms fillRule = Some last_ →
  splits q vertices = false ∧ last (q_commands q) = Some (DrawTrianglesCmd last_).
Proof.
  unfold mergeTarget. destruct (splits q vertices); [done|].
  destruct (last (q_commands q)) as [[l|tag]|]; try done.
  destruct (CanMergeWithDrawTrianglesCommand _ _ _ _ _ _ _ _); [|done].
  by intros [= ->].
Qed.

Lemma enqueued_accounted (q : commandQueue) dst srcs vertices indices blend dstRegion
    srcRegions shader uniforms fillRule b :
  accounted q → fitsInts q vertices indices → len vertices ≤ maxVertexFloatCount →
  accounted (enqueued q dst srcs vertices indices blend dstRegion srcRegions shader
               uniforms fillRule b).
Proof.
  intros [Hwf Hr Hg Hv Hi Hvi Hii Hl] [Hfv Hfi] Hlen.
  pose proof (enqueued_wf q dst srcs vertices indices blend dstRegion srcRegions shader
                uniforms fillRule b Hwf Hfv Hlen) as Hwf'.
  destruct (staged_counter q vertices Hwf Hfv Hlen) as [Ec Hc].
  pose proof (len_nonneg vertices) as Hv0. pose proof (len_nonneg indices) as Hi0.
  assert (0 ≤ counterAfterSplit q vertices) as Hc0.
  { unfold counterAfterSplit. destruct (splits q vertices); [lia|apply Hwf]. }
  assert (len (q_indices q ++ map (λ i, uint32_add i (indexOffsetOf q vertices)) indices)
          = len (q_indices q) + len indices) as Eli.
  { rewrite len_app. unfold len. by rewrite length_map. }
  revert Hwf'. unfold enqueued.
  destruct (mergeTarget q dst srcs vertices blend shader _ fillRule) as [last_|] eqn:Em;
    intros Hwf'.
  - destruct (mergeTarget_Some _ _ _ _ _ _ _ _ _ Em) as [Es El].
    destruct (last_Some_snoc _ _ El) as [cs Ecs]. rewrite Ecs in *.
    rewrite set_last_snoc in *.
    apply Forall_app in Hr as [Hr0 Hrl]. rewrite Forall_singleton in Hrl. simpl in Hrl.
    apply Forall_app in Hg as [Hg0 Hgl].
    rewrite totalVertices_app in Hv. rewrite totalIndices_app in Hi. simpl in Hv, Hi.
    pose proof (totalIndices_nonneg cs Hr0) as Hcs0.
    pose proof (totalVertices_nonneg cs) as Hcv0.
    pose proof (Hl last_ (last_snoc _ _)) as Hlast. unfold numVertices in Hlast.
    assert (counterAfterSplit q vertices = q_tmpNumVertexFloats q) as Ecas
      by (unfold counterAfterSplit; by rewrite Es).
    destruct (mergedRegions_indices (c_dstRegions last_) dstRegion indices)
      as [Emr Hmr]; [|done|lia|].
    { apply (wf_last_regions q Hwf). by rewrite Ecs, last_snoc. }
    split; simpl; try done.
    + apply Forall_app. split; [done|]. by apply Forall_singleton.
    + apply Forall_app. split; [done|]. apply Forall_singleton. simpl.
      unfold numVertices. simpl. rewrite len_app. lia.
    + rewrite totalVertices_app. simpl. rewrite !len_app. lia.
    + rewrite totalIndices_app. simpl. rewrite Emr, Eli. lia.
    + rewrite len_app. lia.
    + rewrite Eli. lia.
    + intros dtc. rewrite last_snoc. intros [= <-]. unfold numVertices. simpl.
      rewrite len_app, Ec. lia.
  - split; simpl; try done.
    + apply Forall_app. split; [done|]. apply Forall_singleton. simpl.
      apply Forall_singleton. simpl. lia.
    + apply Forall_app. split; [done|]. apply Forall_singleton. simpl.
      unfold numVertices. simpl. lia.
    + rewrite totalVertices_app. simpl. rewrite len_app. lia.
    + rewrite totalIndices_app. simpl. rewrite Eli. lia.
    + rewrite len_app. lia.
    + rewrite Eli. lia.
    + intros dtc. rewrite last_snoc. intros [= <-]. unfold numVertices. simpl.
      rewrite Ec. lia.
Qed.

End AccountingFacts.

(** X7. On a queue whose buffers are accounted for, a draw that fits is
    enqueued without a panic and the buffers stay accounted for: the
    windows of the draw commands add up to the vertex buffer, their index
    counts add up to the index buffer, and no command exceeds one
    vertex-buffer generation. The empty queue is accounted for, and
    enqueueing another kind of command keeps it so. *)
Theorem X7_enqueue_keeps_buffers_accounted `{T : Target} {TOk : TargetOk} `{F : Float32}
    `{Dbg : Debug} (q : commandQueue) (dst : Image) (srcs : array4 (option Image))
    (vertices : list float32) (indices : list Z) (blend : Blend) (dstRegion : Rectangle)
    (srcRegions : array4 Rectangle) (shader : Shader) (uniforms : list Z)
    (fillRule : FillRule) (tag : Z) :
  accounted q → fitsInts q vertices indices → len vertices ≤ maxVertexFloatCount →
  accounted commandQueue_zero
  ∧ accounted (Enqueue q (OtherCmd tag))
  ∧ ∃ q',
      EnqueueDrawTrianglesCommand q dst srcs vertices indices blend dstRegion srcRegions
        shader uniforms fillRule = Done q'
      ∧ accounted q'
      ∧ totalVertices (q_commands q') = len (q_vertices q) + len vertices
      ∧ totalIndices (q_commands q') = len (q_indices q) + len indices.
Proof.
  intros Hacc Hfit Hlen.
  split; [apply commandQueue_zero_accounted|]. split; [by apply Enqueue_accounted|].
  destruct (Enqueue_done q dst srcs vertices indices blend dstRegion srcRegions shader
              uniforms fillRule (acc_wf q Hacc) (proj1 Hfit) Hlen) as [b E].
  pose proof (enqueued_accounted q dst srcs vertices indices blend dstRegion srcRegions
                shader uniforms fillRule b Hacc Hfit Hlen) as Hacc'.
  eexists. split; [exact E|]. split; [exact Hacc'|].
  rewrite (acc_vertices _ Hacc'), (acc_indices _ Hacc').
  unfold enqueued. destruct (mergeTarget _ _ _ _ _ _ _ _); simpl;
    rewrite !len_app; unfold len; rewrite length_map; done.
Qed.

Section FlushAccounting.
Context `{T : Target} {TOk : TargetOk} `{F : Float32} {D : Type} `{G : !Graphics D}
  `{C : !CommandMethods D}.

Lemma totalVertices_take (cs : list command) (k : nat) :
  0 ≤ totalVertices (take k cs) ≤ totalVertices cs
  ∧ totalVertices (drop k cs) = totalVertices cs - totalVertices (take k cs).
Proof.
  pose proof (totalVertices_nonneg (take k cs)).
  pose proof (totalVertices_nonneg (drop k cs)).
  assert (totalVertices cs = totalVertices (take k cs) + totalVertices (drop k cs))
    by (by rewrite <-totalVertices_app, take_drop).
  lia.
Qed.

Lemma totalIndices_take (cs : list command) (k : nat) :
  Forall nonnegRegions cs →
  0 ≤ totalIndices (take k cs) ≤ totalIndices cs
  ∧ totalIndices (drop k cs) = totalIndices cs - totalIndices (take k cs).
Proof.
  intros Hall.
  pose proof (totalIndices_nonneg (take k cs) (Forall_take _ _ _ Hall)).
  pose proof (totalIndices_nonneg (drop k cs) (Forall_drop _ _ _ Hall)).
  assert (totalIndices cs = totalIndices (take k cs) + totalIndices (drop k cs))
    by (by rewrite <-totalIndices_app, take_drop).
  lia.
Qed.

(** The counts of a run are exact: no addition wraps around. *)
Lemma runLength_exact (cs : list command) (nv ne : Z) (nc : nat) :
  Forall nonnegRegions cs →
  0 ≤ nv → 0 ≤ ne →
  nv + totalVertices cs ≤ MaxInt → ne + totalIndices cs ≤ MaxInt →
  ∃ k, (runLength cs nv ne nc).2 = (nc + k)%nat
       ∧ (k ≤ length cs)%nat
       ∧ (runLength cs nv ne nc).1.1 = nv + totalVertices (take k cs)
       ∧ (runLength cs nv ne nc).1.2 = ne + totalIndices (take k cs).
Proof.
  intros Hall. revert nv ne nc.
  induction Hall as [|c cs Hc Hall IH]; intros nv ne nc Hnv Hne Hfv Hfi.
  { exists 0%nat. simpl. repeat split; try lia. }
  pose proof (totalVertices_nonneg cs). pose proof (totalIndices_nonneg cs Hall).
  destruct c as [dtc|tag].
  - cbn [runLength]. simpl in Hfv, Hfi, Hc.
    pose proof (len_nonneg (c_vertices dtc)).
    pose proof (regionIndices_nonneg _ Hc).
    destruct (_ && _).
    + exists 0%nat. simpl. repeat split; try lia.
    + unfold numVertices. rewrite numIndices_exact by (done || lia).
      rewrite !int_add_id by lia.
      destruct (IH (nv + len (c_vertices dtc)) (ne + regionIndices (c_dstRegions dtc))
                  (S nc)) as (k & Ek & Hk & Ev & Ei); try lia.
      exists (S k). rewrite Ek, Ev, Ei. simpl. repeat split; lia.
  - cbn [runLength]. simpl in Hfv, Hfi.
    destruct (IH nv ne (S nc)) as (k & Ek & Hk & Ev & Ei); try lia.
    exists (S k). rewrite Ek, Ev, Ei. simpl. repeat split; lia.
Qed.

Lemma flushLoop_no_panic (fuel : nat) (cs : list command) (vs : list float32)
    (es : list Z) (d : D) :
  Forall nonnegRegions cs →
  totalVertices cs ≤ len vs → totalIndices cs ≤ len es →
  len vs ≤ MaxInt → len es ≤ MaxInt →
  ∀ msg, (flushLoop fuel cs vs es d).1.1 ≠ Panicked msg.
Proof.
  revert cs vs es d. induction fuel as [|fuel IH]; intros cs vs es d Hall Hv Hi Hvi Hii msg;
    destruct cs as [|c cs]; try done.
  rewrite flushLoop_step.
  destruct (runLength_exact (c :: cs) 0 0 0 Hall) as (k & Ek & Hk & Ev & Ei); try lia.
  destruct (runLength (c :: cs) 0 0 0) as [[nv ne] nc]. simpl in Ek, Ev, Ei. subst nc.
  destruct (totalVertices_take (c :: cs) k) as [Htv Edv].
  destruct (totalIndices_take (c :: cs) k Hall) as [Hti Edi].
  assert (∀ vs1 es1 d1 tr1,
            totalVertices (drop k (c :: cs)) ≤ len vs1 →
            totalIndices (drop k (c :: cs)) ≤ len es1 →
            len vs1 ≤ MaxInt → len es1 ≤ MaxInt →
            (afterUpload fuel k (c :: cs) vs1 es1 d1 tr1).1.1 ≠ Panicked msg) as Hrest.
  { intros vs1 es1 d1 tr1 Hv1 Hi1 Hvi1 Hii1. unfold afterUpload.
    destruct (execRun _ _ _) as [[[e|] d2] tr2]; simpl; [done|].
    specialize (IH (drop k (c :: cs)) vs1 es1 d2 (Forall_drop _ _ _ Hall)
                  Hv1 Hi1 Hvi1 Hii1 msg).
    by destruct (flushLoop _ _ _ _ _) as [[r d3] tr3]. }
  case_bool_decide as Hne.
  2:{ apply Hrest; lia. }
  rewrite bool_decide_eq_true_2 by lia.
  destruct (graphicsDriver_SetVertices _ _ _) as [[e|] d1]; [done|].
  apply Hrest; unfold len in *; rewrite length_drop; lia.
Qed.

Lemma released_accounted (q : commandQueue) (endFrame : bool) :
  accounted (released q endFrame).
Proof.
  pose proof MaxInt_pos.
  split; simpl; try done; try (unfold len; simpl; lia).
  apply released_wf.
Qed.

Lemma flush_returns (q : commandQueue) (d : D) (endFrame : bool) :
  accounted q → ∃ e, fl_ending (flush q d endFrame) = Returned e.
Proof.
  intros Hacc. unfold flush.
  destruct (bool_decide (len (q_commands q) = 0) && negb endFrame).
  { simpl. by eexists. }
  destruct (graphicsDriver_Begin d) as [[e|] d1].
  { simpl. by eexists. }
  pose proof (flushLoop_no_panic (length (q_commands q)) (q_commands q) (q_vertices q)
                (q_indices q) d1 (acc_regions q Hacc)) as Hnp.
  pose proof (flushLoop_total (length (q_commands q)) (q_commands q) (q_vertices q)
                (q_indices q) d1 (le_n _)) as Htot.
  destruct (flushLoop _ _ _ _ _) as [[body d2] tr].
  destruct (graphicsDriver_End endFrame d2) as [err1 d3]. simpl in *.
  destruct body as [e| msg |]; [..|done].
  - destruct e, err1; by eexists.
  - exfalso. apply (Hnp ltac:(rewrite (acc_vertices q Hacc); lia)
                        ltac:(rewrite (acc_indices q Hacc); lia)
                        (acc_vertices_int q Hacc) (acc_indices_int q Hacc) msg).
    done.
Qed.

(** The queue flush leaves: the queue as it was (nothing to do, or Begin
    failed), or the released queue. It is left as it was with a nil
    result only when it holds no command. *)
Lemma flush_queue_cases (q : commandQueue) (d : D) (endFrame : bool) :
  (fl_queue (flush q d endFrame) = q
   ∧ (fl_ending (flush q d endFrame) = Returned None → q_commands q = []))
  ∨ fl_queue (flush q d endFrame) = released q endFrame.
Proof.
  unfold flush.
  destruct (bool_decide (len (q_commands q) = 0) && negb endFrame) eqn:Hnoop.
  { left. split; [done|]. intros _. apply andb_true_iff in Hnoop as [Hz _].
    apply bool_decide_eq_true in Hz. unfold len in Hz.
    destruct (q_commands q); [done|simpl in Hz; lia]. }
  destruct (graphicsDriver_Begin d) as [[e|] d1].
  { left. split; [done|]. simpl. congruence. }
  destruct (flushLoop _ _ _ _ _) as [[body d2] tr].
  destruct (graphicsDriver_End endFrame d2) as [err1 d3]. by right.
Qed.

(** X8. On a queue whose buffers are accounted for, flush never panics:
    every slice it takes of the vertex and index buffers is within
    bounds, so it returns nil or an error; and the queue it leaves is
    accounted for again. *)
Theorem X8_flush_never_panics (q : commandQueue) (d : D) (endFrame : bool) :
  accounted q →
  (∃ e, fl_ending (flush q d endFrame) = Returned e)
  ∧ accounted (fl_queue (flush q d endFrame)).
Proof.
  intros Hacc. split; [by apply flush_returns|].
  destruct (flush_queue_cases q d endFrame) as [[-> _]| ->];
    [done|apply released_accounted].
Qed.

Lemma runLength_within (cs : list command) (nv ne : Z) (nc : nat) :
  Forall withinGeneration cs →
  nv ≤ maxVertexFloatCount → (nc = 0%nat → nv = 0) →
  (runLength cs nv ne nc).1.1 ≤ maxVertexFloatCount.
Proof.
  intros Hall. revert nv ne nc.
  induction Hall as [|c cs Hc Hall IH]; intros nv ne nc Hnv Hnc; [done|].
  destruct c as [dtc|tag]; cbn [runLength].
  - simpl in Hc. unfold mustUseDifferentVertexBuffer.
    destruct nc as [|nc].
    + rewrite bool_decide_eq_false_2 by lia. simpl. apply IH; [|done].
      rewrite (Hnc eq_refl). pose proof maxVertexFloatCount_bounds.
      unfold numVertices in *. pose proof (len_nonneg (c_vertices dtc)).
      rewrite int_add_id by lia. lia.
    + rewrite bool_decide_eq_true_2 by lia. simpl.
      case_bool_decide as Hm; [done|]. apply IH; [lia|done].
  - apply IH; [done|]. done.
Qed.

Lemma flushLoop_upload_bound (fuel : nat) (cs : list command) (vs : list float32)
    (es : list Z) (d : D) :
  Forall withinGeneration cs →
  Forall (λ u, len u ≤ maxVertexFloatCount) (uploadedVertices (flushLoop fuel cs vs es d).2).
Proof.
  revert cs vs es d. induction fuel as [|fuel IH]; intros cs vs es d Hall;
    destruct cs as [|c cs]; try by constructor.
  rewrite flushLoop_step.
  pose proof (runLength_within (c :: cs) 0 0 0 Hall
                ltac:(apply maxVertexFloatCount_bounds) (λ _, eq_refl)) as Hnv.
  destruct (runLength (c :: cs) 0 0 0) as [[nv ne] nc]. simpl in Hnv.
  assert (∀ vs1 es1 d1 tr1,
            Forall (λ u, len u ≤ maxVertexFloatCount) (uploadedVertices tr1) →
            Forall (λ u, len u ≤ maxVertexFloatCount)
              (uploadedVertices (afterUpload fuel nc (c :: cs) vs1 es1 d1 tr1).2))
    as Hrest.
  { intros vs1 es1 d1 tr1 H1. unfold afterUpload.
    destruct (execRun_views (take nc (c :: cs)) 0 d1) as (_ & _ & Hv2 & _).
    destruct (execRun _ _ _) as [[[e|] d2] tr2]; simpl in *.
    - unfold uploadedVertices in *. rewrite omap_app, Hv2, app_nil_r. done.
    - specialize (IH (drop nc (c :: cs)) vs1 es1 d2 (Forall_drop _ _ _ Hall)).
      destruct (flushLoop _ _ _ _ _) as [[r d3] tr3]. simpl in *.
      unfold uploadedVertices in *. rewrite !omap_app, Hv2. simpl.
      by apply Forall_app. }
  assert (len (take (Z.to_nat nv) vs) ≤ maxVertexFloatCount) as Hup.
  { unfold len. rewrite length_take. pose proof maxVertexFloatCount_bounds. lia. }
  case_bool_decide; [|apply Hrest; constructor].
  case_bool_decide; [|constructor].
  destruct (graphicsDriver_SetVertices _ _ _) as [[e|] d1].
  - simpl. by repeat constructor.
  - apply Hrest. simpl. by repeat constructor.
Qed.

(** X9. When no draw command holds more than maxVertexFloatCount vertex
    floats, no call of SetVertices made by flush hands over more than
    maxVertexFloatCount floats: the runs stop before a vertex buffer
    would overflow the 32-bit index space. *)
Theorem X9_uploads_fit_one_generation (q : commandQueue) (d : D) (endFrame : bool) :
  Forall withinGeneration (q_commands q) →
  Forall (λ u, len u ≤ maxVertexFloatCount)
    (uploadedVertices (fl_trace (flush q d endFrame))).
Proof.
  intros Hall. unfold flush.
  destruct (bool_decide (len (q_commands q) = 0) && negb endFrame); [constructor|].
  destruct (graphicsDriver_Begin d) as [[e|] d1]; [constructor|].
  pose proof (flushLoop_upload_bound (length (q_commands q)) (q_commands q)
                (q_vertices q) (q_indices q) d1 Hall) as Hb.
  destruct (flushLoop _ _ _ _ _) as [[body d2] tr].
  destruct (graphicsDriver_End endFrame d2) as [err1 d3]. simpl in *.
  assert (∀ fs, uploadedVertices (map EvFinalizer fs) = []) as Hfv
    by (intros fs; induction fs; [done|simpl; done]).
  unfold uploadedVertices in *. rewrite omap_app. simpl.
  destruct endFrame; rewrite ?Hfv, app_nil_r; done.
Qed.

End FlushAccounting.

Lemma afterOneDraw_accounted : @accounted target64 milliFloat afterOneDraw.
Proof.
  assert (@fitsInts target64 milliFloat commandQueue_zero oneVertex [0]) as Hfit
    by (split; vm_compute; discriminate).
  assert (len oneVertex ≤ @maxVertexFloatCount target64) as Hlen
    by (vm_compute; discriminate).
  destruct (@Enqueue_done target64 target64_ok milliFloat releaseBuild commandQueue_zero
              image1 oneSrc oneVertex [0] blendCopy (rect 0 0 16 16) noRegions shader1 [] 0
              (@commandQueue_zero_wf target64 target64_ok milliFloat) (proj1 Hfit) Hlen)
    as [b E].
  unfold afterOneDraw, drawOnce. rewrite E.
  exact (@enqueued_accounted target64 target64_ok milliFloat releaseBuild commandQueue_zero
           image1 oneSrc oneVertex [0] blendCopy (rect 0 0 16 16) noRegions shader1 [] 0 b
           (@commandQueue_zero_accounted target64 target64_ok milliFloat) Hfit Hlen).
Qed.

Lemma X7_witness :
  ∃ q', drawOnce afterOneDraw = Done q' ∧ @accounted target64 milliFloat q'.
Proof.
  destruct (@X7_enqueue_keeps_buffers_accounted target64 target64_ok milliFloat releaseBuild
              afterOneDraw image1 oneSrc oneVertex [0] blendCopy (rect 0 0 16 16) noRegions
              shader1 [] 0 0) as (_ & _ & q' & E & Hacc & _).
  - exact afterOneDraw_accounted.
  - split; vm_compute; discriminate.
  - vm_compute. discriminate.
  - exists q'. split; [exact E|exact Hacc].
Defined.

Lemma X8_witness :
  let r := @flush target64 milliFloat scriptedDriver scriptedGraphics scriptedCommands
             afterOneDraw failingDriver true in
  (∃ e, fl_ending r = Returned e) ∧ @accounted target64 milliFloat (fl_queue r).
Proof.
  apply (@X8_flush_never_panics target64 target64_ok milliFloat scriptedDriver
           scriptedGraphics scriptedCommands afterOneDraw failingDriver true).
  exact afterOneDraw_accounted.
Defined.

Lemma X9_witness :
  Forall (λ u, len u ≤ @maxVertexFloatCount target64)
    (uploadedVertices
       (fl_trace (@flush target64 milliFloat scriptedDriver scriptedGraphics
                    scriptedCommands afterOneDraw healthyDriver true))).
Proof.
  apply (@X9_uploads_fit_one_generation target64 target64_ok milliFloat scriptedDriver
           scriptedGraphics scriptedCommands afterOneDraw healthyDriver true).
  exact (acc_generation _ afterOneDraw_accounted).
Defined.

(** ** A successful flush uploads everything *)

Section FlushCompleteness.
Context `{T : Target} {TOk : TargetOk} `{F : Float32} {D : Type} `{G : !Graphics D}
  `{C : !CommandMethods D}.

Lemma indexed_no_indices (cs : list command) :
  Forall nonnegRegions cs → Forall indexed cs →
  totalIndices cs = 0 → totalVertices cs = 0.
Proof.
  intros Hall. induction Hall as [|c cs Hc Hall IH]; intros Hidx Hz; [done|].
  apply Forall_cons in Hidx as [Hi Hidx]. simpl in *.
  pose proof (commandIndices_nonneg c Hc). pose proof (totalIndices_nonneg cs Hall).
  rewrite IH by (done || lia).
  destruct c as [dtc|tag]; simpl in *; [|done].
  destruct Hi as [Hi| ->]; [lia|done].
Qed.

Lemma flushLoop_complete (fuel : nat) (cs : list command) (vs : list float32)
    (es : list Z) (d : D) :
  Forall nonnegRegions cs → Forall indexed cs →
  totalVertices cs = len vs → totalIndices cs = len es →
  len vs ≤ MaxInt → len es ≤ MaxInt →
  (flushLoop fuel cs vs es d).1.1 = Returned None →
  concat (uploadedVertices (flushLoop fuel cs vs es d).2) = vs
  ∧ concat (uploadedIndices (flushLoop fuel cs vs es d).2) = es.
Proof.
  revert cs vs es d.
  induction fuel as [|fuel IH]; intros cs vs es d Hall Hidx Hv Hi Hvi Hii;
    destruct cs as [|c cs]; try done.
  1,2: intros _; simpl in Hv, Hi; unfold len in *;
       destruct vs; [|simpl in Hv; lia]; destruct es; [done|simpl in Hi; lia].
  rewrite flushLoop_step.
  destruct (runLength_exact (c :: cs) 0 0 0 Hall) as (k & Ek & Hk & Ev & Ei); try lia.
  destruct (runLength (c :: cs) 0 0 0) as [[nv ne] nc]. simpl in Ek, Ev, Ei. subst nc.
  destruct (totalVertices_take (c :: cs) k) as [Htv Edv].
  destruct (totalIndices_take (c :: cs) k Hall) as [Hti Edi].
  assert (∀ vs1 es1 d1 tr1,
            totalVertices (drop k (c :: cs)) = len vs1 →
            totalIndices (drop k (c :: cs)) = len es1 →
            len vs1 ≤ MaxInt → len es1 ≤ MaxInt →
            (afterUpload fuel k (c :: cs) vs1 es1 d1 tr1).1.1 = Returned None →
            concat (uploadedVertices (afterUpload fuel k (c :: cs) vs1 es1 d1 tr1).2)
            = concat (uploadedVertices tr1) ++ vs1
            ∧ concat (uploadedIndices (afterUpload fuel k (c :: cs) vs1 es1 d1 tr1).2)
              = concat (uploadedIndices tr1) ++ es1) as Hrest.
  { intros vs1 es1 d1 tr1 Hv1 Hi1 Hvi1 Hii1. unfold afterUpload.
    destruct (execRun_views (take k (c :: cs)) 0 d1) as (_ & _ & Hv2 & Hi2 & _).
    destruct (execRun _ _ _) as [[[e|] d2] tr2]; simpl in *; [done|].
    specialize (IH (drop k (c :: cs)) vs1 es1 d2 (Forall_drop _ _ _ Hall)
                  (Forall_drop _ _ _ Hidx) Hv1 Hi1 Hvi1 Hii1).
    destruct (flushLoop _ _ _ _ _) as [[r d3] tr3]. simpl in *.
    intros Hr. destruct (IH Hr) as [IHv IHi].
    unfold uploadedVertices, uploadedIndices in *.
    rewrite !omap_app, !concat_app, Hv2, Hi2, IHv, IHi. done. }
  case_bool_decide as Hne.
  - rewrite bool_decide_eq_true_2 by lia.
    destruct (graphicsDriver_SetVertices _ _ _) as [[e|] d1]; [done|].
    intros Hr.
    destruct (Hrest (drop (Z.to_nat nv) vs) (drop (Z.to_nat ne) es) d1
                [EvSetVertices (take (Z.to_nat nv) vs) (take (Z.to_nat ne) es)])
      as [Hcv Hci]; try done; try (unfold len in *; rewrite length_drop; lia).
    rewrite Hcv, Hci. simpl. by rewrite !app_nil_r, !take_drop.
  - assert (totalIndices (take k (c :: cs)) = 0) as Hz by lia.
    pose proof (indexed_no_indices _ (Forall_take _ k _ Hall) (Forall_take _ k _ Hidx) Hz).
    intros Hr. apply Hrest; try done; lia.
Qed.

(** X18. On a queue whose buffers are accounted for and whose draw
    commands each count at least one index, a flush that returns nil has
    handed every vertex and every index of the queue to SetVertices,
    once and in order. *)
Theorem X18_successful_flush_uploads_everything (q : commandQueue) (d : D)
    (endFrame : bool) :
  accounted q → Forall indexed (q_commands q) →
  fl_ending (flush q d endFrame) = Returned None →
  concat (uploadedVertices (fl_trace (flush q d endFrame))) = q_vertices q
  ∧ concat (uploadedIndices (fl_trace (flush q d endFrame))) = q_indices q.
Proof.
  intros Hacc Hidx. unfold flush.
  destruct (bool_decide (len (q_commands q) = 0) && negb endFrame) eqn:Hnoop.
  { intros _. simpl. apply andb_true_iff in Hnoop as [Hz _].
    apply bool_decide_eq_true in Hz.
    pose proof (acc_vertices q Hacc) as Hv. pose proof (acc_indices q Hacc) as Hi.
    unfold len in *. destruct (q_commands q); [|simpl in Hz; lia]. simpl in Hv, Hi.
    destruct (q_vertices q); [|simpl in Hv; lia].
    destruct (q_indices q); [done|simpl in Hi; lia]. }
  destruct (graphicsDriver_Begin d) as [[e|] d1]; [done|].
  pose proof (flushLoop_complete (length (q_commands q)) (q_commands q) (q_vertices q)
                (q_indices q) d1 (acc_regions q Hacc) Hidx (acc_vertices q Hacc)
                (acc_indices q Hacc) (acc_vertices_int q Hacc) (acc_indices_int q Hacc))
    as Hc.
  destruct (flushLoop _ _ _ _ _) as [[body d2] tr].
  destruct (graphicsDriver_End endFrame d2) as [err1 d3]. simpl in *.
  intros Hr.
  assert (body = Returned None) as Hbody
    by (destruct body as [[e|]| |]; destruct err1; simpl in *; congruence).
  destruct (Hc Hbody) as [Hcv Hci].
  assert (∀ fs, uploadedVertices (map EvFinalizer fs) = []) as Hfv
    by (intros fs; induction fs; [done|simpl; done]).
  assert (∀ fs, uploadedIndices (map EvFinalizer fs) = []) as Hfi
    by (intros fs; induction fs; [done|simpl; done]).
  unfold uploadedVertices, uploadedIndices in *. rewrite !omap_app, !concat_app. simpl.
  destruct endFrame; rewrite ?Hfv, ?Hfi, Hcv, Hci; simpl; by rewrite !app_nil_r.
Qed.

End FlushCompleteness.

Lemma X18_witness :
  let r := @flush target64 milliFloat scriptedDriver scriptedGraphics scriptedCommands
             afterOneDraw healthyDriver true in
  concat (uploadedVertices (fl_trace r)) = q_vertices afterOneDraw
  ∧ concat (uploadedIndices (fl_trace r)) = q_indices afterOneDraw.
Proof.
  apply (@X18_successful_flush_uploads_everything target64 target64_ok milliFloat
           scriptedDriver scriptedGraphics scriptedCommands afterOneDraw healthyDriver true).
  - exact afterOneDraw_accounted.
  - vm_compute. repeat constructor.
  - vm_compute. reflexivity.
Defined.

Section IndexedFacts.
Context `{T : Target} {TOk : TargetOk} `{F : Float32} `{Dbg : Debug}.

(** X19. Draws that come with at least one index (or with no vertex)
    keep every queued draw command indexed: a command that holds
    vertices counts at least one index, also after a merge. The empty
    queue has the property and enqueueing another kind of command keeps
    it. *)
Theorem X19_enqueue_keeps_commands_indexed (q : commandQueue) (dst : Image)
    (srcs : array4 (option Image)) (vertices : list float32) (indices : list Z)
    (blend : Blend) (dstRegion : Rectangle) (srcRegions : array4 Rectangle)
    (shader : Shader) (uniforms : list Z) (fillRule : FillRule) (tag : Z) :
  accounted q → fitsInts q vertices indices → len vertices ≤ maxVertexFloatCount →
  Forall indexed (q_commands q) → 0 < len indices ∨ vertices = [] →
  Forall indexed (q_commands commandQueue_zero)
  ∧ Forall indexed (q_commands (Enqueue q (OtherCmd tag)))
  ∧ ∃ q',
      EnqueueDrawTrianglesCommand q dst srcs vertices indices blend dstRegion srcRegions
        shader uniforms fillRule = Done q'
      ∧ Forall indexed (q_commands q').
Proof.
  intros Hacc Hfit Hlen Hidx Hnew.
  split; [constructor|]. split.
  { simpl. apply Forall_app. split; [done|by apply Forall_singleton]. }
  destruct (Enqueue_done q dst srcs vertices indices blend dstRegion srcRegions shader
              uniforms fillRule (acc_wf q Hacc) (proj1 Hfit) Hlen) as [b E].
  eexists. split; [exact E|].
  pose proof (len_nonneg indices) as Hi0.
  unfold enqueued.
  destruct (mergeTarget q dst srcs vertices blend shader _ fillRule) as [last_|] eqn:Em.
  - destruct (mergeTarget_Some _ _ _ _ _ _ _ _ _ Em) as [Es El].
    destruct (last_Some_snoc _ _ El) as [cs Ecs].
    pose proof (acc_regions q Hacc) as Hr. pose proof (acc_indices q Hacc) as Hi.
    pose proof (acc_indices_int q Hacc) as Hii.
    rewrite Ecs in *. simpl. rewrite set_last_snoc.
    apply Forall_app in Hr as [Hr0 Hrl]. rewrite Forall_singleton in Hrl. simpl in Hrl.
    apply Forall_app in Hidx as [Hidx0 Hidxl]. rewrite Forall_singleton in Hidxl.
    simpl in Hidxl.
    rewrite totalIndices_app in Hi. simpl in Hi.
    pose proof (totalIndices_nonneg cs Hr0) as Hcs0.
    pose proof (regionIndices_nonneg _ Hrl) as Hl0.
    destruct Hfit as [_ Hfi].
    destruct (mergedRegions_indices (c_dstRegions last_) dstRegion indices)
      as [Emr _]; [|done|lia|].
    { apply (wf_last_regions q (acc_wf q Hacc)). by rewrite Ecs, last_snoc. }
    apply Forall_app. split; [done|]. apply Forall_singleton. simpl. rewrite Emr.
    destruct Hnew as [Hnew| ->]; [left; lia|].
    rewrite app_nil_r. destruct Hidxl as [Hidxl|Hidxl]; [left; lia|by right].
  - simpl. apply Forall_app. split; [done|]. apply Forall_singleton. simpl.
    destruct Hnew as [Hnew| ->]; [left; lia|by right].
Qed.

End IndexedFacts.

Lemma X19_witness :
  ∃ q', drawOnce afterOneDraw = Done q' ∧ Forall (@indexed milliFloat) (q_commands q').
Proof.
  destruct (@X19_enqueue_keeps_commands_indexed target64 target64_ok milliFloat
              releaseBuild afterOneDraw image1 oneSrc oneVertex [0] blendCopy
              (rect 0 0 16 16) noRegions shader1 [] 0 0) as (_ & _ & q' & E & Hidx).
  - exact afterOneDraw_accounted.
  - split; vm_compute; discriminate.
  - vm_compute. discriminate.
  - vm_compute. repeat constructor.
  - left. vm_compute. reflexivity.
  - exists q'. split; [exact E|exact Hidx].
Defined.

(** ** Finalizers and the end of a frame *)

Section FinalizerProperties.
Context `{T : Target} `{F : Float32} {D : Type} `{G : !Graphics D} `{C : !CommandMethods D}.

Lemma finalized_finalizers (fs : list Z) : finalized (map EvFinalizer fs) = fs.
Proof. induction fs as [|f fs IH]; [done|]. simpl. by rewrite IH. Qed.

(** X10. A finalizer added with addFinalizer is run by the first flush at
    the end of a frame whose Begin succeeds: after End(true), once, after
    the finalizers added before it; the flush then drops the finalizers
    and resets the uniform buffer. A flush that is not at the end of a
    frame, or whose Begin fails, runs no finalizer, keeps them all and
    leaves the uniform buffer as it is. *)
Theorem X10_finalizers_run_at_end_of_frame (q : commandQueue) (f : Z) (d : D) :
  let q1 := addFinalizer q f in
  (finalized (fl_trace (flush q1 d false)) = []
   ∧ q_finalizers (fl_queue (flush q1 d false)) = q_finalizers q ++ [f]
   ∧ q_uint32sBuffer (fl_queue (flush q1 d false)) = q_uint32sBuffer q)
  ∧ match (graphicsDriver_Begin d).1 with
    | Some e =>
      fl_ending (flush q1 d true) = Returned (Some e)
      ∧ finalized (fl_trace (flush q1 d true)) = []
      ∧ q_finalizers (fl_queue (flush q1 d true)) = q_finalizers q ++ [f]
      ∧ q_uint32sBuffer (fl_queue (flush q1 d true)) = q_uint32sBuffer q
    | None =>
      (∃ tr, fl_trace (flush q1 d true)
             = tr ++ EvEnd true :: map EvFinalizer (q_finalizers q ++ [f])
             ∧ finalized tr = [])
      ∧ q_finalizers (fl_queue (flush q1 d true)) = []
      ∧ q_uint32sBuffer (fl_queue (flush q1 d true)) = reset (q_uint32sBuffer q)
    end.
Proof.
  intros q1. subst q1. unfold flush. rewrite andb_false_r.
  assert (q_commands (addFinalizer q f) = q_commands q) as Ec by done.
  assert (q_finalizers (addFinalizer q f) = q_finalizers q ++ [f]) as Ef by done.
  assert (q_uint32sBuffer (addFinalizer q f) = q_uint32sBuffer q) as Eb by done.
  rewrite Ec.
  destruct (bool_decide (len (q_commands q) = 0) && negb false);
    destruct (graphicsDriver_Begin d) as [[e|] d1]; simpl; try done.
  - destruct (flushLoop_views (length (q_commands q)) (q_commands q)
                (q_vertices (addFinalizer q f)) (q_indices (addFinalizer q f)) d1 (le_n _))
      as (_ & _ & _ & _ & Hfin).
    destruct (flushLoop _ _ _ _ _) as [[body d2] tr].
    destruct (graphicsDriver_End true d2) as [err1 d3]. simpl in *.
    repeat split; try done. exists (EvBegin :: tr). split; done.
  - destruct (flushLoop_views (length (q_commands q)) (q_commands q)
                (q_vertices (addFinalizer q f)) (q_indices (addFinalizer q f)) d1 (le_n _))
      as (_ & _ & _ & _ & Hfin).
    destruct (flushLoop _ _ _ _ _) as [[body d2] tr].
    destruct (graphicsDriver_End false d2) as [err0 d3] eqn:E0.
    destruct (graphicsDriver_End true d2) as [err1 d4] eqn:E1. simpl in *.
    repeat split; try done.
    + unfold finalized in *. rewrite omap_app, Hfin. done.
    + exists (EvBegin :: tr). split; done.
Qed.

End FinalizerProperties.

(** ** Merging stops at other commands *)

(** X11. A command that is not a draw is a barrier for merging: a draw
    enqueued right after it is queued as a command of its own, behind it,
    holding exactly the new vertices and one destination sub-region,
    whatever draw precedes the barrier. *)
Theorem X11_other_command_is_a_merge_barrier `{T : Target} {TOk : TargetOk} `{F : Float32}
    `{Dbg : Debug} (q : commandQueue) (tag : Z) (dst : Image)
    (srcs : array4 (option Image)) (vertices : list float32) (indices : list Z)
    (blend : Blend) (dstRegion : Rectangle) (srcRegions : array4 Rectangle)
    (shader : Shader) (uniforms : list Z) (fillRule : FillRule) :
  wf_queue q → fitsInt q vertices → len vertices ≤ maxVertexFloatCount →
  ∃ q',
    EnqueueDrawTrianglesCommand (Enqueue q (OtherCmd tag)) dst srcs vertices indices blend
      dstRegion srcRegions shader uniforms fillRule = Done q'
    ∧ q_commands q'
      = q_commands q
        ++ [OtherCmd tag;
            DrawTrianglesCmd
              (newCommand dst srcs vertices indices blend dstRegion shader
                 (queuedUniforms shader dst srcs dstRegion srcRegions uniforms) fillRule)]
    ∧ q_vertices q' = q_vertices q ++ vertices.
Proof.
  intros Hwf Hfit Hlen.
  destruct (Enqueue_done (Enqueue q (OtherCmd tag)) dst srcs vertices indices blend
              dstRegion srcRegions shader uniforms fillRule
              (Enqueue_wf q tag Hwf) Hfit Hlen) as [b E].
  eexists. split; [exact E|].
  unfold enqueued, mergeTarget. simpl. rewrite last_snoc.
  destruct (splits _ _); simpl; by rewrite <-app_assoc.
Qed.

Lemma X11_witness :
  ∃ q',
    drawOnce (@Enqueue milliFloat afterOneDraw (OtherCmd 7)) = Done q'
    ∧ length (q_commands q') = 3%nat.
Proof.
  destruct (@X11_other_command_is_a_merge_barrier target64 target64_ok milliFloat
              releaseBuild afterOneDraw 7 image1 oneSrc oneVertex [0] blendCopy
              (rect 0 0 16 16) noRegions shader1 [] 0) as (q' & E & Hc & _).
  - exact afterOneDraw_wf.
  - vm_compute. discriminate.
  - vm_compute. discriminate.
  - exists q'. split; [exact E|]. rewrite Hc. reflexivity.
Defined.

(** ** The pool of command queues *)

Section PoolProperties.
Context `{T : Target} `{F : Float32} {D : Type} `{G : !Graphics D} `{C : !CommandMethods D}.

Lemma firstStoredError_clean (qs : gmap nat commandQueue) (cache : list nat) :
  (∀ a q, a ∈ cache → qs !! a = Some q → q_err q = None) →
  firstStoredError qs cache = None.
Proof.
  induction cache as [|a cache IH]; intros Hall; [done|]. simpl.
  destruct (qs !! a) as [q|] eqn:E.
  - rewrite (Hall a q); [|constructor|done].
    apply IH. intros a' q' Hin. apply Hall. by constructor.
  - apply IH. intros a' q' Hin. apply Hall. by constructor.
Qed.

Lemma commandQueuePool_get_snoc (w : @world F D) (init : list nat) (a : nat) :
  w_cache w = init ++ [a] →
  (∀ a' q, a' ∈ w_cache w → w_queues w !! a' = Some q → q_err q = None) →
  commandQueuePool_get w = (Some a, None, set_cache init w).
Proof.
  intros E Hclean. unfold commandQueuePool_get.
  rewrite (firstStoredError_clean _ _ Hclean), E.
  destruct (init ++ [a]) as [|a1 l] eqn:El.
  { by destruct init. }
  rewrite <-El, last_snoc, length_app. simpl. rewrite Nat.add_1_r. simpl.
  by rewrite take_app_length.
Qed.

(** X12. The pool of command queues is a stack. When no pooled queue
    holds a stored error, get after put returns the queue just put and
    leaves the pool as it was before the put. On an empty pool get never
    fails: it makes a new, empty queue, at an address no existing queue
    has. *)
Theorem X12_pool_get_after_put (a : nat) (w : @world F D) :
  (∀ a' q, a' ∈ w_cache w ++ [a] → w_queues w !! a' = Some q → q_err q = None) →
  commandQueuePool_get (putCommandQueue a w) = (Some a, None, w)
  ∧ (w_cache w = [] →
     ∃ a0, commandQueuePool_get w = (Some a0, None, set_queue a0 commandQueue_zero w)
           ∧ w_queues w !! a0 = None).
Proof.
  intros Hclean. split.
  - rewrite (commandQueuePool_get_snoc (putCommandQueue a w) (w_cache w) a); [|done|done].
    by destruct w.
  - intros Hempty. exists (fresh (dom (w_queues w))). unfold commandQueuePool_get.
    rewrite Hempty. split; [done|].
    apply not_elem_of_dom, is_fresh.
Qed.

End PoolProperties.

Lemma X12_witness :
  @commandQueuePool_get milliFloat scriptedDriver
    (putCommandQueue 0%nat (worldWith afterOneDraw healthyDriver true))
  = (Some 0%nat, None, worldWith afterOneDraw healthyDriver true).
Proof.
  refine (proj1 (@X12_pool_get_after_put milliFloat scriptedDriver 0%nat
                   (worldWith afterOneDraw healthyDriver true) _)).
  intros a' q Hin Hq. simpl in Hin. apply list_elem_of_singleton in Hin. subst a'.
  unfold worldWith in Hq. simpl in Hq. rewrite lookup_singleton in Hq.
  injection Hq as <-. reflexivity.
Defined.

(** ** The manager's invariant *)

Section ManagerFacts.
Context `{T : Target} {TOk : TargetOk} `{F : Float32} `{Dbg : Debug} {D : Type}
  `{G : !Graphics D} `{C : !CommandMethods D}.

Lemma idle_inUse (q : commandQueue) : idle q → inUse q.
Proof.
  intros (Hc & Hv & Hi & Ht & He).
  pose proof MaxInt_pos. pose proof maxVertexFloatCount_bounds.
  split; [|done]. split; rewrite ?Hc, ?Hv, ?Hi, ?Ht; simpl; try done;
    try (unfold len; simpl; lia).
  split; rewrite ?Hc, ?Hv, ?Hi, ?Ht; simpl; try done; try (unfold len; simpl; lia).
Qed.

Lemma commandQueue_zero_idle : idle commandQueue_zero.
Proof. by repeat split. Qed.

Lemma released_idle (q : commandQueue) (endFrame : bool) :
  q_err q = None → idle (released q endFrame).
Proof. intros He. by repeat split. Qed.

Lemma flush_inUse (q : commandQueue) (d : D) (endFrame : bool) :
  inUse q →
  ∃ e, fl_ending (flush q d endFrame) = Returned e
       ∧ inUse (fl_queue (flush q d endFrame))
       ∧ (e = None → idle (fl_queue (flush q d endFrame))).
Proof.
  intros [Hacc He].
  destruct (flush_returns q d endFrame Hacc) as [e Hend]. exists e.
  split; [done|].
  destruct (flush_queue_cases q d endFrame) as [[-> Hnil]| ->].
  - split; [done|]. intros ->. specialize (Hnil Hend).
    pose proof (acc_vertices q Hacc) as Hv. pose proof (acc_indices q Hacc) as Hi.
    pose proof (wf_counter_buffer q (acc_wf q Hacc)) as Hb.
    pose proof (wf_counter q (acc_wf q Hacc)) as Hc.
    rewrite Hnil in Hv, Hi. simpl in Hv, Hi. unfold len in *.
    repeat split; try done.
    + destruct (q_vertices q); [done|simpl in Hv; lia].
    + destruct (q_indices q); [done|simpl in Hi; lia].
    + lia.
  - split; [|intros _; by apply released_idle].
    split; [apply released_accounted|done].
Qed.


Lemma lookup_other (qs : gmap nat commandQueue) (a b : nat) (q : commandQueue) :
  b ≠ a → <[a := q]> qs !! b = qs !! b.
Proof. intros Hne. apply lookup_insert_ne. by intros ->. Qed.

Lemma managed_update (w w' : @world F D) (a : nat) :
  managed w → a ∉ reachable w →
  w_current w' = w_current w → w_renderThread w' = w_renderThread w →
  (∀ b, b ≠ a → w_queues w' !! b = w_queues w !! b) →
  (w_cache w' = w_cache w
   ∨ (w_cache w' = w_cache w ++ [a] ∧ ∃ q, w_queues w' !! a = Some q ∧ idle q)) →
  managed w'.
Proof.
  intros [Hd Hc Ha] Hnot Ecur Ern Hq Hcache.
  unfold reachable, pendingQueues in *.
  assert (∀ b, b ∈ option_list (w_current w) ++ map t_queue (w_renderThread w) ++ w_cache w →
               w_queues w' !! b = w_queues w !! b) as Hframe.
  { intros b Hb. apply Hq. intros ->. by apply Hnot. }
  split.
  - unfold reachable, pendingQueues. rewrite Ecur, Ern.
    destruct Hcache as [-> | [-> _]]; [done|].
    rewrite !app_assoc. apply NoDup_app. rewrite <-!app_assoc.
    split; [done|]. split; [|apply NoDup_singleton].
    intros x Hx Hxa. apply list_elem_of_singleton in Hxa. by subst.
  - intros b Hb.
    assert (b ∈ w_cache w ∨ (b = a ∧ ∃ q, w_queues w' !! a = Some q ∧ idle q))
      as [Hb'|[-> Hb']].
    { destruct Hcache as [E | [E Hidle]]; rewrite E in Hb; [by left|].
      apply elem_of_app in Hb as [Hb|Hb]; [by left|].
      apply list_elem_of_singleton in Hb. by right. }
    + destruct (Hc b Hb') as (q & Hl & Hidle). exists q. split; [|done].
      rewrite Hframe; [done|]. rewrite !elem_of_app. auto.
    + done.
  - intros b Hb. unfold pendingQueues in Hb. rewrite Ecur, Ern in Hb.
    destruct (Ha b Hb) as (q & Hl & Hin). exists q. split; [|done].
    rewrite Hframe; [done|]. rewrite app_assoc, elem_of_app. auto.
Qed.

Lemma flushClosure_managed (sync : bool) (t : flushTask) (w : @world F D) (q : commandQueue) :
  managed w → t_queue t ∉ reachable w → w_queues w !! t_queue t = Some q → inUse q →
  ∃ e w', flushClosure sync t w = Done (e, w')
    ∧ managed w'
    ∧ w_current w' = w_current w
    ∧ w_renderThread w' = w_renderThread w
    ∧ w_vsyncEnabled w' = w_vsyncEnabled w
    ∧ (∀ b, b ≠ t_queue t → w_queues w' !! b = w_queues w !! b)
    ∧ (∀ b, b ∈ reachable w' → b = t_queue t ∨ b ∈ reachable w)
    ∧ (e ≠ None → sync = true)
    ∧ (∃ q', w_queues w' !! t_queue t = Some q'
             ∧ ((idle q' ∧ w_cache w' = w_cache w ++ [t_queue t])
                ∨ (w_cache w' = w_cache w ∧ (sync = false → q_err q' ≠ None)))).
Proof.
  intros Hm Hnot Hq Hin. unfold flushClosure. rewrite Hq.
  destruct (flush_inUse q (w_driver w) (t_endFrame t) Hin) as (e & Hend & Hin' & Hidle).
  rewrite Hend. destruct e as [e|]; [destruct sync|].
  - eexists _, _. split; [done|]. split_and!; try done.
    + apply (managed_update w _ (t_queue t)); simpl; auto.
      intros b Hb. by rewrite lookup_other.
    + intros b Hb. simpl. by rewrite lookup_other.
    + intros b Hb. by right.
    + eexists. simpl. rewrite lookup_insert_eq. split; [done|]. by right.
  - eexists _, _. split; [done|]. split_and!; try done.
    + apply (managed_update w _ (t_queue t)); simpl; auto.
      intros b Hb. by rewrite !lookup_other.
    + intros b Hb. simpl. by rewrite !lookup_other.
    + intros b Hb. by right.
    + eexists. simpl. rewrite lookup_insert_eq. split; [done|]. by right.
  - eexists _, _. split; [done|]. split_and!; try done.
    + apply (managed_update w _ (t_queue t)); simpl; auto.
      * intros b Hb. by rewrite lookup_other.
      * right. split; [done|]. eexists. rewrite lookup_insert_eq. split; [done|].
        by apply Hidle.
    + intros b Hb. simpl. by rewrite lookup_other.
    + intros b Hb. unfold reachable, pendingQueues in *. simpl in Hb.
      rewrite !app_assoc in Hb. apply elem_of_app in Hb as [Hb|Hb].
      * right. by rewrite !app_assoc.
      * left. by apply list_elem_of_singleton in Hb.
    + eexists. simpl. rewrite lookup_insert_eq. split; [done|]. left.
      split; [by apply Hidle|done].
Qed.

Lemma managed_pop (w : @world F D) (t : flushTask) (ts : list flushTask) :
  managed w → w_renderThread w = t :: ts →
  managed (set_renderThread ts w)
  ∧ (t_queue t ∉ reachable (set_renderThread ts w))
  ∧ (∃ q, w_queues w !! t_queue t = Some q ∧ inUse q).
Proof.
  intros [Hd Hc Ha] E. unfold reachable, pendingQueues in *. rewrite E in Hd, Ha.
  simpl in Hd, Ha.
  rewrite <-Permutation_middle in Hd. apply NoDup_cons in Hd as [Hnot Hd].
  split; [split; simpl; try done|split; [done|]].
  - intros b Hb. apply Ha. apply elem_of_app in Hb as [Hb|Hb]; rewrite elem_of_app;
      [by left|right; by constructor].
  - apply Ha. rewrite elem_of_app. right. constructor.
Qed.

Lemma renderThreadStep_managed (w : @world F D) :
  managed w →
  ∃ w', renderThreadStep w = Done w'
    ∧ managed w'
    ∧ w_current w' = w_current w
    ∧ w_vsyncEnabled w' = w_vsyncEnabled w
    ∧ w_renderThread w' = tail (w_renderThread w)
    ∧ (∀ b, b ∉ pendingQueues w → w_queues w' !! b = w_queues w !! b)
    ∧ (∀ b, b ∈ reachable w' → b ∈ reachable w).
Proof.
  intros Hm. unfold renderThreadStep.
  destruct (w_renderThread w) as [|t ts] eqn:E.
  { exists w. split_and!; done. }
  destruct (managed_pop w t ts Hm E) as (Hm' & Hnot & q & Hq & Hin).
  destruct (flushClosure_managed false t (set_renderThread ts w) q Hm' Hnot Hq Hin)
    as (e & w' & Hrun & Hm2 & Hcur & Hrt & Hvs & Hframe & Hreach & _ & _).
  rewrite Hrun. exists w'. split; [done|]. split_and!; try done.
  - intros b Hb. rewrite Hframe; [done|]. intros ->. apply Hb.
    unfold pendingQueues. rewrite E. constructor.
  - intros b Hb. unfold reachable, pendingQueues in *. rewrite E. simpl in *.
    rewrite elem_of_app, elem_of_cons.
    destruct (Hreach b Hb) as [->|Hb']; [auto|].
    apply elem_of_app in Hb' as [Hb'|Hb']; auto.
Qed.

Lemma drain_managed (fuel : nat) (w : @world F D) :
  managed w →
  ∃ w', drain fuel w = Done w'
    ∧ managed w'
    ∧ w_current w' = w_current w
    ∧ w_vsyncEnabled w' = w_vsyncEnabled w
    ∧ w_renderThread w' = drop fuel (w_renderThread w)
    ∧ (∀ b, b ∉ pendingQueues w → w_queues w' !! b = w_queues w !! b)
    ∧ (∀ b, b ∈ reachable w' → b ∈ reachable w).
Proof.
  revert w. induction fuel as [|fuel IH]; intros w Hm; simpl.
  { exists w. split_and!; done. }
  destruct (renderThreadStep_managed w Hm)
    as (w1 & Hrun & Hm1 & Hcur & Hvs & Hrt & Hframe & Hreach).
  rewrite Hrun.
  destruct (IH w1 Hm1) as (w2 & Hrun2 & Hm2 & Hcur2 & Hvs2 & Hrt2 & Hframe2 & Hreach2).
  exists w2. split; [done|]. split_and!; try done; try congruence.
  - rewrite Hrt2, Hrt. destruct (w_renderThread w); simpl; [by destruct fuel|done].
  - intros b Hb. rewrite Hframe2, Hframe; [done|done|].
    intros Hb'. apply Hb. unfold pendingQueues in *. rewrite Hrt in Hb'.
    destruct (w_renderThread w); [done|]. simpl in *. by constructor.
  - auto.
Qed.


Lemma Flush_managed (a : nat) (endFrame : bool) (w : @world F D) (q : commandQueue) :
  managed w → a ∉ reachable w → w_queues w !! a = Some q → inUse q →
  ∃ e w', Flush a endFrame w = Done (e, w')
    ∧ managed w'
    ∧ w_current w' = w_current w
    ∧ w_vsyncEnabled w' = w_vsyncEnabled w
    ∧ (∀ b, b ≠ a → b ∉ pendingQueues w → w_queues w' !! b = w_queues w !! b)
    ∧ (e ≠ None → flushSync q endFrame (w_vsyncEnabled w) = true).
Proof.
  intros Hm Hnot Hq [Hacc He]. unfold Flush. rewrite Hq, He. unfold runOnRenderThread.
  assert (a ∉ pendingQueues w) as Hnp.
  { intros Hp. apply Hnot. unfold reachable. rewrite !elem_of_app. auto. }
  destruct (flushSync q endFrame (w_vsyncEnabled w)) eqn:Hs.
  - destruct (drain_managed (length (w_renderThread w)) w Hm)
      as (w1 & Hrun & Hm1 & Hcur & Hvs & Hrt & Hframe & Hreach).
    rewrite Hrun.
    assert (w_queues w1 !! a = Some q) as Hq1 by (by rewrite Hframe).
    assert (a ∉ reachable w1) as Hnot1 by auto.
    destruct (flushClosure_managed true {| t_queue := a; t_endFrame := endFrame |} w1 q
                Hm1 Hnot1 Hq1 (conj Hacc He))
      as (e & w2 & Hrun2 & Hm2 & Hcur2 & Hrt2 & Hvs2 & Hframe2 & _).
    simpl in *. rewrite Hrun2. exists e, w2.
    assert (∀ b, b ≠ a → b ∉ pendingQueues w → w_queues w2 !! b = w_queues w !! b).
    { intros b Hb Hbp. rewrite Hframe2, Hframe; done. }
    destruct e; split_and!; try done; congruence.
  - eexists None, _. split; [done|]. split_and!; try done.
    destruct Hm as [Hd Hc Ha]. unfold reachable, pendingQueues in *. split; simpl.
    + unfold reachable, pendingQueues. simpl. rewrite List.map_app. simpl.
      rewrite <-app_assoc. simpl.
      rewrite (app_assoc (option_list (w_current w))), <-Permutation_middle.
      apply NoDup_cons. by rewrite <-app_assoc.
    + done.
    + intros b Hb. unfold pendingQueues in Hb. simpl in Hb.
      rewrite List.map_app, app_assoc in Hb. apply elem_of_app in Hb as [Hb|Hb]; [by apply Ha|].
      apply list_elem_of_singleton in Hb. subst b. by exists q.
Qed.

Lemma commandQueuePool_get_managed (w : @world F D) :
  managed w →
  ∃ a w1, commandQueuePool_get w = (Some a, None, w1)
    ∧ managed (set_current (Some a) w1)
    ∧ w_current w ≠ Some a
    ∧ (∀ c, w_current w = Some c → c ∉ reachable (set_current (Some a) w1))
    ∧ (∀ b, b ≠ a → w_queues w1 !! b = w_queues w !! b)
    ∧ (∃ q, w_queues w1 !! a = Some q ∧ idle q)
    ∧ w_renderThread w1 = w_renderThread w
    ∧ w_vsyncEnabled w1 = w_vsyncEnabled w.
Proof.
  intros [Hd Hc Ha]. unfold reachable, pendingQueues in *.
  assert (w_cache w = [] ∨ ∃ init a, w_cache w = init ++ [a]) as [E|(init & a & E)]
    by (destruct (w_cache w) using rev_ind; eauto).
  - set (a := fresh (dom (w_queues w))).
    assert (w_queues w !! a = None) as Hfresh by apply not_elem_of_dom, is_fresh.
    assert (a ∉ option_list (w_current w) ++ map t_queue (w_renderThread w)) as Hnot.
    { intros Hin. destruct (Ha a Hin) as (q & Hq & _). congruence. }
    exists a, (set_queue a commandQueue_zero w). unfold commandQueuePool_get.
    rewrite E in *. rewrite app_nil_r in Hd. apply NoDup_app in Hd as (Hd1 & Hd2 & Hd3).
    split; [done|]. split_and!; try done.
    + split; unfold reachable, pendingQueues; simpl; rewrite ?E, ?app_nil_r.
      * apply NoDup_cons. split; [|done]. intros Hin. apply Hnot.
        rewrite elem_of_app. auto.
      * intros b Hb. by apply elem_of_nil in Hb.
      * intros b Hb. apply elem_of_cons in Hb as [->|Hb].
        { exists commandQueue_zero. rewrite lookup_insert_eq. split; [done|].
          apply idle_inUse, commandQueue_zero_idle. }
        destruct (Ha b) as (q & Hq & Hin); [rewrite elem_of_app; auto|].
        exists q. split; [|done]. rewrite lookup_other; [done|].
        intros ->. apply Hnot. rewrite elem_of_app. auto.
    + intros Ec. apply Hnot. rewrite Ec. simpl. constructor.
    + intros c Ec. unfold reachable, pendingQueues. simpl. rewrite E, app_nil_r.
      rewrite Ec in *. simpl in *. intros Hin. apply elem_of_cons in Hin as [->|Hin].
      * apply Hnot. constructor.
      * apply (Hd2 c); [constructor|done].
    + intros b Hb. simpl. by rewrite lookup_other.
    + exists commandQueue_zero. simpl. rewrite lookup_insert_eq.
      split; [done|apply commandQueue_zero_idle].
  - assert (∀ a' q, a' ∈ w_cache w → w_queues w !! a' = Some q → q_err q = None)
      as Hclean.
    { intros a' q Hin Hq. destruct (Hc a' Hin) as (q' & Hq' & Hidle).
      rewrite Hq in Hq'. injection Hq' as <-. apply Hidle. }
    exists a, (set_cache init w). rewrite (commandQueuePool_get_snoc w init a E Hclean).
    rewrite E in *. apply NoDup_app in Hd as (Hd1 & Hd2 & Hd3).
    rewrite app_assoc, <-Permutation_cons_append in Hd3.
    apply NoDup_cons in Hd3 as [Hd3 Hd4].
    destruct (Hc a) as (qa & Hqa & Hidle); [rewrite elem_of_app; right; constructor|].
    split; [done|]. split_and!; try done.
    + split; unfold reachable, pendingQueues; simpl.
      * by apply NoDup_cons.
      * intros b Hb. apply Hc. rewrite elem_of_app. auto.
      * intros b Hb. apply elem_of_cons in Hb as [->|Hb].
        { exists qa. split; [done|by apply idle_inUse]. }
        apply Ha. rewrite elem_of_app. auto.
    + intros Ec. apply (Hd2 a); [rewrite Ec; constructor|].
      rewrite !elem_of_app. right. right. constructor.
    + intros c Ec. unfold reachable, pendingQueues. simpl.
      rewrite Ec in *. simpl in *. intros Hin.
      apply (Hd2 c); [constructor|].
      apply elem_of_cons in Hin as [->|Hin].
      * rewrite !elem_of_app. right. right. constructor.
      * rewrite app_assoc, elem_of_app. by left.
    + by exists qa.
Qed.

End ManagerFacts.

Section ManagerProperties.
Context `{T : Target} {TOk : TargetOk} `{F : Float32} `{Dbg : Debug} {D : Type}
  `{G : !Graphics D} `{C : !CommandMethods D}.

Lemma initialWorld_managed (d : D) : managed (initialWorld d).
Proof.
  split; unfold reachable, pendingQueues; simpl.
  - constructor.
  - intros a Ha. by apply elem_of_nil in Ha.
  - intros a Ha. by apply elem_of_nil in Ha.
Qed.

Lemma managed_current (w : @world F D) (a : nat) :
  managed w → w_current w = Some a →
  ∃ q, w_queues w !! a = Some q ∧ inUse q.
Proof.
  intros [_ _ Ha] Ec. apply Ha. rewrite Ec. simpl. constructor.
Qed.

Lemma managed_set_current_queue (w : @world F D) (a : nat) (q' : commandQueue) :
  managed w → w_current w = Some a → inUse q' → managed (set_queue a q' w).
Proof.
  intros [Hd Hc Ha] Ec Hin. unfold reachable, pendingQueues in *.
  rewrite Ec in *. simpl in Hd. apply NoDup_cons in Hd as [Hnot Hd].
  split; unfold reachable, pendingQueues; simpl; rewrite ?Ec; simpl.
  - by apply NoDup_cons.
  - intros b Hb. destruct (Hc b Hb) as (q & Hq & Hidle). exists q. split; [|done].
    rewrite lookup_other; [done|]. intros ->. apply Hnot. rewrite elem_of_app. auto.
  - intros b Hb. destruct (decide (b = a)) as [->|Hne].
    + exists q'. by rewrite lookup_insert_eq.
    + destruct (Ha b Hb) as (q & Hq & Hq'). exists q. by rewrite lookup_other.
Qed.

Lemma ensureCurrent_managed (w : @world F D) :
  managed w →
  managed (ensureCurrent w)
  ∧ ∃ a q, w_current (ensureCurrent w) = Some a
           ∧ w_queues (ensureCurrent w) !! a = Some q
           ∧ inUse q
           ∧ (w_current w = None → idle q)
           ∧ (is_Some (w_current w) → ensureCurrent w = w).
Proof.
  intros Hm. unfold ensureCurrent. destruct (w_current w) as [c|] eqn:Ec.
  - split; [done|]. destruct (managed_current w c Hm Ec) as (q & Hq & Hin).
    exists c, q. split_and!; try done.
  - destruct (commandQueuePool_get_managed w Hm)
      as (a & w1 & Hget & Hm1 & _ & _ & _ & (q & Hq & Hidle) & _).
    rewrite Hget. split; [done|]. exists a, q. split_and!; try done.
    by apply idle_inUse.
Qed.


(** X14. The manager's enqueue functions keep the invariant. The state
    the program starts in is managed. In a managed state enqueueCommand
    (of a command that is not a draw) and enqueueDrawTrianglesCommand (of
    a draw that fits) do not panic: when there is no current queue the
    pool hands out an idle one without an error, so the ignored error
    result of pool.get is nil and c.current is never nil. *)
Theorem X14_manager_enqueue_keeps_invariant (d : D) (w : @world F D) (tag : Z) (dst : Image)
    (srcs : array4 (option Image)) (vertices : list float32) (indices : list Z)
    (blend : Blend) (dstRegion : Rectangle) (srcRegions : array4 Rectangle)
    (shader : Shader) (uniforms : list Z) (fillRule : FillRule) :
  managed w →
  len vertices ≤ maxVertexFloatCount → len indices ≤ MaxInt →
  (∀ a q, w_current w = Some a → w_queues w !! a = Some q →
          fitsInts q vertices indices) →
  managed (initialWorld d)
  ∧ (∃ w' a q',
       enqueueCommand (OtherCmd tag) w = Done w' ∧ managed w'
       ∧ w_current w' = Some a ∧ w_queues w' !! a = Some q'
       ∧ last (q_commands q') = Some (OtherCmd tag))
  ∧ (∃ w' a q q',
       enqueueDrawTrianglesCommand dst srcs vertices indices blend dstRegion srcRegions
         shader uniforms fillRule w = Done w'
       ∧ managed w'
       ∧ w_current w' = Some a
       ∧ w_queues (ensureCurrent w) !! a = Some q
       ∧ EnqueueDrawTrianglesCommand q dst srcs vertices indices blend dstRegion
           srcRegions shader uniforms fillRule = Done q'
       ∧ w_queues w' !! a = Some q').
Proof.
  intros Hm Hlen Hilen Hfits. split; [apply initialWorld_managed|].
  destruct (ensureCurrent_managed w Hm) as (Hm1 & a & q & Ec & Hq & Hin & Hnew & Hsame).
  split.
  - exists (set_queue a (Enqueue q (OtherCmd tag)) (ensureCurrent w)), a,
      (Enqueue q (OtherCmd tag)).
    unfold enqueueCommand. rewrite Ec, Hq. split_and!; try done.
    + apply managed_set_current_queue; [done|done|].
      destruct Hin as [Hacc He]. split; [by apply Enqueue_accounted|done].
    + simpl. by rewrite lookup_insert_eq.
    + simpl. by rewrite last_snoc.
  - assert (fitsInts q vertices indices) as Hfit.
    { destruct (w_current w) as [c|] eqn:Ecur.
      - rewrite Hsame in Ec, Hq by done. apply (Hfits a q); congruence.
      - destruct (Hnew eq_refl) as (_ & Hv & Hi & _).
        pose proof maxVertexFloatCount_bounds.
        unfold fitsInts. rewrite Hv, Hi. unfold len in *. simpl. lia. }
    destruct Hin as [Hacc He].
    destruct (Enqueue_done q dst srcs vertices indices blend dstRegion srcRegions shader
                uniforms fillRule (acc_wf q Hacc) (proj1 Hfit) Hlen) as [b E].
    pose proof (enqueued_accounted q dst srcs vertices indices blend dstRegion srcRegions
                  shader uniforms fillRule b Hacc Hfit Hlen) as Hacc'.
    eexists _, a, q, _. unfold enqueueDrawTrianglesCommand. rewrite Ec, Hq, E.
    split_and!; try done.
    + apply managed_set_current_queue; [done|done|]. split; [done|].
      unfold enqueued. by destruct (mergeTarget _ _ _ _ _ _ _ _).
    + simpl. by rewrite lookup_insert_eq.
Qed.


End ManagerProperties.

Lemma worldWith_managed (q : @commandQueue milliFloat) (d : scriptedDriver) (vsync : bool) :
  @inUse target64 milliFloat q →
  @managed target64 milliFloat scriptedDriver (worldWith q d vsync).
Proof.
  intros Hin. split; unfold reachable, pendingQueues; simpl.
  - apply NoDup_singleton.
  - intros a Ha. by apply elem_of_nil in Ha.
  - intros a Ha. apply list_elem_of_singleton in Ha. subst a.
    exists q. split; [apply lookup_singleton_eq|done].
Qed.

Lemma worldFlushing_managed (q : @commandQueue milliFloat) (d : scriptedDriver) :
  @inUse target64 milliFloat q →
  @managed target64 milliFloat scriptedDriver (worldFlushing q d).
Proof.
  intros Hin. split; unfold reachable, pendingQueues; simpl.
  - apply NoDup_singleton.
  - intros a Ha. by apply elem_of_nil in Ha.
  - intros a Ha. apply list_elem_of_singleton in Ha. subst a.
    exists q. split; [apply lookup_singleton_eq|done].
Qed.

Lemma afterOneDraw_inUse : @inUse target64 milliFloat afterOneDraw.
Proof. split; [exact afterOneDraw_accounted|reflexivity]. Qed.


Lemma X14_witness :
  ∃ w',
    @enqueueDrawTrianglesCommand target64 milliFloat releaseBuild scriptedDriver image1
      oneSrc oneVertex [0] blendCopy (rect 0 0 16 16) noRegions shader1 [] 0
      (worldWith afterOneDraw healthyDriver true) = Done w'
    ∧ @managed target64 milliFloat scriptedDriver w'.
Proof.
  destruct (@X14_manager_enqueue_keeps_invariant target64 target64_ok milliFloat
              releaseBuild scriptedDriver healthyDriver
              (worldWith afterOneDraw healthyDriver true) 7 image1 oneSrc oneVertex [0]
              blendCopy (rect 0 0 16 16) noRegions shader1 [] 0)
    as (_ & _ & w' & a & q & q' & Hrun & Hm & _).
  - exact (worldWith_managed afterOneDraw healthyDriver true afterOneDraw_inUse).
  - vm_compute. discriminate.
  - vm_compute. discriminate.
  - intros a q Ea Hq. injection Ea as <-.
    unfold worldWith in Hq. simpl in Hq. rewrite lookup_singleton_eq in Hq.
    injection Hq as <-. split; vm_compute; discriminate.
  - exists w'. split; [exact Hrun|exact Hm].
Defined.


(** ** The preserved uniforms, written in place *)

Section PrependProperties.
Context `{F : Float32}.


End PrependProperties.

(** ** The comparison of colors *)

Lemma abs_le (x d : Z) : (restorable.abs x <=? d) = true ↔ - d ≤ x ≤ d.
Proof. unfold restorable.abs. rewrite Z.leb_le. case Z.ltb_spec; lia. Qed.

Lemma sameColors_spec (c1 c2 : restorable.RGBA) (delta : Z) :
  restorable.sameColors c1 c2 delta = true
  ↔ (- delta ≤ restorable.R c1 - restorable.R c2 ≤ delta)
    ∧ (- delta ≤ restorable.G c1 - restorable.G c2 ≤ delta)
    ∧ (- delta ≤ restorable.B c1 - restorable.B c2 ≤ delta)
    ∧ (- delta ≤ restorable.A c1 - restorable.A c2 ≤ delta).
Proof.
  unfold restorable.sameColors. rewrite !andb_true_iff, !abs_le. tauto.
Qed.

(** X17. sameColors is a tolerance relation on colors: it is symmetric,
    it holds between a color and itself exactly when delta is not
    negative, with delta 0 it is equality, a larger delta accepts
    whatever a smaller one accepts, and the deltas of two comparisons
    that share a color add up. *)
Theorem X17_sameColors_tolerance (c1 c2 c3 : restorable.RGBA) (delta delta' : Z) :
  restorable.sameColors c1 c2 delta = restorable.sameColors c2 c1 delta
  ∧ (restorable.sameColors c1 c1 delta = true ↔ 0 ≤ delta)
  ∧ (restorable.sameColors c1 c2 0 = true ↔ c1 = c2)
  ∧ (delta ≤ delta' → restorable.sameColors c1 c2 delta = true →
     restorable.sameColors c1 c2 delta' = true)
  ∧ (restorable.sameColors c1 c2 delta = true →
     restorable.sameColors c2 c3 delta' = true →
     restorable.sameColors c1 c3 (delta + delta') = true).
Proof.
  split_and!.
  - apply eq_true_iff_eq. rewrite !sameColors_spec. lia.
  - rewrite sameColors_spec. lia.
  - rewrite sameColors_spec. split.
    + intros Hsame. destruct c1, c2. simpl in Hsame. f_equal; lia.
    + intros ->. lia.
  - rewrite !sameColors_spec. lia.
  - rewrite !sameColors_spec. lia.
Qed.
